(** * ip-address: IPv4 / IPv6 / CIDR value model

    A shallow embedding of the TypeScript sources
    [utils.ts] (integer codec), [constants.ts] (validation grammar),
    [ipv4.ts], [ipv6.ts] and [cidr.ts], followed by the properties of the
    specification checked against it.

    Conventions of the embedding
    - a JS [bigint] is a [Z]; [>>], [<<], [&], [|] are [Z.shiftr],
      [Z.shiftl], [Z.land], [Z.lor];
    - a JS string is a [list ascii] (code units below 256);
    - a function that may [throw] returns a [result];
    - a JS regular expression is a value of [re], matched by the
      backtracking matcher [re_match]. *)

From Stdlib Require Import Ascii String List ZArith Lia Bool Arith.
Import ListNotations.
Local Open Scope Z_scope.

Set Implicit Arguments.

(** ** Thrown errors and the result monad *)

Inductive error : Type :=
| InvalidIPAddressError
| TypeError
| RangeError.

Inductive result (A : Type) : Type :=
| Ok (a : A)
| Throw (e : error).

Arguments Ok {A} a.
Arguments Throw {A} e.

Definition bind {A B : Type} (r : result A) (k : A -> result B) : result B :=
  match r with
  | Ok a => k a
  | Throw e => Throw e
  end.

Notation "'let*' x ':=' r 'in' k" := (bind r (fun x => k))
  (at level 10, x pattern, r at level 100, k at level 200).

Definition succeeds {A : Type} (r : result A) : bool :=
  match r with Ok _ => true | Throw _ => false end.

(** ** Strings *)

Abbreviation str := (list ascii) (only parsing).

(** String literal: [L "1.2.3.4"]. *)
Definition L (s : string) : str := list_ascii_of_string s.
Arguments L s%_string.

Definition str_eqb (a b : str) : bool :=
  if list_eq_dec ascii_dec a b then true else false.

(** [s.includes(c)] for a one-character needle. *)
Definition includes (c : ascii) (s : str) : bool :=
  existsb (Ascii.eqb c) s.

(** [s.split(sep)] for a one-character separator. *)
Fixpoint split (sep : ascii) (s : str) : list str :=
  match s with
  | [] => [[]]
  | c :: s' =>
      if Ascii.eqb c sep then [] :: split sep s'
      else match split sep s' with
           | h :: t => (c :: h) :: t
           | [] => [[c]]
           end
  end.

(** [parts.join(sep)]. *)
Fixpoint join (sep : str) (parts : list str) : str :=
  match parts with
  | [] => []
  | [p] => p
  | p :: rest => p ++ sep ++ join sep rest
  end.

(** [s.padStart(n, c)]. *)
Definition padStart (n : nat) (c : ascii) (s : str) : str :=
  repeat c (n - length s) ++ s.

(** ** Digits *)

Definition is_digit (c : ascii) : bool :=
  let n := nat_of_ascii c in (48 <=? n)%nat && (n <=? 57)%nat.

Definition is_hex (c : ascii) : bool :=
  let n := nat_of_ascii c in
  ((48 <=? n)%nat && (n <=? 57)%nat)
  || ((65 <=? n)%nat && (n <=? 70)%nat)
  || ((97 <=? n)%nat && (n <=? 102)%nat).

(** Value of a digit character in any radix up to 16 (upper or lower case). *)
Definition digit_val (c : ascii) : Z :=
  let n := Z.of_nat (nat_of_ascii c) in
  if (48 <=? n) && (n <=? 57) then n - 48
  else if (65 <=? n) && (n <=? 70) then n - 55
  else if (97 <=? n) && (n <=? 102) then n - 87
  else 0.

(** Lower-case digit character of a value below 16. *)
Definition digit_char (d : Z) : ascii :=
  if d <? 10 then ascii_of_nat (Z.to_nat (48 + d))
  else ascii_of_nat (Z.to_nat (87 + d)).

(** [parseInt(s, radix)] / [Number(s)] on a string already known to consist
    of digits of that radix: the exact integer. *)
Definition parse_digits (radix : Z) (s : str) : Z :=
  fold_left (fun acc c => acc * radix + digit_val c) s 0.

Fixpoint digits_of (fuel : nat) (radix n : Z) (acc : str) : str :=
  match fuel with
  | O => acc
  | S f =>
      let acc' := digit_char (n mod radix) :: acc in
      if n / radix =? 0 then acc' else digits_of f radix (n / radix) acc'
  end.

(** [n.toString(radix)] of a bigint: most significant digit first, no leading
    zeros, lower case, a minus sign for negative values. *)
Definition toString (radix n : Z) : str :=
  if n <? 0
  then "-"%char :: digits_of (S (Z.to_nat (Z.log2 (- n)))) radix (- n) []
  else digits_of (S (Z.to_nat (Z.log2 n))) radix n [].

(** ** Regular expressions

    The fragment used by the sources: literal characters, character classes,
    concatenation, alternation and bounded repetition [{lo,hi}].  All
    patterns of the validation layer are anchored ([^...$]) and tested with
    [RegExp.prototype.test], so only the language matters. *)

Inductive re : Type :=
| Eps
| Chr (c : ascii)
| Cls (p : ascii -> bool)
| Seq (a b : re)
| Alt (a b : re).

(** [r?] *)
Definition opt (r : re) : re := Alt (Seq r Eps) Eps.

(** [r{0,n}], greedy. *)
Fixpoint upto (n : nat) (r : re) : re :=
  match n with
  | O => Eps
  | S k => Alt (Seq r (upto k r)) Eps
  end.

(** [r{n}] followed by [k]. *)
Fixpoint times (n : nat) (r k : re) : re :=
  match n with
  | O => k
  | S m => Seq r (times m r k)
  end.

(** [r{lo,hi}]. *)
Definition rep (lo hi : nat) (r : re) : re :=
  times lo r (upto (hi - lo) r).

(** Literal text. *)
Fixpoint lit (s : str) : re :=
  match s with
  | [] => Eps
  | c :: s' => Seq (Chr c) (lit s')
  end.

(** [a|b|c|...] *)
Fixpoint alts (rs : list re) : re :=
  match rs with
  | [] => Cls (fun _ => false)
  | [r] => r
  | r :: rest => Alt r (alts rest)
  end.

(** [a b c ...] *)
Fixpoint seqs (rs : list re) : re :=
  match rs with
  | [] => Eps
  | [r] => r
  | r :: rest => Seq r (seqs rest)
  end.

(** Backtracking matcher in continuation-passing style: [re_match r s k]
    holds when some prefix of [s] matches [r] and [k] accepts the rest. *)
Fixpoint re_match (r : re) (s : str) (k : str -> bool) : bool :=
  match r with
  | Eps => k s
  | Chr c => match s with
             | d :: s' => if Ascii.eqb c d then k s' else false
             | [] => false
             end
  | Cls p => match s with
             | d :: s' => if p d then k s' else false
             | [] => false
             end
  | Seq a b => re_match a s (fun s' => re_match b s' k)
  | Alt a b => if re_match a s k then true else re_match b s k
  end.

Definition is_empty (s : str) : bool :=
  match s with [] => true | _ => false end.

(** [new RegExp("^" + r + "$").test(s)] *)
Definition test (r : re) (s : str) : bool := re_match r s is_empty.

(** ** constants.ts *)

Inductive IPVersion : Type := V4 | V6.

Definition version_eqb (a b : IPVersion) : bool :=
  match a, b with
  | V4, V4 | V6, V6 => true
  | _, _ => false
  end.

Definition BITS (v : IPVersion) : Z :=
  match v with V4 => 32 | V6 => 128 end.

Definition MAX_IP (v : IPVersion) : Z :=
  match v with
  | V4 => 0xffffffff
  | V6 => 0xffffffffffffffffffffffffffffffff
  end.

(** The class [[a-b]]. *)
Definition range (a b : ascii) (c : ascii) : bool :=
  (nat_of_ascii a <=? nat_of_ascii c)%nat && (nat_of_ascii c <=? nat_of_ascii b)%nat.

Definition colon : re := Chr ":".
Definition dot : re := Chr ".".

(** [[0-9A-Fa-f]{1,4}] *)
Definition IPV6_SEGMENT : re :=
  rep 1 4 (Cls (fun c => range "0" "9" c || range "A" "F" c || range "a" "f" c)).

(** [(25[0-5]|2[0-4][0-9]|1[0-9]{2}|[1-9]?[0-9])] *)
Definition IPV4_PART : re :=
  alts [ seqs [Chr "2"; Chr "5"; Cls (range "0" "5")];
         seqs [Chr "2"; Cls (range "0" "4"); Cls (range "0" "9")];
         Seq (Chr "1") (rep 2 2 (Cls (range "0" "9")));
         Seq (opt (Cls (range "1" "9"))) (Cls (range "0" "9")) ].

Definition IPV4_ADDRESS_PATTERN : re :=
  seqs [IPV4_PART; dot; IPV4_PART; dot; IPV4_PART; dot; IPV4_PART].

Definition IPV4_ADDRESS_REGEX : re := IPV4_ADDRESS_PATTERN.

(** [(?:SEG:)] and [(?::SEG)] *)
Definition seg_colon : re := Seq IPV6_SEGMENT colon.
Definition colon_seg : re := Seq colon IPV6_SEGMENT.

Definition IPV6_STANDARD : re := Seq (rep 7 7 seg_colon) IPV6_SEGMENT.
Definition IPV6_COMPRESSED_1 : re := Seq (rep 1 7 seg_colon) colon.
Definition IPV6_COMPRESSED_2 : re := Seq colon (rep 1 7 colon_seg).
Definition IPV6_COMPRESSED_3 : re := seqs [rep 1 6 seg_colon; colon; IPV6_SEGMENT].
Definition IPV6_COMPRESSED_4 : re := Seq (rep 1 5 seg_colon) (rep 1 2 colon_seg).
Definition IPV6_COMPRESSED_5 : re := Seq (rep 1 4 seg_colon) (rep 1 3 colon_seg).
Definition IPV6_COMPRESSED_6 : re := Seq (rep 1 3 seg_colon) (rep 1 4 colon_seg).
Definition IPV6_COMPRESSED_7 : re := Seq (rep 1 2 seg_colon) (rep 1 5 colon_seg).
Definition IPV6_COMPRESSED_8 : re := seqs [IPV6_SEGMENT; colon; rep 1 6 colon_seg].
Definition IPV6_COMPRESSED_9 : re :=
  seqs [colon; colon; rep 0 5 seg_colon; IPV6_SEGMENT].
Definition IPV6_COMPRESSED_10 : re := Seq colon colon.
Definition IPV6_IPV4_MAPPED : re :=
  Seq (alts [ rep 6 6 seg_colon;
              seqs [colon; colon; rep 0 5 seg_colon];
              seqs [rep 0 5 seg_colon; colon; colon; rep 0 5 seg_colon] ])
      IPV4_ADDRESS_PATTERN.

Definition IPV6_COMBINED : list re :=
  [ IPV6_STANDARD;
    IPV6_COMPRESSED_1;
    IPV6_COMPRESSED_2;
    IPV6_COMPRESSED_3;
    IPV6_COMPRESSED_4;
    IPV6_COMPRESSED_5;
    IPV6_COMPRESSED_6;
    IPV6_COMPRESSED_7;
    IPV6_COMPRESSED_8;
    IPV6_COMPRESSED_9;
    IPV6_COMPRESSED_10;
    IPV6_IPV4_MAPPED ].

Definition IPV6_VALIDATION_REGEX : re := alts IPV6_COMBINED.

(** ** utils.ts: the integer codec *)

Definition fastIpVersion (probablyIp : str) : result IPVersion :=
  if includes "." probablyIp then Ok V4
  else if includes ":" probablyIp then Ok V6
  else Throw InvalidIPAddressError.

(** [/^\d+$/.test(part)] *)
Definition all_digits (part : str) : bool :=
  negb (is_empty part) && forallb is_digit part.

Definition ipv4ToBigInt (ip : str) : result Z :=
  let parts := split "." ip in
  if negb (length parts =? 4)%nat
     || existsb (fun part => negb (all_digits part) || (255 <? parse_digits 10 part)) parts
  then Throw InvalidIPAddressError
  else Ok (fold_left (fun acc octet => Z.lor (Z.shiftl acc 8) (parse_digits 10 octet)) parts 0).

(** [parts.indexOf('')] *)
Fixpoint indexOf_empty (parts : list str) : option nat :=
  match parts with
  | [] => None
  | p :: rest =>
      if is_empty p then Some O
      else option_map S (indexOf_empty rest)
  end.

(** [Array(missingParts)] throws a [RangeError] on a negative length. *)
Definition expandIPv6Shorthand (parts : list str) : result (list str) :=
  match indexOf_empty parts with
  | Some index =>
      let missingParts := 8 - Z.of_nat (length parts) + 1 in
      if missingParts <? 0 then Throw RangeError
      else Ok (firstn index parts
                 ++ repeat [] (Z.to_nat missingParts)
                 ++ skipn (S index) parts)
  | None => Ok parts
  end.

(** Line terminators, which [.] does not match. *)
Definition is_line_terminator (c : ascii) : bool :=
  Ascii.eqb c "010" || Ascii.eqb c "013".

(** [/(.+)%(.+)/.exec(ip)]: the first capture group of the leftmost match,
    the first [.+] being greedy.  [zone_extend s] is the text still taken by
    the first group at [s], once it holds at least one character. *)
Fixpoint zone_extend (s : str) : option str :=
  match s with
  | [] => None
  | c :: s' =>
      let deeper :=
        if is_line_terminator c then None
        else option_map (cons c) (zone_extend s') in
      match deeper with
      | Some g => Some g
      | None =>
          if Ascii.eqb c "%" then
            match s' with
            | d :: _ => if is_line_terminator d then None else Some []
            | [] => None
            end
          else None
      end
  end.

Definition zone_at (s : str) : option str :=
  match s with
  | [] => None
  | c :: s' =>
      if is_line_terminator c then None
      else option_map (cons c) (zone_extend s')
  end.

Fixpoint zone_exec (s : str) : option str :=
  match zone_at s with
  | Some g => Some g
  | None => match s with
            | [] => None
            | _ :: s' => zone_exec s'
            end
  end.

(** [/^(::ffff:)(?:(\d{1,3}\.\d{1,3}\.\d{1,3}\.\d{1,3}))$/] *)
Definition d13 : re := rep 1 3 (Cls (range "0" "9")).
Definition ipv4MappedRegex : re :=
  Seq (lit (L "::ffff:")) (seqs [d13; dot; d13; dot; d13; dot; d13]).

Definition hex_part_ok (part : str) : bool :=
  forallb is_hex part && (length part <=? 4)%nat.

(** [part === '' ? 0n : BigInt(Number.parseInt(part, 16))] *)
Definition part_val (part : str) : Z :=
  if is_empty part then 0 else parse_digits 16 part.

(** The loop [for (const n of r) { number += n * 2n ** exp; exp += 16n }]. *)
Definition sum_groups (r : list Z) : Z :=
  fst (fold_left (fun '(number, exp) n => (number + n * 2 ^ exp, exp + 16)) r (0, 0)).

Definition ipv6ToBigInt (ip0 : str) : result Z :=
  let* ip :=
    (if includes "%" ip0
     then match zone_exec ip0 with
          | Some g => Ok g
          | None => Throw TypeError
          end
     else Ok ip0) in
  if test ipv4MappedRegex ip then
    let ipv4Part := skipn 7 ip in
    let* ipv4BigInt := ipv4ToBigInt ipv4Part in
    Ok (Z.lor (Z.shiftl 0x00000000000000000000ffff 32) ipv4BigInt)
  else
    let* parts := expandIPv6Shorthand (split ":" ip) in
    if negb (length parts =? 8)%nat || existsb (fun part => negb (hex_part_ok part)) parts
    then Throw InvalidIPAddressError
    else
      let r := rev (map part_val parts) in
      Ok (sum_groups r).

Definition ipToBigInt (ip : str) (version : option IPVersion) : result Z :=
  let* v := (match version with Some v => Ok v | None => fastIpVersion ip end) in
  match v with
  | V4 => ipv4ToBigInt ip
  | V6 => ipv6ToBigInt ip
  end.

(** [parts[index] = v] for an index inside the array. *)
Fixpoint set_at (parts : list str) (index : nat) (v : str) : list str :=
  match parts, index with
  | [], _ => []
  | _ :: rest, O => v :: rest
  | p :: rest, S i => p :: set_at rest i v
  end.

(** The scanning loop of [compressIPv6]; a [Set<number>] is the list of its
    members in insertion order. *)
Fixpoint compress_scan (parts : list str) (i : nat)
  (longest current : option (list nat)) : option (list nat) * option (list nat) :=
  match parts with
  | [] => (longest, current)
  | part :: rest =>
      if str_eqb part (L "0") then
        let cur := match current with Some c => c | None => [] end in
        compress_scan rest (S i) longest (Some (cur ++ [i]))
      else
        match current with
        | Some c =>
            let longest' :=
              match longest with
              | None => Some c
              | Some l => if (length l <? length c)%nat then Some c else Some l
              end in
            compress_scan rest (S i) longest' None
        | None => compress_scan rest (S i) longest None
        end
  end.

(** [s.replace(/:{2,}/, '::')]: the first run of two or more colons. *)
Fixpoint drop_colons (s : str) : str :=
  match s with
  | c :: s' => if Ascii.eqb c ":" then drop_colons s' else s
  | [] => []
  end.

Fixpoint replace_colons (s : str) : str :=
  match s with
  | [] => []
  | c :: s' =>
      if Ascii.eqb c ":" then
        match s' with
        | d :: _ =>
            if Ascii.eqb d ":" then L "::" ++ drop_colons s'
            else c :: replace_colons s'
        | [] => [c]
        end
      else c :: replace_colons s'
  end.

(** The value of [longest] once the loop and the [if] after it have run. *)
Definition compress_longest (parts : list str) : option (list nat) :=
  let '(longest, current) := compress_scan parts 0 None None in
  match longest, current with
  | None, Some c => Some c
  | Some l, Some c => if (length l <? length c)%nat then Some c else Some l
  | _, None => longest
  end.

Definition compressIPv6 (parts : list str) : str :=
  let longest := compress_longest parts in
  let parts' :=
    fold_left (fun ps index => set_at ps index (L ":"))
              (match longest with Some l => l | None => [] end) parts in
  replace_colons (join (L ":") (filter (fun p => negb (is_empty p)) parts')).

(** The version-4 branch of [bigIntToIp]. *)
Definition ipv4_text (number : Z) : str :=
  toString 10 (Z.land (Z.shiftr number 24) 0xff) ++ L "." ++
  toString 10 (Z.land (Z.shiftr number 16) 0xff) ++ L "." ++
  toString 10 (Z.land (Z.shiftr number 8) 0xff) ++ L "." ++
  toString 10 (Z.land number 0xff).

Definition bigIntToIp (number : Z) (version : IPVersion) (compress : bool) : str :=
  match version with
  | V4 => ipv4_text number
  | V6 =>
      if Z.shiftr number 32 =? 0xffff then
        let ipv4Part := Z.land number 0xffffffff in
        L "::ffff:" ++ ipv4_text ipv4Part
      else
        let parts :=
          map (fun i => Z.land (Z.shiftr number (112 - i * 16)) 0xffff)
              [0; 1; 2; 3; 4; 5; 6; 7] in
        let to16 := map (toString 16) parts in
        if compress then compressIPv6 to16
        else join (L ":") (map (padStart 4 "0") to16)
  end.

(** ** ipv4.ts *)

Module IPv4.

(** The private field [#address]. *)
Record t : Type := mk { address_ : Z }.

Definition isValid (address : str) : bool :=
  test IPV4_ADDRESS_REGEX address.

(** [new IPv4(address)] *)
Definition new (address : str) : result t :=
  if negb (isValid address) then Throw InvalidIPAddressError
  else
    let* a := ipToBigInt address (Some V4) in
    Ok (mk a).

Definition fromBigInt (value : Z) : result t :=
  let ip := bigIntToIp value V4 true in
  new ip.

Definition fromBytes (bytes : list Z) : result t :=
  let value := fold_left (fun acc octet => Z.lor (Z.shiftl acc 8) octet) bytes 0 in
  fromBigInt value.

Definition address (ip : t) : str := bigIntToIp (address_ ip) V4 true.

Definition toBigInt (ip : t) : Z := address_ ip.

Definition toArpa (ip : t) : str :=
  join (L ".") (rev (split "." (address ip))) ++ L ".in-addr.arpa".

Definition next (ip : t) (count : Z) : result t :=
  fromBigInt (Z.land (address_ ip + count) (MAX_IP V4)).

Definition previous (ip : t) (count : Z) : result t :=
  fromBigInt (Z.land (address_ ip - count) (MAX_IP V4)).

Definition toBytes (ip : t) : list Z :=
  let address := address_ ip in
  [ Z.land (Z.shiftr address 24) 0xff;
    Z.land (Z.shiftr address 16) 0xff;
    Z.land (Z.shiftr address 8) 0xff;
    Z.land address 0xff ].

(** An operand given as an instance or as a literal: [IPv4 | string]. *)
Inductive operand : Type :=
| Lit (s : str)
| Inst (ip : t).

(** [typeof other === 'string' ? new IPv4(other) : other] *)
Definition resolve (other : operand) : result t :=
  match other with
  | Lit s => new s
  | Inst ip => Ok ip
  end.

Definition isPrivate (ip : t) : bool :=
  let addr := address_ ip in
  if (167772160 <=? addr) && (addr <=? 184549375) then true
  else if (2886729728 <=? addr) && (addr <=? 2887778303) then true
  else if (3232235520 <=? addr) && (addr <=? 3232301055) then true
  else false.

Definition isLoopback (ip : t) : bool :=
  (2130706432 <=? address_ ip) && (address_ ip <=? 2147483647).

Definition isMulticast (ip : t) : bool :=
  (3758096384 <=? address_ ip) && (address_ ip <=? 4026531839).

Definition isLinkLocal (ip : t) : bool :=
  (2851995648 <=? address_ ip) && (address_ ip <=? 2852061183).

Definition isUnspecified (ip : t) : bool := address_ ip =? 0.

Definition isBroadcast (ip : t) : bool := address_ ip =? 0xffffffff.

Definition isReserved (ip : t) : bool :=
  let addr := address_ ip in
  if (0 <=? addr) && (addr <=? 16777215) then true
  else if (1681915904 <=? addr) && (addr <=? 1686110207) then true
  else if (3221225472 <=? addr) && (addr <=? 3221225727) then true
  else if (3221225984 <=? addr) && (addr <=? 3221226239) then true
  else if (3227017984 <=? addr) && (addr <=? 3227018239) then true
  else if (3323068416 <=? addr) && (addr <=? 3323199487) then true
  else if (3325256704 <=? addr) && (addr <=? 3325256959) then true
  else if (3405803776 <=? addr) && (addr <=? 3405804031) then true
  else if (4026531840 <=? addr) && (addr <=? 4294967295) then true
  else isPrivate ip || isLoopback ip || isLinkLocal ip || isMulticast ip.

Definition isGlobalUnicast (ip : t) : bool :=
  negb (isUnspecified ip) && negb (isBroadcast ip) && negb (isReserved ip).

Definition equals (ip : t) (other : operand) : result bool :=
  let* otherIp := resolve other in
  Ok (address_ ip =? address_ otherIp).

Definition compare (ip : t) (other : operand) : result Z :=
  let* otherIp := resolve other in
  if address_ ip <? address_ otherIp then Ok (-1)
  else if address_ otherIp <? address_ ip then Ok 1
  else Ok 0.

Definition and (ip : t) (other : operand) : result t :=
  let* otherIp := resolve other in
  fromBigInt (Z.land (address_ ip) (address_ otherIp)).

Definition or (ip : t) (other : operand) : result t :=
  let* otherIp := resolve other in
  fromBigInt (Z.lor (address_ ip) (address_ otherIp)).

Definition not (ip : t) : result t :=
  fromBigInt (Z.land (Z.lnot (address_ ip)) (MAX_IP V4)).

End IPv4.

(** ** ipv6.ts *)

Module IPv6.

Record t : Type := mk { address_ : Z }.

Definition isValid (address : str) : bool :=
  if includes "/" address then false
  else test IPV6_VALIDATION_REGEX address.

(** [new IPv6(address)] *)
Definition new (address : str) : result t :=
  if negb (isValid address) then Throw InvalidIPAddressError
  else
    let* a := ipToBigInt address (Some V6) in
    Ok (mk a).

Definition fromBigInt (value : Z) : result t :=
  let ip := bigIntToIp value V6 true in
  new ip.

Definition fromBytes (bytes : list Z) : result t :=
  if negb (length bytes =? 16)%nat then Throw InvalidIPAddressError
  else
    let value := fold_left (fun acc octet => Z.lor (Z.shiftl acc 8) octet) bytes 0 in
    fromBigInt value.

Definition address (ip : t) : str := bigIntToIp (address_ ip) V6 true.

Definition expandedAddress (ip : t) : str := bigIntToIp (address_ ip) V6 false.

Definition toBigInt (ip : t) : Z := address_ ip.

Definition isIPv4Mapped (ip : t) : bool :=
  Z.shiftr (address_ ip) 32 =? 0xffff.

(** [null] is [None]. *)
Definition toIPv4 (ip : t) : result (option IPv4.t) :=
  if negb (isIPv4Mapped ip) then Ok None
  else
    let ipv4Address := Z.land (address_ ip) 0xffffffff in
    let* r := IPv4.fromBigInt ipv4Address in
    Ok (Some r).

(** [expandedAddress.replace(/:/g, '')], then
    [hex.split('').reverse().join('.')]. *)
Definition toArpa (ip : t) : str :=
  let hex := filter (fun c => negb (Ascii.eqb c ":")) (expandedAddress ip) in
  join (L ".") (rev (map (fun c => [c]) hex)) ++ L ".ip6.arpa".

Definition next (ip : t) (count : Z) : result t :=
  fromBigInt (Z.land (address_ ip + count) (MAX_IP V6)).

Definition previous (ip : t) (count : Z) : result t :=
  fromBigInt (Z.land (address_ ip - count) (MAX_IP V6)).

Definition toBytes (ip : t) : list Z :=
  map (fun i => Z.land (Z.shiftr (address_ ip) (120 - i * 8)) 0xff)
      [0; 1; 2; 3; 4; 5; 6; 7; 8; 9; 10; 11; 12; 13; 14; 15].

Inductive operand : Type :=
| Lit (s : str)
| Inst (ip : t).

Definition resolve (other : operand) : result t :=
  match other with
  | Lit s => new s
  | Inst ip => Ok ip
  end.

Definition isUnspecified (ip : t) : bool := address_ ip =? 0.

Definition isLoopback (ip : t) : bool := address_ ip =? 1.

Definition isMulticast (ip : t) : bool := Z.shiftr (address_ ip) 120 =? 0xff.

Definition isLinkLocal (ip : t) : bool := Z.shiftr (address_ ip) 118 =? 0x3fa.

Definition isUniqueLocal (ip : t) : bool := Z.shiftr (address_ ip) 121 =? 0x7e.

Definition isReserved (ip : t) : bool :=
  let addr := address_ ip in
  if Z.shiftr addr 64 =? 0x100000000000000 then true
  else if Z.shiftr addr 80 =? 0x200100020000 then true
  else if Z.shiftr addr 96 =? 0x20010db8 then true
  else if Z.shiftr addr 96 =? 0x20010000 then true
  else if Z.shiftr addr 112 =? 0x2002 then true
  else false.

Definition isGlobalUnicast (ip : t) : bool :=
  let isGlobalRange := Z.shiftr (address_ ip) 125 =? 0x1 in
  isGlobalRange
  && negb (isUnspecified ip)
  && negb (isLoopback ip)
  && negb (isMulticast ip)
  && negb (isLinkLocal ip)
  && negb (isUniqueLocal ip)
  && negb (isIPv4Mapped ip)
  && negb (isReserved ip).

Definition equals (ip : t) (other : operand) : result bool :=
  let* otherIp := resolve other in
  Ok (address_ ip =? address_ otherIp).

Definition compare (ip : t) (other : operand) : result Z :=
  let* otherIp := resolve other in
  if address_ ip <? address_ otherIp then Ok (-1)
  else if address_ otherIp <? address_ ip then Ok 1
  else Ok 0.

Definition and (ip : t) (other : operand) : result t :=
  let* otherIp := resolve other in
  fromBigInt (Z.land (address_ ip) (address_ otherIp)).

Definition or (ip : t) (other : operand) : result t :=
  let* otherIp := resolve other in
  fromBigInt (Z.lor (address_ ip) (address_ otherIp)).

Definition not (ip : t) : result t :=
  fromBigInt (Z.land (Z.lnot (address_ ip)) (MAX_IP V6)).

End IPv6.

(** [toIPv4Mapped] of ipv4.ts (stated here because it builds an [IPv6]). *)
Definition IPv4_toIPv4Mapped (ip : IPv4.t) : result IPv6.t :=
  let mappedBigInt := Z.lor (Z.shiftl 0xffff 32) (IPv4.address_ ip) in
  IPv6.fromBigInt mappedBigInt.

(** ** typings.ts *)

Inductive IP : Type :=
| IP4 (a : IPv4.t)
| IP6 (a : IPv6.t).

Definition IP_version (ip : IP) : IPVersion :=
  match ip with IP4 _ => V4 | IP6 _ => V6 end.

Definition IP_toBigInt (ip : IP) : Z :=
  match ip with IP4 a => IPv4.toBigInt a | IP6 a => IPv6.toBigInt a end.

(** ** cidr.ts *)

(** White space skipped by [parseInt]. *)
Definition is_space (c : ascii) : bool :=
  let n := nat_of_ascii c in
  ((9 <=? n)%nat && (n <=? 13)%nat) || (n =? 32)%nat || (n =? 160)%nat.

Fixpoint skip_spaces (s : str) : str :=
  match s with
  | c :: s' => if is_space c then skip_spaces s' else s
  | [] => []
  end.

Fixpoint take_digits (s : str) : str :=
  match s with
  | c :: s' => if is_digit c then c :: take_digits s' else []
  | [] => []
  end.

(** [parseInt(s, 10)]: leading white space, an optional sign, then the
    longest run of decimal digits; whatever follows is ignored.  [NaN] is
    [None]; [-0] is [0]. *)
Definition parseInt10 (s : str) : option Z :=
  let s1 := skip_spaces s in
  let '(sign, s2) :=
    match s1 with
    | c :: s' =>
        if Ascii.eqb c "-" then (-1, s')
        else if Ascii.eqb c "+" then (1, s')
        else (1, s1)
    | [] => (1, s1)
    end in
  let ds := take_digits s2 in
  if is_empty ds then None else Some (sign * parse_digits 10 ds).

Module CIDR.

Record t : Type := mk { address : IP; prefix : Z }.

(** [new CIDR(cidr)].  The destructuring [[addressPart, prefixPart]] takes
    the first two pieces of the split; a missing second piece is
    [undefined], which like [''] is falsy. *)
Definition new (cidr : str) : result t :=
  let pieces := split "/" cidr in
  let addressPart := hd [] pieces in
  let prefixPart := nth_error pieces 1 in
  match prefixPart with
  | None => Throw InvalidIPAddressError
  | Some prefixPart =>
      if is_empty prefixPart then Throw InvalidIPAddressError
      else
        match parseInt10 prefixPart with
        | None => Throw InvalidIPAddressError
        | Some prefix =>
            let* (address, version) :=
              (if includes "." addressPart
               then let* a := IPv4.new addressPart in Ok (IP4 a, V4)
               else let* a := IPv6.new addressPart in Ok (IP6 a, V6)) in
            if (prefix <? 0) || (BITS version <? prefix)
            then Throw InvalidIPAddressError
            else Ok (mk address prefix)
        end
  end.

Definition version (c : t) : IPVersion := IP_version (address c).

Definition fromBigInt (v : IPVersion) (n : Z) : result IP :=
  match v with
  | V4 => let* a := IPv4.fromBigInt n in Ok (IP4 a)
  | V6 => let* a := IPv6.fromBigInt n in Ok (IP6 a)
  end.

Definition netmask (c : t) : result IP :=
  let version := version c in
  let mask := Z.land (Z.shiftl (MAX_IP version) (BITS version - prefix c)) (MAX_IP version) in
  fromBigInt version mask.

Definition network (c : t) : result IP :=
  let* m := netmask c in
  let networkAddress := Z.land (IP_toBigInt (address c)) (IP_toBigInt m) in
  fromBigInt (version c) networkAddress.

Definition broadcast (c : t) : result IP :=
  let* n := network c in
  let networkAddress := IP_toBigInt n in
  let hostmask := Z.shiftr (MAX_IP (version c)) (prefix c) in
  let broadcastAddress := Z.lor networkAddress hostmask in
  fromBigInt (version c) broadcastAddress.

(** [next()] / [previous()] with the default count [1n], on either class. *)
Definition IP_next (ip : IP) : result IP :=
  match ip with
  | IP4 a => let* r := IPv4.next a 1 in Ok (IP4 r)
  | IP6 a => let* r := IPv6.next a 1 in Ok (IP6 r)
  end.

Definition IP_previous (ip : IP) : result IP :=
  match ip with
  | IP4 a => let* r := IPv4.previous a 1 in Ok (IP4 r)
  | IP6 a => let* r := IPv6.previous a 1 in Ok (IP6 r)
  end.

Definition first (c : t) : result IP :=
  match version c with
  | V4 =>
      if 31 <=? prefix c then network c
      else let* n := network c in IP_next n
  | V6 => network c
  end.

Definition last (c : t) : result IP :=
  match version c with
  | V4 =>
      if 31 <=? prefix c then broadcast c
      else let* b := broadcast c in IP_previous b
  | V6 => broadcast c
  end.

(** The argument of [contains]: [T | string]. *)
Inductive candidate : Type :=
| Literal (s : str)
| Instance (ip : IP).

Definition contains (c : t) (ip : candidate) : result bool :=
  let* ipAddress :=
    (match ip with
     | Literal s =>
         match version c with
         | V4 => let* a := IPv4.new s in Ok (IP4 a)
         | V6 => let* a := IPv6.new s in Ok (IP6 a)
         end
     | Instance i => Ok i
     end) in
  if negb (version_eqb (IP_version ipAddress) (version c))
  then Ok false
  else
    let* n := network c in
    let* b := broadcast c in
    let networkAddress := IP_toBigInt n in
    let broadcastAddress := IP_toBigInt b in
    let targetAddress := IP_toBigInt ipAddress in
    Ok ((networkAddress <=? targetAddress) && (targetAddress <=? broadcastAddress)).

(** [`${this.address.address}/${this.prefix}`] *)
Definition toString (c : t) : str :=
  (match address c with
   | IP4 a => IPv4.address a
   | IP6 a => IPv6.address a
   end) ++ L "/" ++ toString 10 (prefix c).

End CIDR.

(** ** index.ts *)

Definition parseIP (address : str) : result IP :=
  if includes "." address then let* a := IPv4.new address in Ok (IP4 a)
  else if includes ":" address then let* a := IPv6.new address in Ok (IP6 a)
  else Throw InvalidIPAddressError.

Definition parseCIDR (cidr : str) : result CIDR.t := CIDR.new cidr.

(** A value of type [unknown]: a string or anything else. *)
Inductive unknown : Type :=
| JSString (s : str)
| JSOther.

Definition isValidIP (maybeIP : unknown) : bool :=
  match maybeIP with
  | JSString s => IPv4.isValid s || IPv6.isValid s
  | JSOther => false
  end.

(** ** Specification-side notions: regular languages and their abstractions *)

(** ** The language of a regular expression *)

Inductive lang : re -> str -> Prop :=
| lang_eps : lang Eps []
| lang_chr c : lang (Chr c) [c]
| lang_cls (p : ascii -> bool) c : p c = true -> lang (Cls p) [c]
| lang_seq a b s1 s2 : lang a s1 -> lang b s2 -> lang (Seq a b) (s1 ++ s2)
| lang_alt_l a b s : lang a s -> lang (Alt a b) s
| lang_alt_r a b s : lang b s -> lang (Alt a b) s.

(** *** Characters that a match never / always contains *)

Fixpoint avoids (c : ascii) (r : re) : bool :=
  match r with
  | Eps => true
  | Chr d => negb (Ascii.eqb d c)
  | Cls p => negb (p c)
  | Seq a b => avoids c a && avoids c b
  | Alt a b => avoids c a && avoids c b
  end.

Fixpoint needs (c : ascii) (r : re) : bool :=
  match r with
  | Eps => false
  | Chr d => Ascii.eqb d c
  | Cls p => false
  | Seq a b => needs c a || needs c b
  | Alt a b => needs c a && needs c b
  end.

(** Every character of a match satisfies [q], checked on all 256 characters. *)
Definition all_ascii : list ascii := map ascii_of_nat (seq 0 256).

Fixpoint only (q : ascii -> bool) (r : re) : bool :=
  match r with
  | Eps => true
  | Chr d => q d
  | Cls p => forallb (fun c => implb (p c) (q c)) all_ascii
  | Seq a b => only q a && only q b
  | Alt a b => only q a && only q b
  end.

(** Bounds on the length of a match. *)
Fixpoint minlen (r : re) : nat :=
  match r with
  | Eps => 0
  | Chr _ | Cls _ => 1
  | Seq a b => minlen a + minlen b
  | Alt a b => Nat.min (minlen a) (minlen b)
  end.

Fixpoint maxlen (r : re) : nat :=
  match r with
  | Eps => 0
  | Chr _ | Cls _ => 1
  | Seq a b => maxlen a + maxlen b
  | Alt a b => Nat.max (maxlen a) (maxlen b)
  end.

(** Lower-case hexadecimal digits, the characters [toString(16)] produces. *)
Definition is_lower_hex (c : ascii) : bool :=
  range "0" "9" c || range "a" "f" c.

(** What the codec and the validation grammar need of the text of one octet. *)
Definition octet_text_ok (n : Z) : bool :=
  let s := toString 10 n in
  all_digits s && (parse_digits 10 s =? n) && test IPV4_PART s && test d13 s.

(** The integers [0 .. n-1]. *)
Definition upto_Z (n : nat) : list Z := map Z.of_nat (seq 0 n).

(** *** Abstractions of [compressIPv6]

    The scan only looks at which parts are ["0"]: [scan_flags] is the same
    loop on those flags. *)

Definition zero_flags (parts : list str) : list bool :=
  map (fun p => str_eqb p (L "0")) parts.

Fixpoint scan_flags (flags : list bool) (i : nat)
  (longest current : option (list nat)) : option (list nat) * option (list nat) :=
  match flags with
  | [] => (longest, current)
  | f :: rest =>
      if f then
        let cur := match current with Some c => c | None => [] end in
        scan_flags rest (S i) longest (Some (cur ++ [i]))
      else
        match current with
        | Some c =>
            let longest' :=
              match longest with
              | None => Some c
              | Some l => if (length l <? length c)%nat then Some c else Some l
              end in
            scan_flags rest (S i) longest' None
        | None => scan_flags rest (S i) longest None
        end
  end.

Definition longest_flags (flags : list bool) : option (list nat) :=
  let '(longest, current) := scan_flags flags 0 None None in
  match longest, current with
  | None, Some c => Some c
  | Some l, Some c => if (length l <? length c)%nat then Some c else Some l
  | _, None => longest
  end.

(** All lists of [n] booleans. *)
Fixpoint all_flags (n : nat) : list (list bool) :=
  match n with
  | O => [[]]
  | S k => map (cons true) (all_flags k) ++ map (cons false) (all_flags k)
  end.

Definition list_bool_eqb (a b : list bool) : bool :=
  if list_eq_dec bool_dec a b then true else false.

Definition list_nat_eqb (a b : list nat) : bool :=
  if list_eq_dec Nat.eq_dec a b then true else false.

(** Specification of the run to compress: the maximal runs of [true], as
    (start, length), left to right, and the first one of the greatest length. *)
Fixpoint runs_from (flags : list bool) (i : nat) (cur : option (nat * nat)) : list (nat * nat) :=
  match flags with
  | [] => match cur with Some r => [r] | None => [] end
  | true :: rest =>
      runs_from rest (S i) (match cur with
                            | Some (s, n) => Some (s, S n)
                            | None => Some (i, 1%nat)
                            end)
  | false :: rest =>
      match cur with
      | Some r => r :: runs_from rest (S i) None
      | None => runs_from rest (S i) None
      end
  end.

Fixpoint first_longest (runs : list (nat * nat)) : option (nat * nat) :=
  match runs with
  | [] => None
  | r :: rest =>
      match first_longest rest with
      | Some r' => if (snd r <? snd r')%nat then Some r' else Some r
      | None => Some r
      end
  end.

(** The shape of the chosen set on given flags: the indices of the first
    longest run of set flags, in order, or nothing when no flag is set. *)
Definition longest_shape_ok (flags : list bool) : bool :=
  match longest_flags flags, first_longest (runs_from flags 0 None) with
  | None, None => forallb negb flags
  | Some l, Some (i, len) =>
      list_nat_eqb l (seq i len)
      && (1 <=? len)%nat && (i + len <=? length flags)%nat
      && list_bool_eqb (firstn len (skipn i flags)) (repeat true len)
  | _, _ => false
  end.

(** A non-empty piece of text without a colon, such as the text of a group. *)
Definition colon_free (p : str) : Prop := p <> [] /\ ~ In ":"%char p.

(** Text that does not begin with a colon. *)
Definition no_lead_colon (v : str) : Prop :=
  match v with
  | c :: _ => c <> ":"%char
  | [] => True
  end.

(** The text of one group as the codec accepts it: one to four hexadecimal
    digits. *)
Definition seg_text (h : str) : Prop :=
  forallb is_hex h = true /\ (1 <= length h <= 4)%nat.

(** Characters of an address text without an embedded IPv4 part. *)
Definition addr_char (c : ascii) : bool := is_hex c || Ascii.eqb c ":".

(** The eight 16-bit groups of [number], most significant first, as
    [bigIntToIp] computes them. *)
Definition groups_of (number : Z) : list Z :=
  map (fun i => Z.land (Z.shiftr number (112 - i * 16)) 0xffff)
      [0; 1; 2; 3; 4; 5; 6; 7].

(** The address instance of version [v] holding [n]. *)
Definition mkIP (v : IPVersion) (n : Z) : IP :=
  match v with
  | V4 => IP4 (IPv4.mk n)
  | V6 => IP6 (IPv6.mk n)
  end.

(** A CIDR value as the constructor leaves it: the prefix within the width
    of the version, the address within its range. *)
Definition cidr_wf (c : CIDR.t) : Prop :=
  0 <= CIDR.prefix c <= BITS (CIDR.version c)
  /\ 0 <= IP_toBigInt (CIDR.address c) < 2 ^ BITS (CIDR.version c).

(** The integers behind [netmask], [network] and [broadcast]. *)
Definition netmask_int (v : IPVersion) (p : Z) : Z :=
  Z.land (Z.shiftl (MAX_IP v) (BITS v - p)) (MAX_IP v).

Definition network_int (v : IPVersion) (a p : Z) : Z :=
  Z.land a (netmask_int v p).

Definition broadcast_int (v : IPVersion) (a p : Z) : Z :=
  Z.lor (network_int v a p) (Z.shiftr (MAX_IP v) p).

(** *** Notions used to state the properties *)

(** The text contains [::]. *)
Fixpoint has_double_colon (s : str) : bool :=
  match s with
  | c :: s' =>
      match s' with
      | d :: _ => (Ascii.eqb c ":" && Ascii.eqb d ":") || has_double_colon s'
      | [] => false
      end
  | [] => false
  end.

(** Length of the longest run of zero groups. *)
Fixpoint zero_runs (gs : list Z) (cur best : nat) : nat :=
  match gs with
  | [] => Nat.max cur best
  | g :: rest =>
      if g =? 0 then zero_runs rest (S cur) best
      else zero_runs rest 0 (Nat.max cur best)
  end.

Definition longest_zero_run (gs : list Z) : nat := zero_runs gs 0 0.

Definition other_version (v : IPVersion) : IPVersion :=
  match v with V4 => V6 | V6 => V4 end.

(** [IPv4.isValid] or [IPv6.isValid], by version. *)
Definition isValid_for (v : IPVersion) (s : str) : bool :=
  match v with
  | V4 => IPv4.isValid s
  | V6 => IPv6.isValid s
  end.

(** The reverse-DNS name as the specification words it: the 32 lower-case
    hexadecimal nibbles of the address, in reversed order, joined with dots,
    followed by [.ip6.arpa]. *)
Definition nibbles (n : Z) : str :=
  map (fun i => digit_char (Z.land (Z.shiftr n (124 - 4 * i)) 0xf)) (upto_Z 32).

Definition toArpa_spec (n : Z) : str :=
  join (L ".") (rev (map (fun c => [c]) (nibbles n))) ++ L ".ip6.arpa".


(** The two shapes of an address text without an embedded IPv4 part: eight
    groups, or fewer groups around one [::]. *)
Definition ipv6_shape (s : str) : Prop :=
  (exists parts,
      length parts = 8%nat /\ Forall seg_text parts /\ s = join (L ":") parts)
  \/ (exists A B,
      Forall seg_text A /\ Forall seg_text B /\ (length A + length B <= 7)%nat
      /\ s = join (L ":") A ++ L "::" ++ join (L ":") B).

(** Decimal digit characters, and all strings of one to three of them. *)
Definition digit_chars : list ascii := filter is_digit all_ascii.

Definition digit_strs1 : list str := map (fun a => [a]) digit_chars.

Definition digit_strs2 : list str :=
  flat_map (fun a => map (cons a) digit_strs1) digit_chars.

Definition digit_strs3 : list str :=
  flat_map (fun a => map (cons a) digit_strs2) digit_chars.

(** An octet text in canonical form prints back as itself. *)
Definition octet_canonical (p : str) : bool :=
  implb (test IPV4_PART p) (str_eqb (toString 10 (parse_digits 10 p)) p).

(** The parts [j .. j+m-1] are all ["0"]. *)
Definition zero_window (parts : list str) (j m : nat) : Prop :=
  forall k, (j <= k < j + m)%nat -> nth k parts [] = L "0".

(** The same on flags, as a test. *)
Definition window_set (flags : list bool) (j m : nat) : bool :=
  forallb (fun k => nth k flags false) (seq j m).

(** The chosen set is the leftmost among the longest runs of set flags. *)
Definition leftmost_longest_ok (flags : list bool) : bool :=
  match longest_flags flags with
  | None => forallb negb flags
  | Some l =>
      match l with
      | [] => false
      | i :: _ =>
          let len := length l in
          list_nat_eqb l (seq i len)
          && (i + len <=? length flags)%nat
          && window_set flags i len
          && forallb (fun j =>
               forallb (fun m =>
                 implb ((j + m <=? length flags)%nat && window_set flags j m)
                       ((m <=? len)%nat && implb (m =? len)%nat (i <=? j)%nat))
                 (seq 1 (length flags)))
               (seq 0 (length flags))
      end
  end.

(** ** Specification-side notions: byte strings and address blocks *)

(** The integer [(..((0 << 8) | b1) << 8 | ..) | bn] that [fromBytes] folds
    its argument into. *)
Definition bytes_value (bytes : list Z) : Z :=
  fold_left (fun acc octet => Z.lor (Z.shiftl acc 8) octet) bytes 0.

Definition is_byte (b : Z) : Prop := 0 <= b <= 255.

(** Membership of an address in the block written [blk], decided by the
    library's own [CIDR] class. *)
Definition in_block (blk : str) (ip : IP) : bool :=
  match (let* c := CIDR.new blk in CIDR.contains c (CIDR.Instance ip)) with
  | Ok b => b
  | Throw _ => false
  end.

Definition in_blocks (blks : list str) (ip : IP) : bool :=
  existsb (fun blk => in_block blk ip) blks.

(** *** How a match ends *)

(** [ends_with c r]: every match of [r] is non-empty and ends with [c];
    [ends_or_empty c r]: every match of [r] is empty or ends with [c]. *)
Fixpoint ends_with (c : ascii) (r : re) : bool :=
  match r with
  | Eps => false
  | Chr d => Ascii.eqb d c
  | Cls _ => false
  | Seq a b => ends_with c b || (ends_with c a && ends_or_empty c b)
  | Alt a b => ends_with c a && ends_with c b
  end
with ends_or_empty (c : ascii) (r : re) : bool :=
  match r with
  | Eps => true
  | Chr d => Ascii.eqb d c
  | Cls _ => false
  | Seq a b => ends_with c b || (ends_or_empty c a && ends_or_empty c b)
  | Alt a b => ends_or_empty c a && ends_or_empty c b
  end.

(** The three alternatives that may stand before the dotted part of a valid
    IPv6 literal: the first component of [IPV6_IPV4_MAPPED]. *)
Definition IPV6_IPV4_PREFIX : re :=
  alts [ rep 6 6 seg_colon;
         seqs [colon; colon; rep 0 5 seg_colon];
         seqs [rep 0 5 seg_colon; colon; colon; rep 0 5 seg_colon] ].

(** * Verification *)

Unset Implicit Arguments.

(** ** Checks against the repository's own tests *)

Example test_ipv4_roundtrip :
  ipToBigInt (L "192.168.1.1") None = Ok 3232235777
  /\ bigIntToIp 3232235777 V4 true = L "192.168.1.1".
Proof. split; vm_compute; reflexivity. Qed.

Example test_ipv6_expanded :
  ipToBigInt (L "2001:0db8:85a3:0000:0000:8a2e:0370:7334") None
    = Ok 42540766452641154071740215577757643572
  /\ bigIntToIp 42540766452641154071740215577757643572 V6 false
    = L "2001:0db8:85a3:0000:0000:8a2e:0370:7334".
Proof. split; vm_compute; reflexivity. Qed.

Example test_ipv6_compressed :
  ipToBigInt (L "2001:db8::1") None = Ok 42540766411282592856903984951653826561
  /\ bigIntToIp 42540766411282592856903984951653826561 V6 true = L "2001:db8::1"
  /\ bigIntToIp 0 V6 true = L "::"
  /\ ipToBigInt (L "::") None = Ok 0.
Proof. repeat split; vm_compute; reflexivity. Qed.

Example test_ipv6_class :
  IPv6.isValid (L "2001:db8::1") = true
  /\ IPv6.isValid (L "::ffff:192.168.1.1") = true
  /\ IPv6.isValid (L "2001:db8::g") = false
  /\ IPv6.isValid (L "2001:db8::1/64") = false
  /\ IPv6.new (L "::ffff:192.168.1.1") = Ok (IPv6.mk 281473913979137)
  /\ IPv6.new (L "::fffe:1.2.3.4") = Throw InvalidIPAddressError
  /\ IPv6.new (L "2001::db8::1") = Throw InvalidIPAddressError.
Proof. repeat split; vm_compute; reflexivity. Qed.

Example test_cidr_24 :
  exists c, CIDR.new (L "192.168.1.100/24") = Ok c
  /\ CIDR.netmask c = Ok (IP4 (IPv4.mk 0xffffff00))
  /\ CIDR.network c = Ok (IP4 (IPv4.mk 3232235776))
  /\ CIDR.broadcast c = Ok (IP4 (IPv4.mk 3232236031))
  /\ CIDR.first c = Ok (IP4 (IPv4.mk 3232235777))
  /\ CIDR.last c = Ok (IP4 (IPv4.mk 3232236030))
  /\ CIDR.contains c (CIDR.Literal (L "192.168.1.50")) = Ok true
  /\ CIDR.contains c (CIDR.Literal (L "192.168.2.1")) = Ok false
  /\ CIDR.contains c (CIDR.Instance (IP6 (IPv6.mk 1))) = Ok false.
Proof. eexists; repeat split; vm_compute; reflexivity. Qed.

Example test_cidr_errors :
  CIDR.new (L "192.168.1.1/33") = Throw InvalidIPAddressError
  /\ CIDR.new (L "192.168.1.1/foo") = Throw InvalidIPAddressError
  /\ CIDR.new (L "256.0.0.0/24") = Throw InvalidIPAddressError
  /\ CIDR.new (L "2001:db8::1/129") = Throw InvalidIPAddressError
  /\ CIDR.new (L "2001::g/64") = Throw InvalidIPAddressError.
Proof. repeat split; vm_compute; reflexivity. Qed.

Create HintDb re.
#[export] Hint Constructors lang : re.

Ltac inv_lang :=
  repeat match goal with
  | H : lang Eps _ |- _ => inversion H; subst; clear H
  | H : lang (Chr _) _ |- _ => inversion H; subst; clear H
  | H : lang (Cls _) _ |- _ => inversion H; subst; clear H
  | H : lang (Seq _ _) _ |- _ => inversion H; subst; clear H
  | H : lang (Alt _ _) _ |- _ => inversion H; subst; clear H
  end.

Lemma re_match_sound r : forall s k,
  re_match r s k = true -> exists s1 s2, s = s1 ++ s2 /\ lang r s1 /\ k s2 = true.
Proof.
  induction r as [| c | p | a IHa b IHb | a IHa b IHb]; intros s k H; simpl in H.
  - exists [], s. auto with re.
  - destruct s as [| d s']; [discriminate |].
    destruct (Ascii.eqb c d) eqn:E; [| discriminate].
    apply Ascii.eqb_eq in E. subst d. exists [c], s'. auto with re.
  - destruct s as [| d s']; [discriminate |].
    destruct (p d) eqn:E; [| discriminate].
    exists [d], s'. auto with re.
  - apply IHa in H. destruct H as (s1 & s2 & -> & L1 & H).
    apply IHb in H. destruct H as (s3 & s4 & -> & L2 & H).
    exists (s1 ++ s3), s4. rewrite app_assoc. auto with re.
  - destruct (re_match a s k) eqn:E.
    + apply IHa in E. destruct E as (s1 & s2 & -> & L1 & E). exists s1, s2. auto with re.
    + apply IHb in H. destruct H as (s1 & s2 & -> & L1 & E'). exists s1, s2. auto with re.
Qed.

Lemma re_match_complete r s1 : lang r s1 ->
  forall s2 k, k s2 = true -> re_match r (s1 ++ s2) k = true.
Proof.
  induction 1; intros s2' k Hk; simpl.
  - exact Hk.
  - rewrite Ascii.eqb_refl. exact Hk.
  - rewrite H. exact Hk.
  - rewrite <- app_assoc. apply IHlang1. apply IHlang2. exact Hk.
  - rewrite IHlang by exact Hk. reflexivity.
  - rewrite IHlang by exact Hk. destruct (re_match a (s ++ s2') k); reflexivity.
Qed.

Lemma test_iff r s : test r s = true <-> lang r s.
Proof.
  unfold test. split.
  - intros H. apply re_match_sound in H. destruct H as (s1 & s2 & -> & Hl & He).
    destruct s2; [| discriminate]. rewrite app_nil_r. exact Hl.
  - intros H. rewrite <- (app_nil_r s). apply re_match_complete; auto.
Qed.

Lemma test_false_iff r s : test r s = false <-> ~ lang r s.
Proof.
  rewrite <- test_iff. destruct (test r s); split; intros; congruence.
Qed.

(** *** Derived forms *)

Lemma lang_seq_eq a b s s1 s2 :
  lang a s1 -> lang b s2 -> s = s1 ++ s2 -> lang (Seq a b) s.
Proof. intros; subst; auto with re. Qed.

Lemma lang_lit s : lang (lit s) s.
Proof.
  induction s as [| c s IH]; simpl; [constructor |].
  change (c :: s) with ([c] ++ s). auto with re.
Qed.

Lemma lang_lit_inv s t : lang (lit s) t -> t = s.
Proof.
  revert t. induction s as [| c s IH]; simpl; intros t H; inv_lang.
  - reflexivity.
  - simpl. f_equal. auto.
Qed.

Lemma lang_upto_nil n r : lang (upto n r) [].
Proof. destruct n; simpl; auto with re. Qed.

Lemma lang_upto n r ss :
  Forall (lang r) ss -> (length ss <= n)%nat -> lang (upto n r) (concat ss).
Proof.
  revert ss. induction n as [| n IH]; intros ss HF Hl.
  - destruct ss; [constructor | simpl in Hl; lia].
  - destruct ss as [| s ss]; simpl; [auto with re |].
    inversion HF; subst. simpl in Hl.
    apply lang_alt_l. apply lang_seq; [assumption |]. apply IH; [assumption | lia].
Qed.

Lemma lang_times n r k ss t :
  Forall (lang r) ss -> length ss = n -> lang k t ->
  lang (times n r k) (concat ss ++ t).
Proof.
  revert ss. induction n as [| n IH]; intros ss HF Hl Hk.
  - destruct ss; [exact Hk | discriminate].
  - destruct ss as [| s ss]; [discriminate |]. simpl.
    inversion HF; subst. rewrite <- app_assoc. apply lang_seq; [assumption |].
    apply IH; auto.
Qed.

Lemma lang_rep lo hi r ss :
  Forall (lang r) ss -> (lo <= length ss <= hi)%nat -> lang (rep lo hi r) (concat ss).
Proof.
  intros HF Hl. unfold rep.
  rewrite <- (firstn_skipn lo ss), concat_app.
  apply lang_times.
  - rewrite <- (firstn_skipn lo ss) in HF. apply Forall_app in HF. tauto.
  - rewrite length_firstn. lia.
  - apply lang_upto.
    + rewrite <- (firstn_skipn lo ss) in HF. apply Forall_app in HF. tauto.
    + rewrite length_skipn. lia.
Qed.

Lemma lang_upto_inv n r s :
  lang (upto n r) s -> exists ss, Forall (lang r) ss /\ (length ss <= n)%nat /\ s = concat ss.
Proof.
  revert s. induction n as [| n IH]; simpl; intros s H; inv_lang.
  - exists []. simpl. auto.
  - match goal with H : lang (upto _ _) _ |- _ => apply IH in H; destruct H as (ss & HF & Hl & ->) end.
    exists (s1 :: ss). simpl. repeat split; auto. lia.
  - exists []. simpl. repeat split; auto. lia.
Qed.

Lemma lang_times_inv n r k s :
  lang (times n r k) s ->
  exists ss t, Forall (lang r) ss /\ length ss = n /\ lang k t /\ s = concat ss ++ t.
Proof.
  revert s. induction n as [| n IH]; simpl; intros s H.
  - exists [], s. simpl. auto.
  - inv_lang.
    match goal with H : lang (times _ _ _) _ |- _ => apply IH in H; destruct H as (ss & t & HF & Hl & Hk & ->) end.
    exists (s1 :: ss), t. simpl. rewrite app_assoc. repeat split; auto.
Qed.

Lemma lang_rep_inv lo hi r s :
  lang (rep lo hi r) s ->
  exists ss, Forall (lang r) ss /\ (lo <= length ss <= lo + (hi - lo))%nat /\ s = concat ss.
Proof.
  unfold rep. intros H. apply lang_times_inv in H.
  destruct H as (ss & t & HF & Hl & Hk & ->).
  apply lang_upto_inv in Hk. destruct Hk as (ss' & HF' & Hl' & ->).
  exists (ss ++ ss'). rewrite concat_app, length_app. repeat split; try lia.
  apply Forall_app; auto.
Qed.

Lemma lang_alts r rs s : In r rs -> lang r s -> lang (alts rs) s.
Proof.
  induction rs as [| r0 rs IH]; intros Hin Hl; [contradiction |].
  destruct rs as [| r1 rs'].
  - destruct Hin as [-> | []]. exact Hl.
  - change (alts (r0 :: r1 :: rs')) with (Alt r0 (alts (r1 :: rs'))).
    destruct Hin as [-> | Hin]; [apply lang_alt_l | apply lang_alt_r]; auto.
Qed.

Lemma lang_alts_inv rs s : lang (alts rs) s -> exists r, In r rs /\ lang r s.
Proof.
  induction rs as [| r0 rs IH]; intros H.
  - inversion H; discriminate.
  - destruct rs as [| r1 rs'].
    + exists r0. simpl. auto.
    + change (alts (r0 :: r1 :: rs')) with (Alt r0 (alts (r1 :: rs'))) in H.
      inversion H as [ | | | | a b s0 Hl | a b s0 Hl ]; subst.
      * exists r0. simpl. auto.
      * apply IH in Hl. destruct Hl as (r & Hin & Hl). exists r. split; [right |]; auto.
Qed.

Lemma avoids_sound c r s : avoids c r = true -> lang r s -> ~ In c s.
Proof.
  intros Ha Hl. induction Hl; simpl in Ha.
  - intros [].
  - intros [-> | []]. rewrite Ascii.eqb_refl in Ha. discriminate.
  - intros [-> | []]. rewrite H in Ha. discriminate.
  - apply andb_prop in Ha. destruct Ha. rewrite in_app_iff. tauto.
  - apply andb_prop in Ha. tauto.
  - apply andb_prop in Ha. tauto.
Qed.

Lemma needs_sound c r s : needs c r = true -> lang r s -> In c s.
Proof.
  intros Ha Hl. induction Hl; simpl in Ha; try discriminate.
  - apply Ascii.eqb_eq in Ha. subst. left. reflexivity.
  - apply orb_prop in Ha. rewrite in_app_iff. tauto.
  - apply andb_prop in Ha. tauto.
  - apply andb_prop in Ha. tauto.
Qed.

Lemma all_ascii_complete c : In c all_ascii.
Proof.
  unfold all_ascii. rewrite <- (ascii_nat_embedding c).
  apply in_map. apply in_seq. pose proof (nat_ascii_bounded c). lia.
Qed.

Lemma only_sound q r s : only q r = true -> lang r s -> forallb q s = true.
Proof.
  intros Ha Hl. induction Hl; cbn [only] in Ha.
  - reflexivity.
  - simpl. rewrite Ha. reflexivity.
  - rewrite forallb_forall in Ha. specialize (Ha c (all_ascii_complete c)).
    rewrite H in Ha. simpl in Ha. simpl. rewrite Ha. reflexivity.
  - apply andb_prop in Ha. rewrite forallb_app. destruct Ha. rewrite IHHl1, IHHl2; auto.
  - apply andb_prop in Ha. tauto.
  - apply andb_prop in Ha. tauto.
Qed.

Lemma lang_length r s : lang r s -> (minlen r <= length s <= maxlen r)%nat.
Proof.
  induction 1; simpl; try rewrite length_app; lia.
Qed.

(** ** Text of octets and of 16-bit groups *)

Lemma upto_Z_complete n z : 0 <= z < Z.of_nat n -> In z (upto_Z n).
Proof.
  intros H. unfold upto_Z. rewrite <- (Z2Nat.id z) by lia.
  apply in_map. apply in_seq. lia.
Qed.

Lemma octet_text_ok_all n : 0 <= n <= 255 -> octet_text_ok n = true.
Proof.
  intros H.
  assert (E : forallb octet_text_ok (upto_Z 256) = true) by (vm_compute; reflexivity).
  rewrite forallb_forall in E. apply E. apply upto_Z_complete. lia.
Qed.

(** ** Strings: [includes], [split], [join] *)

Lemma includes_iff c s : includes c s = true <-> In c s.
Proof.
  unfold includes. rewrite existsb_exists. split.
  - intros (x & Hin & E). apply Ascii.eqb_eq in E. subst. exact Hin.
  - intros H. exists c. split; [exact H | apply Ascii.eqb_refl].
Qed.

Lemma includes_false_iff c s : includes c s = false <-> ~ In c s.
Proof.
  rewrite <- includes_iff. destruct (includes c s); split; intros; congruence.
Qed.

Lemma includes_app c a b : includes c (a ++ b) = includes c a || includes c b.
Proof. unfold includes. apply existsb_app. Qed.

Lemma split_not_nil sep s : split sep s <> [].
Proof.
  destruct s as [| c s]; simpl; [discriminate |].
  destruct (Ascii.eqb c sep); [discriminate |].
  destruct (split sep s); discriminate.
Qed.

Lemma split_no_sep sep s : ~ In sep s -> split sep s = [s].
Proof.
  induction s as [| c s IH]; simpl; intros H; [reflexivity |].
  destruct (Ascii.eqb c sep) eqn:E.
  - apply Ascii.eqb_eq in E. subst. tauto.
  - rewrite IH by tauto. reflexivity.
Qed.

Lemma split_app sep a rest :
  ~ In sep a -> split sep (a ++ sep :: rest) = a :: split sep rest.
Proof.
  induction a as [| c a IH]; simpl; intros H.
  - rewrite Ascii.eqb_refl. reflexivity.
  - destruct (Ascii.eqb c sep) eqn:E.
    + apply Ascii.eqb_eq in E. subst. tauto.
    + rewrite IH by tauto. reflexivity.
Qed.

(** Splitting on the separator undoes joining with it. *)
Lemma split_join sep parts :
  parts <> [] -> Forall (fun p => ~ In sep p) parts ->
  split sep (join [sep] parts) = parts.
Proof.
  induction parts as [| p rest IH]; intros Hne HF; [congruence |].
  inversion HF; subst.
  destruct rest as [| q rest'].
  - simpl. apply split_no_sep. assumption.
  - change (join [sep] (p :: q :: rest')) with (p ++ [sep] ++ join [sep] (q :: rest')).
    simpl app at 2. rewrite split_app by assumption. f_equal. apply IH; [discriminate | assumption].
Qed.

(** Joining with the separator undoes splitting on it. *)
Lemma join_split sep s : join [sep] (split sep s) = s.
Proof.
  induction s as [| c s IH]; simpl; [reflexivity |].
  destruct (Ascii.eqb c sep) eqn:E.
  - apply Ascii.eqb_eq in E. subst c.
    pose proof (split_not_nil sep s) as Hn.
    destruct (split sep s) as [| h t] eqn:Es; [congruence |].
    change (join [sep] ([] :: h :: t)) with ([] ++ [sep] ++ join [sep] (h :: t)).
    rewrite IH. reflexivity.
  - pose proof (split_not_nil sep s) as Hn.
    destruct (split sep s) as [| h t] eqn:Es; [congruence |].
    destruct t as [| h' t'].
    + simpl in *. congruence.
    + change (join [sep] ((c :: h) :: h' :: t')) with ((c :: h) ++ [sep] ++ join [sep] (h' :: t')).
      change (join [sep] (h :: h' :: t')) with (h ++ [sep] ++ join [sep] (h' :: t')) in IH.
      simpl. simpl in IH. rewrite IH. reflexivity.
Qed.

Lemma split_pieces_no_sep sep s : Forall (fun p => ~ In sep p) (split sep s).
Proof.
  induction s as [| c s IH]; simpl.
  - constructor; [intros [] | constructor].
  - destruct (Ascii.eqb c sep) eqn:E.
    + constructor; [intros [] | exact IH].
    + pose proof (split_not_nil sep s) as Hn.
      destruct (split sep s) as [| h t]; [congruence |].
      inversion IH; subst. constructor; [| assumption].
      intros [-> | Hin]; [rewrite Ascii.eqb_refl in E; discriminate | tauto].
Qed.

Lemma join_cons2 sep p q rest :
  join sep (p :: q :: rest) = p ++ sep ++ join sep (q :: rest).
Proof. reflexivity. Qed.

Lemma str_eqb_eq a b : str_eqb a b = true <-> a = b.
Proof. unfold str_eqb. destruct (list_eq_dec ascii_dec a b); split; congruence. Qed.

Lemma str_eqb_neq a b : str_eqb a b = false <-> a <> b.
Proof. unfold str_eqb. destruct (list_eq_dec ascii_dec a b); split; congruence. Qed.

Lemma forallb_not_In (q : ascii -> bool) c s :
  forallb q s = true -> q c = false -> ~ In c s.
Proof.
  intros HF Hq Hin. rewrite forallb_forall in HF. apply HF in Hin. congruence.
Qed.

(** ** Digits: [toString] and [parse_digits] *)

Lemma parse_digits_app radix a b :
  parse_digits radix (a ++ b)
  = fold_left (fun acc c => acc * radix + digit_val c) b (parse_digits radix a).
Proof. unfold parse_digits. apply fold_left_app. Qed.

Lemma parse_digits_snoc radix a c :
  parse_digits radix (a ++ [c]) = parse_digits radix a * radix + digit_val c.
Proof. rewrite parse_digits_app. reflexivity. Qed.

Lemma digit_char_16 d :
  0 <= d < 16 -> digit_val (digit_char d) = d /\ is_lower_hex (digit_char d) = true.
Proof.
  intros H.
  assert (E : forallb (fun d => (digit_val (digit_char d) =? d) && is_lower_hex (digit_char d))
                      (upto_Z 16) = true) by (vm_compute; reflexivity).
  rewrite forallb_forall in E. specialize (E d ltac:(apply (@upto_Z_complete 16); simpl; lia)).
  apply andb_prop in E. destruct E as [E1 E2]. apply Z.eqb_eq in E1. auto.
Qed.

Lemma digit_val_bounds c : 0 <= digit_val c < 16.
Proof.
  assert (E : forallb (fun c => (0 <=? digit_val c) && (digit_val c <? 16)) all_ascii = true)
    by (vm_compute; reflexivity).
  rewrite forallb_forall in E. specialize (E c (all_ascii_complete c)).
  apply andb_prop in E. destruct E as [E1 E2]. apply Z.leb_le in E1. apply Z.ltb_lt in E2. lia.
Qed.

Lemma is_digit_val c : is_digit c = true -> 0 <= digit_val c < 10.
Proof.
  assert (E : forallb (fun c => implb (is_digit c) ((0 <=? digit_val c) && (digit_val c <? 10)))
                      all_ascii = true) by (vm_compute; reflexivity).
  rewrite forallb_forall in E. specialize (E c (all_ascii_complete c)).
  intros H. rewrite H in E. simpl in E.
  apply andb_prop in E. destruct E as [E1 E2]. apply Z.leb_le in E1. apply Z.ltb_lt in E2. lia.
Qed.

Lemma parse_digits_nonneg radix s : 0 <= radix -> 0 <= parse_digits radix s.
Proof.
  intros Hr. induction s as [| c s IH] using rev_ind.
  - reflexivity.
  - rewrite parse_digits_snoc. pose proof (digit_val_bounds c). nia.
Qed.

(** A string of at most [k] hexadecimal digits is below [16^k]. *)
Lemma parse_hex_bound s : 0 <= parse_digits 16 s < 16 ^ Z.of_nat (length s).
Proof.
  induction s as [| c s IH] using rev_ind.
  - simpl. unfold parse_digits. simpl. lia.
  - rewrite parse_digits_snoc, length_app. simpl length.
    replace (Z.of_nat (length s + 1)) with (Z.of_nat (length s) + 1) by lia.
    rewrite Z.pow_add_r by lia. pose proof (digit_val_bounds c). lia.
Qed.

(** The digits produced for a positive number: they parse back to it, are
    lower-case hexadecimal, and are as few as the magnitude allows. *)
Lemma digits_of_16 fuel : forall n acc,
  0 < n < 2 ^ Z.of_nat fuel ->
  exists ds, digits_of fuel 16 n acc = ds ++ acc
    /\ ds <> []
    /\ parse_digits 16 ds = n
    /\ forallb is_lower_hex ds = true
    /\ (forall k, n < 16 ^ Z.of_nat k -> (length ds <= k)%nat).
Proof.
  induction fuel as [| f IH]; intros n acc Hn.
  - simpl in Hn. lia.
  - cbn [digits_of].
    pose proof (Z.mod_pos_bound n 16 ltac:(lia)) as Hm.
    destruct (@digit_char_16 (n mod 16) Hm) as [Hv Hl].
    pose proof (Z.div_mod n 16 ltac:(lia)) as Hdm.
    destruct (n / 16 =? 0) eqn:E.
    + apply Z.eqb_eq in E. exists [digit_char (n mod 16)].
      repeat split.
      * discriminate.
      * unfold parse_digits. simpl. lia.
      * simpl. rewrite Hl. reflexivity.
      * intros k Hk. destruct k; [simpl in Hk; lia | simpl; lia].
    + apply Z.eqb_neq in E.
      assert (Hq : 0 < n / 16 < 2 ^ Z.of_nat f).
      { assert (0 <= n / 16) by (apply Z.div_pos; lia).
        split; [lia |].
        rewrite Nat2Z.inj_succ, Z.pow_succ_r in Hn by lia. lia. }
      destruct (IH (n / 16) (digit_char (n mod 16) :: acc) Hq)
        as (ds & E1 & Hne & Hp & Hh & Hlen).
      exists (ds ++ [digit_char (n mod 16)]).
      repeat split.
      * rewrite E1, <- app_assoc. reflexivity.
      * destruct ds; discriminate.
      * rewrite parse_digits_snoc, Hp, Hv. lia.
      * rewrite forallb_app, Hh. simpl. rewrite Hl. reflexivity.
      * intros k Hk. rewrite length_app. simpl.
        destruct k as [| k]; [simpl in Hk; lia |].
        assert (length ds <= k)%nat; [| lia].
        apply Hlen. rewrite Nat2Z.inj_succ, Z.pow_succ_r in Hk by lia. lia.
Qed.

(** The text of a 16-bit group. *)
Lemma toString16_group g :
  0 <= g <= 65535 ->
  let h := toString 16 g in
  forallb is_lower_hex h = true
  /\ (1 <= length h <= 4)%nat
  /\ parse_digits 16 h = g
  /\ (h = L "0" <-> g = 0).
Proof.
  intros Hg h. destruct (Z.eq_dec g 0) as [-> | Hnz].
  - vm_compute. repeat split; auto; lia.
  - assert (Hlt : 0 < g < 2 ^ Z.of_nat (S (Z.to_nat (Z.log2 g)))).
    { split; [lia |]. rewrite Nat2Z.inj_succ, Z2Nat.id by apply Z.log2_nonneg.
      apply Z.log2_spec. lia. }
    destruct (@digits_of_16 (S (Z.to_nat (Z.log2 g))) g [] Hlt) as (ds & E & Hne & Hp & Hh & Hlen).
    assert (Eh : h = ds).
    { subst h. unfold toString. destruct (g <? 0) eqn:Eg; [apply Z.ltb_lt in Eg; lia |].
      rewrite E. apply app_nil_r. }
    rewrite Eh. repeat split; auto.
    + destruct ds; [congruence | simpl; lia].
    + apply (Hlen 4%nat). simpl. lia.
    + intros E0. rewrite E0 in Hp. vm_compute in Hp. lia.
    + intros; lia.
Qed.

Lemma is_lower_hex_is_hex c : is_lower_hex c = true -> is_hex c = true.
Proof.
  assert (E : forallb (fun c => implb (is_lower_hex c) (is_hex c)) all_ascii = true)
    by (vm_compute; reflexivity).
  rewrite forallb_forall in E. specialize (E c (all_ascii_complete c)).
  intros H. rewrite H in E. exact E.
Qed.

Lemma forallb_impl (A : Type) (p q : A -> bool) l :
  (forall x, p x = true -> q x = true) -> forallb p l = true -> forallb q l = true.
Proof.
  intros Hpq H. rewrite forallb_forall in *. auto.
Qed.

(** ** Integer arithmetic of the codec *)

Lemma land_ff x : Z.land x 0xff = x mod 256.
Proof. change 0xff with (Z.ones 8). rewrite Z.land_ones by lia. reflexivity. Qed.

Lemma land_ffff x : Z.land x 0xffff = x mod 65536.
Proof. change 0xffff with (Z.ones 16). rewrite Z.land_ones by lia. reflexivity. Qed.

Lemma land_max32 x : Z.land x 0xffffffff = x mod 2 ^ 32.
Proof. change 0xffffffff with (Z.ones 32). rewrite Z.land_ones by lia. reflexivity. Qed.

Lemma land_max128 x : Z.land x 0xffffffffffffffffffffffffffffffff = x mod 2 ^ 128.
Proof.
  change 0xffffffffffffffffffffffffffffffff with (Z.ones 128).
  rewrite Z.land_ones by lia. reflexivity.
Qed.

(** [(x << k) | a] is [x * 2^k + a] when [a] fits in [k] bits. *)
Lemma lor_shiftl_add x k a :
  0 <= k -> 0 <= a < 2 ^ k -> Z.lor (Z.shiftl x k) a = x * 2 ^ k + a.
Proof.
  intros Hk Ha.
  assert (E : Z.land (Z.shiftl x k) a = 0).
  { apply Z.bits_inj'. intros i Hi. rewrite Z.land_spec, Z.bits_0.
    destruct (Z.ltb_spec i k).
    - rewrite Z.shiftl_spec_low by lia. reflexivity.
    - replace a with (a mod 2 ^ k) by (apply Z.mod_small; lia).
      rewrite Z.mod_pow2_bits_high by lia. apply andb_false_r. }
  pose proof (Z.add_lor_land (Z.shiftl x k) a) as A. rewrite E in A.
  rewrite Z.shiftl_mul_pow2 in A |- * by lia. lia.
Qed.

Lemma octet_range n k : 0 <= Z.land (Z.shiftr n k) 0xff <= 255.
Proof. rewrite land_ff. pose proof (Z.mod_pos_bound (Z.shiftr n k) 256). lia. Qed.

Lemma group_range n k : 0 <= Z.land (Z.shiftr n k) 0xffff <= 65535.
Proof. rewrite land_ffff. pose proof (Z.mod_pos_bound (Z.shiftr n k) 65536). lia. Qed.

(** The four octets of [n], folded as base-256 digits, give [n mod 2^32]. *)
Lemma octets_value n :
  fold_left (fun acc o => Z.lor (Z.shiftl acc 8) o)
    [ Z.land (Z.shiftr n 24) 0xff; Z.land (Z.shiftr n 16) 0xff;
      Z.land (Z.shiftr n 8) 0xff; Z.land n 0xff ] 0
  = n mod 2 ^ 32.
Proof.
  cbn [fold_left].
  pose proof (octet_range n 24) as R1. pose proof (octet_range n 16) as R2.
  pose proof (octet_range n 8) as R3. pose proof (octet_range n 0) as R4.
  rewrite Z.shiftr_0_r in R4.
  rewrite !lor_shiftl_add by (change (2 ^ 8) with 256; lia).
  rewrite !land_ff, !Z.shiftr_div_pow2 by lia.
  change (2 ^ 8) with 256. change (2 ^ 16) with 65536. change (2 ^ 24) with 16777216.
  change (2 ^ 32) with 4294967296.
  Z.div_mod_to_equations. lia.
Qed.

(** Eight 16-bit groups weighted by their position give [n mod 2^128]. *)
Lemma mod_split x a b : 0 < a -> 0 < b -> x mod (a * b) = x mod a + a * ((x / a) mod b).
Proof. intros. apply Z.rem_mul_r; lia. Qed.

Lemma groups_value n :
  (n / 2 ^ 112) mod 65536 * 2 ^ 112 + (n / 2 ^ 96) mod 65536 * 2 ^ 96
  + (n / 2 ^ 80) mod 65536 * 2 ^ 80 + (n / 2 ^ 64) mod 65536 * 2 ^ 64
  + (n / 2 ^ 48) mod 65536 * 2 ^ 48 + (n / 2 ^ 32) mod 65536 * 2 ^ 32
  + (n / 2 ^ 16) mod 65536 * 2 ^ 16 + n mod 65536
  = n mod 2 ^ 128.
Proof.
  assert (S : forall k, 0 <= k ->
    n mod 2 ^ (k + 16) = n mod 2 ^ k + (n / 2 ^ k) mod 65536 * 2 ^ k).
  { intros k Hk. rewrite Z.pow_add_r by lia. rewrite mod_split by lia.
    change (2 ^ 16) with 65536. lia. }
  pose proof (S 112 ltac:(lia)) as S7. change (112 + 16) with 128 in S7.
  pose proof (S 96 ltac:(lia)) as S6. change (96 + 16) with 112 in S6.
  pose proof (S 80 ltac:(lia)) as S5. change (80 + 16) with 96 in S5.
  pose proof (S 64 ltac:(lia)) as S4. change (64 + 16) with 80 in S4.
  pose proof (S 48 ltac:(lia)) as S3. change (48 + 16) with 64 in S3.
  pose proof (S 32 ltac:(lia)) as S2. change (32 + 16) with 48 in S2.
  pose proof (S 16 ltac:(lia)) as S1. change (16 + 16) with 32 in S1.
  change (n mod 65536) with (n mod 2 ^ 16).
  lia.
Qed.

(** ** IPv4: text, codec and class *)

Lemma all_digits_forall s : all_digits s = true -> forallb is_digit s = true.
Proof. unfold all_digits. intros H. apply andb_prop in H. tauto. Qed.

Lemma all_digits_not_In c s : all_digits s = true -> is_digit c = false -> ~ In c s.
Proof. intros H Hc. eapply forallb_not_In; [apply all_digits_forall; eassumption | exact Hc]. Qed.

(** The text of one octet of [n]. *)
Lemma octet_text n k :
  let a := Z.land (Z.shiftr n k) 0xff in
  let o := toString 10 a in
  all_digits o = true /\ parse_digits 10 o = a /\ lang IPV4_PART o /\ lang d13 o.
Proof.
  intros a o. pose proof (@octet_text_ok_all a (octet_range n k)) as H.
  unfold octet_text_ok in H. fold o in H.
  apply andb_prop in H. destruct H as [H H4].
  apply andb_prop in H. destruct H as [H H3].
  apply andb_prop in H. destruct H as [H1 H2].
  apply Z.eqb_eq in H2. apply test_iff in H3. apply test_iff in H4. auto.
Qed.

(** Four decimal groups, each at most 255, are parsed as base-256 digits. *)
Lemma ipv4ToBigInt_parts p1 p2 p3 p4 :
  all_digits p1 = true -> all_digits p2 = true ->
  all_digits p3 = true -> all_digits p4 = true ->
  parse_digits 10 p1 <= 255 -> parse_digits 10 p2 <= 255 ->
  parse_digits 10 p3 <= 255 -> parse_digits 10 p4 <= 255 ->
  ipv4ToBigInt (p1 ++ L "." ++ p2 ++ L "." ++ p3 ++ L "." ++ p4)
  = Ok (fold_left (fun acc o => Z.lor (Z.shiftl acc 8) o)
          [parse_digits 10 p1; parse_digits 10 p2; parse_digits 10 p3; parse_digits 10 p4] 0).
Proof.
  intros D1 D2 D3 D4 B1 B2 B3 B4.
  assert (Hs : split "." (p1 ++ L "." ++ p2 ++ L "." ++ p3 ++ L "." ++ p4) = [p1; p2; p3; p4]).
  { change (L ".") with ["."%char]. simpl app.
    rewrite !split_app by (apply all_digits_not_In; auto).
    rewrite split_no_sep by (apply all_digits_not_In; auto). reflexivity. }
  unfold ipv4ToBigInt. rewrite Hs. cbn [length Nat.eqb negb orb existsb].
  rewrite D1, D2, D3, D4. cbn [negb orb].
  replace (255 <? parse_digits 10 p1) with false by (symmetry; apply Z.ltb_ge; lia).
  replace (255 <? parse_digits 10 p2) with false by (symmetry; apply Z.ltb_ge; lia).
  replace (255 <? parse_digits 10 p3) with false by (symmetry; apply Z.ltb_ge; lia).
  replace (255 <? parse_digits 10 p4) with false by (symmetry; apply Z.ltb_ge; lia).
  reflexivity.
Qed.

(** Codec round trip, version 4: for every integer, in range or not. *)
Lemma ipv4ToBigInt_text n : ipv4ToBigInt (ipv4_text n) = Ok (n mod 2 ^ 32).
Proof.
  unfold ipv4_text.
  destruct (octet_text n 24) as (D1 & P1 & _).
  destruct (octet_text n 16) as (D2 & P2 & _).
  destruct (octet_text n 8) as (D3 & P3 & _).
  destruct (octet_text n 0) as (D4 & P4 & _).
  rewrite Z.shiftr_0_r in D4, P4.
  pose proof (octet_range n 24). pose proof (octet_range n 16).
  pose proof (octet_range n 8). pose proof (octet_range n 0) as R4.
  rewrite Z.shiftr_0_r in R4.
  rewrite ipv4ToBigInt_parts by (auto; lia).
  rewrite P1, P2, P3, P4. rewrite octets_value. reflexivity.
Qed.

Lemma lang_ipv4_pattern p1 p2 p3 p4 :
  lang IPV4_PART p1 -> lang IPV4_PART p2 -> lang IPV4_PART p3 -> lang IPV4_PART p4 ->
  lang IPV4_ADDRESS_PATTERN (p1 ++ L "." ++ p2 ++ L "." ++ p3 ++ L "." ++ p4).
Proof.
  intros. unfold IPV4_ADDRESS_PATTERN, seqs, dot.
  repeat (apply lang_seq; [first [assumption | apply lang_chr] |]). assumption.
Qed.

Lemma ipv4_text_valid n : lang IPV4_ADDRESS_PATTERN (ipv4_text n).
Proof.
  unfold ipv4_text.
  destruct (octet_text n 24) as (_ & _ & L1 & _).
  destruct (octet_text n 16) as (_ & _ & L2 & _).
  destruct (octet_text n 8) as (_ & _ & L3 & _).
  destruct (octet_text n 0) as (_ & _ & L4 & _).
  rewrite Z.shiftr_0_r in L4.
  apply lang_ipv4_pattern; assumption.
Qed.

(** [IPv4.fromBigInt] keeps the low 32 bits and never throws. *)
Lemma IPv4_fromBigInt_mod n : IPv4.fromBigInt n = Ok (IPv4.mk (n mod 2 ^ 32)).
Proof.
  unfold IPv4.fromBigInt, IPv4.new, IPv4.isValid, bigIntToIp, IPV4_ADDRESS_REGEX.
  rewrite (proj2 (test_iff _ _) (ipv4_text_valid n)). cbn [negb].
  unfold ipToBigInt. cbn [bind]. rewrite ipv4ToBigInt_text. reflexivity.
Qed.

Lemma IPv4_fromBigInt_id n : 0 <= n < 2 ^ 32 -> IPv4.fromBigInt n = Ok (IPv4.mk n).
Proof. intros H. rewrite IPv4_fromBigInt_mod, Z.mod_small by lia. reflexivity. Qed.

(** ** IPv4: what parsing and validation accept *)

Lemma range_digit x y c :
  is_digit x = true -> is_digit y = true -> range x y c = true ->
  is_digit c = true /\ digit_val x <= digit_val c <= digit_val y.
Proof.
  unfold is_digit, range, digit_val. intros Hx Hy Hc.
  apply andb_prop in Hx, Hy, Hc. destruct Hx as [X1 X2], Hy as [Y1 Y2], Hc as [C1 C2].
  apply Nat.leb_le in X1, X2, Y1, Y2, C1, C2.
  assert (Ec : (48 <=? nat_of_ascii c)%nat && (nat_of_ascii c <=? 57)%nat = true).
  { apply andb_true_intro. split; apply Nat.leb_le; lia. }
  split; [exact Ec |].
  replace ((48 <=? Z.of_nat (nat_of_ascii x)) && (Z.of_nat (nat_of_ascii x) <=? 57)) with true
    by (symmetry; apply andb_true_intro; split; apply Z.leb_le; lia).
  replace ((48 <=? Z.of_nat (nat_of_ascii y)) && (Z.of_nat (nat_of_ascii y) <=? 57)) with true
    by (symmetry; apply andb_true_intro; split; apply Z.leb_le; lia).
  replace ((48 <=? Z.of_nat (nat_of_ascii c)) && (Z.of_nat (nat_of_ascii c) <=? 57)) with true
    by (symmetry; apply andb_true_intro; split; apply Z.leb_le; lia).
  lia.
Qed.

Ltac range_facts :=
  repeat match goal with
  | H : range ?x ?y ?c = true |- _ =>
      let D := fresh "D" in let B := fresh "B" in
      let lo := eval vm_compute in (digit_val x) in
      let hi := eval vm_compute in (digit_val y) in
      destruct (@range_digit x y c eq_refl eq_refl H) as [D B];
      change (digit_val x) with lo in B; change (digit_val y) with hi in B;
      clear H
  end.

(** Every text matched by the octet pattern is a decimal number at most 255. *)
Lemma ipv4_part_inv p :
  lang IPV4_PART p -> all_digits p = true /\ parse_digits 10 p <= 255.
Proof.
  intros H. cbv [IPV4_PART alts seqs opt rep times upto Nat.sub] in H.
  inv_lang; range_facts; unfold all_digits, parse_digits;
    cbn [app forallb fold_left is_empty negb andb];
    repeat match goal with D : is_digit _ = true |- _ => rewrite D; clear D end;
    change (is_digit "2") with true; change (is_digit "5") with true;
    change (is_digit "1") with true;
    change (digit_val "2") with 2; change (digit_val "5") with 5;
    change (digit_val "1") with 1;
    cbn [andb]; (split; [reflexivity | lia]).
Qed.

Lemma lang_ipv4_pattern_inv s :
  lang IPV4_ADDRESS_PATTERN s ->
  exists p1 p2 p3 p4,
    s = p1 ++ L "." ++ p2 ++ L "." ++ p3 ++ L "." ++ p4
    /\ lang IPV4_PART p1 /\ lang IPV4_PART p2 /\ lang IPV4_PART p3 /\ lang IPV4_PART p4.
Proof.
  intros H. unfold IPV4_ADDRESS_PATTERN, seqs, dot in H.
  repeat match goal with
  | H : lang (Seq _ _) _ |- _ => inversion H; subst; clear H
  | H : lang (Chr _) _ |- _ => inversion H; subst; clear H
  end.
  do 4 eexists. split; [reflexivity | auto].
Qed.

(** The four-octet fold stays inside 32 bits. *)
Lemma octets_fold_range a b c d :
  0 <= a <= 255 -> 0 <= b <= 255 -> 0 <= c <= 255 -> 0 <= d <= 255 ->
  0 <= fold_left (fun acc o => Z.lor (Z.shiftl acc 8) o) [a; b; c; d] 0 < 2 ^ 32.
Proof.
  intros. cbn [fold_left].
  rewrite !lor_shiftl_add by (change (2 ^ 8) with 256; lia).
  change (2 ^ 8) with 256. change (2 ^ 32) with 4294967296. lia.
Qed.

Lemma all_digits_part_range p :
  all_digits p = true -> (255 <? parse_digits 10 p) = false -> 0 <= parse_digits 10 p <= 255.
Proof.
  intros _ H. apply Z.ltb_ge in H. pose proof (@parse_digits_nonneg 10 p ltac:(lia)). lia.
Qed.

(** Whatever [ipv4ToBigInt] returns is a 32-bit integer; it only ever throws
    [InvalidIPAddressError]. *)
Lemma ipv4ToBigInt_range s n : ipv4ToBigInt s = Ok n -> 0 <= n < 2 ^ 32.
Proof.
  unfold ipv4ToBigInt. intros H.
  destruct (split "." s) as [| p1 [| p2 [| p3 [| p4 [| p5 rest]]]]]; try discriminate.
  cbn [length Nat.eqb negb orb existsb] in H.
  destruct (all_digits p1) eqn:D1; [| discriminate].
  destruct (255 <? parse_digits 10 p1) eqn:B1; [discriminate |].
  destruct (all_digits p2) eqn:D2; [| discriminate].
  destruct (255 <? parse_digits 10 p2) eqn:B2; [discriminate |].
  destruct (all_digits p3) eqn:D3; [| discriminate].
  destruct (255 <? parse_digits 10 p3) eqn:B3; [discriminate |].
  destruct (all_digits p4) eqn:D4; [| discriminate].
  destruct (255 <? parse_digits 10 p4) eqn:B4; [discriminate |].
  cbn [negb orb] in H. inversion H; subst n.
  apply octets_fold_range; apply all_digits_part_range; assumption.
Qed.

Lemma ipv4ToBigInt_error s e : ipv4ToBigInt s = Throw e -> e = InvalidIPAddressError.
Proof.
  unfold ipv4ToBigInt. intros H.
  destruct (_ || _) in H; congruence.
Qed.

(** Validation implies parsing, version 4. *)
Lemma IPv4_isValid_parses s :
  IPv4.isValid s = true -> exists n, ipv4ToBigInt s = Ok n /\ 0 <= n < 2 ^ 32.
Proof.
  unfold IPv4.isValid, IPV4_ADDRESS_REGEX. intros H. apply test_iff in H.
  apply lang_ipv4_pattern_inv in H.
  destruct H as (p1 & p2 & p3 & p4 & -> & L1 & L2 & L3 & L4).
  apply ipv4_part_inv in L1, L2, L3, L4.
  destruct L1 as [D1 B1], L2 as [D2 B2], L3 as [D3 B3], L4 as [D4 B4].
  eexists. split.
  - apply ipv4ToBigInt_parts; assumption.
  - pose proof (@parse_digits_nonneg 10 p1 ltac:(lia)).
    pose proof (@parse_digits_nonneg 10 p2 ltac:(lia)).
    pose proof (@parse_digits_nonneg 10 p3 ltac:(lia)).
    pose proof (@parse_digits_nonneg 10 p4 ltac:(lia)).
    apply octets_fold_range; lia.
Qed.

(** Every [IPv4] instance built by the constructor holds a 32-bit integer. *)
Lemma IPv4_new_range s a : IPv4.new s = Ok a -> 0 <= IPv4.address_ a < 2 ^ 32.
Proof.
  unfold IPv4.new, ipToBigInt. intros H.
  destruct (negb (IPv4.isValid s)); [discriminate |]. cbn [bind] in H.
  destruct (ipv4ToBigInt s) as [n |] eqn:E; [| discriminate].
  cbn [bind] in H. inversion H; subst. simpl. eapply ipv4ToBigInt_range; eauto.
Qed.

(** ** [compressIPv6]: which run is replaced *)

Lemma compress_scan_flags parts : forall i longest current,
  compress_scan parts i longest current = scan_flags (zero_flags parts) i longest current.
Proof.
  induction parts as [| p rest IH]; intros i longest current; simpl; [reflexivity |].
  destruct (str_eqb p _); [apply IH |].
  destruct current; apply IH.
Qed.

Lemma compress_longest_flags parts :
  compress_longest parts = longest_flags (zero_flags parts).
Proof.
  unfold compress_longest, longest_flags. rewrite compress_scan_flags. reflexivity.
Qed.

Lemma all_flags_complete n : forall fl, length fl = n -> In fl (all_flags n).
Proof.
  induction n as [| n IH]; intros fl H.
  - destruct fl; [left; reflexivity | discriminate].
  - destruct fl as [| b fl]; [discriminate |]. simpl in H. injection H as H.
    simpl. apply in_or_app. destruct b; [left | right]; apply in_map; auto.
Qed.

Lemma longest_shape_ok_8 fl : length fl = 8%nat -> longest_shape_ok fl = true.
Proof.
  intros H.
  assert (E : forallb longest_shape_ok (all_flags 8) = true) by (vm_compute; reflexivity).
  rewrite forallb_forall in E. apply E. apply all_flags_complete. exact H.
Qed.

Lemma list_nat_eqb_eq a b : list_nat_eqb a b = true -> a = b.
Proof. unfold list_nat_eqb. destruct (list_eq_dec Nat.eq_dec a b); congruence. Qed.

Lemma list_bool_eqb_eq a b : list_bool_eqb a b = true -> a = b.
Proof. unfold list_bool_eqb. destruct (list_eq_dec bool_dec a b); congruence. Qed.

Lemma map_eq_repeat (A : Type) (f : A -> bool) (z : A) l n :
  (forall x, f x = true -> x = z) -> map f l = repeat true n -> l = repeat z n.
Proof.
  intros Hf. revert n. induction l as [| x l IH]; intros n H; destruct n; simpl in *;
    try discriminate; [reflexivity |].
  injection H as H1 H2. f_equal; auto.
Qed.

Lemma zero_flags_none parts :
  forallb negb (zero_flags parts) = true -> Forall (fun p => p <> L "0") parts.
Proof.
  unfold zero_flags. induction parts as [| p rest IH]; simpl; intros H; constructor.
  - apply andb_prop in H. destruct H as [H _]. apply str_eqb_neq.
    apply negb_true_iff in H. exact H.
  - apply IH. apply andb_prop in H. tauto.
Qed.

(** On eight parts the chosen set is either empty, with no part equal to
    ["0"], or the indices [i .. i+len-1] of a run of ["0"] parts. *)
Lemma compress_longest_8 parts :
  length parts = 8%nat ->
  (compress_longest parts = None /\ Forall (fun p => p <> L "0") parts)
  \/ (exists i len,
        compress_longest parts = Some (seq i len)
        /\ (1 <= len)%nat /\ (i + len <= 8)%nat
        /\ parts = firstn i parts ++ repeat (L "0") len ++ skipn (i + len) parts).
Proof.
  intros Hlen.
  assert (Hfl : length (zero_flags parts) = 8%nat) by (unfold zero_flags; rewrite length_map; exact Hlen).
  pose proof (longest_shape_ok_8 _ Hfl) as H. unfold longest_shape_ok in H.
  rewrite compress_longest_flags.
  destruct (longest_flags (zero_flags parts)) as [l |];
    destruct (first_longest (runs_from (zero_flags parts) 0 None)) as [[i len] |];
    try discriminate.
  - right. exists i, len.
    apply andb_prop in H. destruct H as [H H4].
    apply andb_prop in H. destruct H as [H H3].
    apply andb_prop in H. destruct H as [H1 H2].
    apply list_nat_eqb_eq in H1. apply list_bool_eqb_eq in H4.
    apply Nat.leb_le in H2, H3. rewrite Hfl in H3.
    repeat split; auto. { congruence. }
    unfold zero_flags in H4. rewrite skipn_map, firstn_map in H4.
    apply map_eq_repeat with (z := L "0") in H4; [| intros x Hx; apply str_eqb_eq; exact Hx].
    rewrite <- H4.
    rewrite <- (firstn_skipn i parts) at 1. f_equal.
    rewrite <- (firstn_skipn len (skipn i parts)) at 1. f_equal.
    rewrite skipn_skipn. f_equal. lia.
  - left. split; [reflexivity |]. apply zero_flags_none. exact H.
Qed.

(** ** [compressIPv6]: the text produced *)

Lemma set_at_app A m rest v :
  set_at (A ++ m :: rest) (length A) v = A ++ v :: rest.
Proof. induction A as [| a A IH]; simpl; [reflexivity | rewrite IH; reflexivity]. Qed.

Lemma set_run v B : forall M A,
  fold_left (fun ps index => set_at ps index v) (seq (length A) (length M)) (A ++ M ++ B)
  = A ++ repeat v (length M) ++ B.
Proof.
  induction M as [| m M IH]; intros A; simpl; [reflexivity |].
  rewrite set_at_app.
  replace (S (length A)) with (length (A ++ [v])) by (rewrite length_app; simpl; lia).
  change (A ++ v :: M ++ B) with (A ++ [v] ++ M ++ B). rewrite app_assoc.
  rewrite IH. rewrite <- app_assoc. reflexivity.
Qed.

Lemma filter_nonempty parts :
  Forall (fun p : str => p <> []) parts ->
  filter (fun p => negb (is_empty p)) parts = parts.
Proof.
  induction 1 as [| p rest Hp HF IH]; simpl; [reflexivity |].
  destruct p; [congruence |]. simpl. rewrite IH. reflexivity.
Qed.

Lemma join_app sep A B :
  A <> [] -> B <> [] -> join sep (A ++ B) = join sep A ++ sep ++ join sep B.
Proof.
  intros HA HB. induction A as [| a A IH]; [congruence |].
  destruct A as [| a' A'].
  - destruct B; [congruence |]. reflexivity.
  - change ((a :: a' :: A') ++ B) with (a :: (a' :: A') ++ B).
    change ((a' :: A') ++ B) with (a' :: A' ++ B) at 1.
    rewrite join_cons2. change (a' :: A' ++ B) with ((a' :: A') ++ B).
    rewrite IH by discriminate. rewrite join_cons2. rewrite <- !app_assoc. reflexivity.
Qed.

Lemma join_colons n :
  join (L ":") (repeat (L ":") (S n)) = repeat ":"%char (S (2 * n)).
Proof.
  induction n as [| n IH]; [reflexivity |].
  change (repeat (L ":") (S (S n))) with (L ":" :: L ":" :: repeat (L ":") n).
  rewrite join_cons2. change (L ":" :: repeat (L ":") n) with (repeat (L ":") (S n)).
  rewrite IH. replace (2 * S n)%nat with (S (S (2 * n))) by lia. reflexivity.
Qed.

Lemma colon_free_no_lead p : colon_free p -> no_lead_colon p.
Proof.
  intros [Hn Hc]. destruct p as [| c p]; simpl; [exact I |].
  intros ->. apply Hc. left. reflexivity.
Qed.

Lemma join_no_lead B : Forall colon_free B -> no_lead_colon (join (L ":") B).
Proof.
  intros H. destruct B as [| b B]; [exact I |]. inversion H; subst.
  pose proof (colon_free_no_lead _ H2) as Hb. destruct H2 as [Hne _].
  destruct b as [| c b]; [congruence |].
  destruct B; simpl in *; exact Hb.
Qed.

Lemma drop_colons_run k v :
  no_lead_colon v -> drop_colons (repeat ":"%char k ++ v) = v.
Proof.
  intros Hv. induction k as [| k IH]; simpl.
  - destruct v as [| c v]; [reflexivity |]. simpl in Hv.
    simpl. destruct (Ascii.eqb c ":") eqn:E; [apply Ascii.eqb_eq in E; congruence | reflexivity].
  - exact IH.
Qed.

Lemma replace_colons_free p rest :
  ~ In ":"%char p -> replace_colons (p ++ rest) = p ++ replace_colons rest.
Proof.
  induction p as [| c p IH]; intros H; [reflexivity |].
  simpl. destruct (Ascii.eqb c ":") eqn:E.
  - apply Ascii.eqb_eq in E. subst. exfalso. apply H. left. reflexivity.
  - rewrite IH; [reflexivity |]. intros Hin. apply H. right. exact Hin.
Qed.

Lemma replace_colons_run k v :
  no_lead_colon v -> (2 <= k)%nat ->
  replace_colons (repeat ":"%char k ++ v) = L "::" ++ v.
Proof.
  intros Hv Hk. destruct k as [| [| k]]; try lia.
  cbn [repeat app replace_colons]. rewrite Ascii.eqb_refl.
  change (":"%char :: repeat ":"%char k ++ v) with (repeat ":"%char (S k) ++ v).
  rewrite drop_colons_run by assumption. reflexivity.
Qed.

Lemma replace_colons_single p rest :
  colon_free p -> replace_colons (":"%char :: p ++ rest) = ":"%char :: replace_colons (p ++ rest).
Proof.
  intros Hp. pose proof (colon_free_no_lead _ Hp) as Hl. destruct Hp as [Hne _].
  destruct p as [| c p]; [congruence |]. simpl in Hl.
  cbn [app replace_colons]. rewrite Ascii.eqb_refl.
  destruct (Ascii.eqb c ":") eqn:E; [apply Ascii.eqb_eq in E; congruence |].
  reflexivity.
Qed.

(** Groups joined by single colons, then a run of at least two colons: the
    run is the first one and becomes [::]. *)
Lemma replace_colons_join A k v :
  Forall colon_free A -> no_lead_colon v -> (2 <= k)%nat ->
  replace_colons (join (L ":") A ++ repeat ":"%char k ++ v) = join (L ":") A ++ L "::" ++ v.
Proof.
  intros HA Hv Hk. induction HA as [| a A Ha HA IH].
  - simpl join. cbn [app]. apply replace_colons_run; assumption.
  - destruct A as [| a' A'].
    + simpl join. rewrite replace_colons_free by apply Ha.
      rewrite replace_colons_run by assumption. reflexivity.
    + rewrite join_cons2. rewrite <- !app_assoc.
      rewrite replace_colons_free by apply Ha. f_equal.
      change (L ":" ++ join (L ":") (a' :: A') ++ repeat ":"%char k ++ v)
        with (":"%char :: join (L ":") (a' :: A') ++ repeat ":"%char k ++ v).
      inversion HA; subst.
      assert (Hj : exists r, join (L ":") (a' :: A') = a' ++ r).
      { destruct A'; [exists []; simpl; rewrite app_nil_r; reflexivity |].
        eexists. rewrite join_cons2. reflexivity. }
      destruct Hj as [r Hr]. rewrite Hr in IH |- *. rewrite <- !app_assoc in IH |- *.
      rewrite replace_colons_single by assumption.
      rewrite IH. reflexivity.
Qed.

Lemma colons_snoc k rest :
  repeat ":"%char k ++ L ":" ++ rest = repeat ":"%char (S k) ++ rest.
Proof.
  rewrite app_assoc. f_equal. change (L ":") with [":"%char].
  rewrite <- repeat_cons. reflexivity.
Qed.

Lemma colons_cons k rest :
  L ":" ++ repeat ":"%char k ++ rest = repeat ":"%char (S k) ++ rest.
Proof. reflexivity. Qed.

(** The joined text when a run of [len] parts has been overwritten by [":"]. *)
Lemma join_marked A B len :
  (1 <= len)%nat -> (A <> [] \/ B <> [] \/ 2 <= len)%nat ->
  exists k, (2 <= k)%nat /\
    join (L ":") (A ++ repeat (L ":") len ++ B)
    = join (L ":") A ++ repeat ":"%char k ++ join (L ":") B.
Proof.
  intros Hlen Hc. destruct len as [| n]; [lia |].
  assert (Hr : repeat (L ":") (S n) <> []) by discriminate.
  destruct A as [| a A], B as [| b B].
  - exists (S (2 * n)). split; [destruct Hc as [? | [? | ?]]; try congruence; lia |].
    rewrite app_nil_r. change ([] ++ repeat (L ":") (S n)) with (repeat (L ":") (S n)).
    rewrite join_colons. change (join (L ":") []) with (@nil ascii).
    rewrite app_nil_r. reflexivity.
  - exists (S (S (2 * n))). split; [lia |].
    change ([] ++ repeat (L ":") (S n) ++ b :: B) with (repeat (L ":") (S n) ++ b :: B).
    rewrite join_app by (auto; discriminate). rewrite join_colons.
    change (join (L ":") []) with (@nil ascii).
    rewrite colons_snoc. reflexivity.
  - exists (S (S (2 * n))). split; [lia |].
    rewrite app_nil_r. rewrite join_app by (auto; discriminate). rewrite join_colons.
    change (join (L ":") []) with (@nil ascii). rewrite app_nil_r.
    rewrite <- (app_nil_r (repeat ":"%char (S (2 * n)))) at 1.
    rewrite colons_cons. rewrite app_nil_r. reflexivity.
  - exists (S (S (S (2 * n)))). split; [lia |].
    rewrite join_app by (try discriminate; destruct n; discriminate).
    rewrite join_app by (auto; discriminate). rewrite join_colons.
    rewrite colons_snoc. rewrite colons_cons. reflexivity.
Qed.

Lemma colon_free_nonempty l : Forall colon_free l -> Forall (fun p : str => p <> []) l.
Proof. apply Forall_impl. intros p [H _]. exact H. Qed.

(** The compressed text of parts [A ++ zeros ++ B] whose chosen run is the
    [len] zeros: the groups before, [::], the groups after. *)
Lemma compress_text A B len :
  Forall colon_free A -> Forall colon_free B ->
  (1 <= len)%nat -> (A <> [] \/ B <> [] \/ 2 <= len)%nat ->
  compress_longest (A ++ repeat (L "0") len ++ B) = Some (seq (length A) len) ->
  compressIPv6 (A ++ repeat (L "0") len ++ B) = join (L ":") A ++ L "::" ++ join (L ":") B.
Proof.
  intros HA HB Hlen Hc Hl. unfold compressIPv6. rewrite Hl.
  replace len with (length (repeat (L "0") len)) at 1 by apply repeat_length.
  rewrite set_run. rewrite repeat_length.
  rewrite filter_nonempty.
  - destruct (@join_marked A B len Hlen Hc) as (k & Hk & E). rewrite E.
    apply replace_colons_join; auto. apply join_no_lead. exact HB.
  - apply Forall_app. split; [apply colon_free_nonempty; exact HA |].
    apply Forall_app. split; [| apply colon_free_nonempty; exact HB].
    apply Forall_forall. intros x Hx. apply repeat_spec in Hx. subst. discriminate.
Qed.

Lemma replace_colons_plain A :
  Forall colon_free A -> replace_colons (join (L ":") A) = join (L ":") A.
Proof.
  induction 1 as [| a A Ha HA IH]; [reflexivity |].
  destruct A as [| a' A'].
  - simpl. rewrite <- (app_nil_r a) at 1. rewrite replace_colons_free by apply Ha.
    simpl. rewrite app_nil_r. reflexivity.
  - rewrite join_cons2. rewrite replace_colons_free by apply Ha. f_equal.
    inversion HA; subst.
    assert (Hj : exists r, join (L ":") (a' :: A') = a' ++ r).
    { destruct A'; [exists []; simpl; rewrite app_nil_r; reflexivity |].
      eexists. rewrite join_cons2. reflexivity. }
    destruct Hj as [r Hr].
    change (L ":" ++ join (L ":") (a' :: A')) with (":"%char :: join (L ":") (a' :: A')).
    rewrite Hr. rewrite replace_colons_single by assumption. rewrite <- Hr.
    f_equal. exact IH.
Qed.

(** Without any ["0"] part nothing is replaced. *)
Lemma compress_text_none parts :
  Forall colon_free parts -> compress_longest parts = None ->
  compressIPv6 parts = join (L ":") parts.
Proof.
  intros HF Hl. unfold compressIPv6. rewrite Hl. simpl fold_left.
  rewrite filter_nonempty by (apply colon_free_nonempty; exact HF).
  apply replace_colons_plain. exact HF.
Qed.

(** ** IPv6: parsing the text of eight groups *)

Lemma is_hex_not c d : is_hex d = false -> is_hex c = true -> c <> d.
Proof. intros Hd Hc ->. congruence. Qed.

Lemma seg_text_not_In c h : seg_text h -> is_hex c = false -> ~ In c h.
Proof. intros [H _] Hc. eapply forallb_not_In; eauto. Qed.

Lemma seg_text_colon_free h : seg_text h -> colon_free h.
Proof.
  intros H. split.
  - destruct H as [_ Hl]. destruct h; [simpl in Hl; lia | discriminate].
  - apply seg_text_not_In; [exact H | reflexivity].
Qed.

Lemma seg_texts_colon_free l : Forall seg_text l -> Forall colon_free l.
Proof. apply Forall_impl. exact seg_text_colon_free. Qed.

Lemma seg_text_hex_part_ok h : seg_text h -> hex_part_ok h = true.
Proof.
  intros [H1 H2]. unfold hex_part_ok. rewrite H1. apply Nat.leb_le. lia.
Qed.

Lemma seg_text_part_val h : seg_text h -> part_val h = parse_digits 16 h.
Proof.
  intros [_ Hl]. unfold part_val. destruct h; [simpl in Hl; lia | reflexivity].
Qed.

Lemma lang_segment h : seg_text h -> lang IPV6_SEGMENT h.
Proof.
  intros [Hh Hl]. unfold IPV6_SEGMENT.
  replace h with (concat (map (fun c => [c]) h)).
  - apply lang_rep.
    + apply Forall_forall. intros x Hx. apply in_map_iff in Hx.
      destruct Hx as (c & <- & Hc). apply lang_cls.
      rewrite forallb_forall in Hh. apply Hh in Hc. exact Hc.
    + rewrite length_map. exact Hl.
  - clear. induction h; simpl; [reflexivity | f_equal; assumption].
Qed.

(** Characters of joined groups. *)
Lemma addr_char_join A :
  Forall seg_text A -> forallb addr_char (join (L ":") A) = true.
Proof.
  induction 1 as [| a A Ha HA IH]; [reflexivity |].
  assert (Hx : forallb addr_char a = true).
  { destruct Ha as [Hh _]. eapply forallb_impl; [| exact Hh].
    intros x Hx. unfold addr_char. rewrite Hx. reflexivity. }
  destruct A as [| a' A']; [exact Hx |].
  rewrite join_cons2, !forallb_app, Hx, IH. reflexivity.
Qed.

Lemma addr_char_compressed A B :
  Forall seg_text A -> Forall seg_text B ->
  forallb addr_char (join (L ":") A ++ L "::" ++ join (L ":") B) = true.
Proof.
  intros HA HB. rewrite !forallb_app, !addr_char_join by assumption. reflexivity.
Qed.

(** Text made of hexadecimal digits and colons is not taken for a zone
    suffix or for the mapped form. *)
Lemma addr_text_no_percent t : forallb addr_char t = true -> includes "%" t = false.
Proof.
  intros H. apply includes_false_iff. eapply forallb_not_In; [exact H | reflexivity].
Qed.

Lemma addr_text_not_mapped t : forallb addr_char t = true -> test ipv4MappedRegex t = false.
Proof.
  intros H. apply test_false_iff. intros Hl.
  apply (needs_sound "."%char) in Hl; [| reflexivity].
  revert Hl. eapply forallb_not_In; [exact H | reflexivity].
Qed.

(** The last steps of [ipv6ToBigInt], once the shorthand is expanded. *)
Lemma ipv6ToBigInt_parts t parts :
  forallb addr_char t = true ->
  expandIPv6Shorthand (split ":" t) = Ok parts ->
  length parts = 8%nat ->
  forallb hex_part_ok parts = true ->
  ipv6ToBigInt t = Ok (sum_groups (rev (map part_val parts))).
Proof.
  intros Ht He Hl Hp. unfold ipv6ToBigInt.
  rewrite (addr_text_no_percent _ Ht). cbn [bind].
  rewrite (addr_text_not_mapped _ Ht). rewrite He. cbn [bind].
  rewrite Hl. cbn [Nat.eqb negb orb].
  replace (existsb (fun part => negb (hex_part_ok part)) parts) with false; [reflexivity |].
  symmetry. clear - Hp. induction parts as [| p rest IH]; [reflexivity |].
  simpl in *. apply andb_prop in Hp. destruct Hp as [-> Hr]. simpl. auto.
Qed.

Lemma split_join_any B :
  Forall colon_free B ->
  split ":" (join (L ":") B) = match B with [] => [[]] | _ => B end.
Proof.
  intros H. destruct B as [| b B]; [reflexivity |].
  apply (split_join ":"%char (b :: B)); [discriminate |].
  eapply Forall_impl; [| exact H]. intros p [_ Hp]. exact Hp.
Qed.

Lemma split_join_prefix A rest :
  A <> [] -> Forall colon_free A ->
  split ":" (join (L ":") A ++ ":"%char :: rest) = A ++ split ":" rest.
Proof.
  intros Hne HA. induction HA as [| a A Ha HA IH]; [congruence |].
  destruct A as [| a' A'].
  - simpl join. rewrite split_app by apply Ha. reflexivity.
  - rewrite join_cons2. rewrite <- !app_assoc.
    change (a ++ L ":" ++ join (L ":") (a' :: A') ++ ":"%char :: rest)
      with (a ++ ":"%char :: (join (L ":") (a' :: A') ++ ":"%char :: rest)).
    rewrite split_app by apply Ha. rewrite IH by discriminate. reflexivity.
Qed.

Lemma indexOf_empty_app A X :
  Forall (fun p : str => p <> []) A ->
  indexOf_empty (A ++ [] :: X) = Some (length A).
Proof.
  induction 1 as [| a A Ha HA IH]; [reflexivity |].
  simpl. destruct a; [congruence |]. simpl. rewrite IH. reflexivity.
Qed.

Lemma indexOf_empty_none A :
  Forall (fun p : str => p <> []) A -> indexOf_empty A = None.
Proof.
  induction 1 as [| a A Ha HA IH]; [reflexivity |].
  simpl. destruct a; [congruence |]. simpl. rewrite IH. reflexivity.
Qed.

Lemma repeat_app_one (A : Type) (x : A) n rest :
  repeat x n ++ x :: rest = repeat x (S n) ++ rest.
Proof.
  change (x :: rest) with ([x] ++ rest). rewrite app_assoc, <- repeat_cons. reflexivity.
Qed.

Lemma firstn_app_exact (A : Type) (l r : list A) : firstn (length l) (l ++ r) = l.
Proof.
  rewrite firstn_app, Nat.sub_diag, firstn_all. simpl. apply app_nil_r.
Qed.

Lemma skipn_app_exact (A : Type) (l r : list A) : skipn (length l) (l ++ r) = r.
Proof.
  rewrite skipn_app, Nat.sub_diag, skipn_all. reflexivity.
Qed.

(** [::] stands for as many empty groups as are missing. *)
Lemma expand_compressed A B :
  Forall colon_free A -> Forall colon_free B ->
  (length A + length B <= 7)%nat ->
  expandIPv6Shorthand (split ":" (join (L ":") A ++ L "::" ++ join (L ":") B))
  = Ok (A ++ repeat [] (8 - length A - length B) ++ B).
Proof.
  intros HA HB Hl.
  assert (HAn := colon_free_nonempty _ HA).
  change (L "::" ++ join (L ":") B) with (":"%char :: ":"%char :: join (L ":") B).
  destruct A as [| a A'].
  - change (join (L ":") [] ++ ":"%char :: ":"%char :: join (L ":") B)
      with (":"%char :: ":"%char :: join (L ":") B).
    cbn [split]. rewrite Ascii.eqb_refl. rewrite split_join_any by assumption.
    unfold expandIPv6Shorthand. cbn [indexOf_empty is_empty firstn skipn app length].
    destruct B as [| b B'].
    + simpl. reflexivity.
    + cbn [length] in Hl |- *.
      replace (8 - Z.of_nat (S (S (S (length B')))) + 1 <? 0) with false
        by (symmetry; apply Z.ltb_ge; lia).
      f_equal. rewrite repeat_app_one. f_equal. f_equal. lia.
  - rewrite split_join_prefix by (auto; discriminate).
    cbn [split]. rewrite Ascii.eqb_refl. rewrite split_join_any by assumption.
    unfold expandIPv6Shorthand. rewrite indexOf_empty_app by assumption.
    rewrite firstn_app_exact.
    assert (Hs : forall X, skipn (S (length (a :: A'))) ((a :: A') ++ [] :: X) = X).
    { intros X. change ((a :: A') ++ [] :: X) with ((a :: A') ++ [[]] ++ X).
      rewrite app_assoc.
      replace (S (length (a :: A'))) with (length ((a :: A') ++ [[]]))
        by (rewrite length_app; simpl; lia).
      apply skipn_app_exact. }
    rewrite Hs.
    assert (Hlt : forall X : list str, (length X <= 8 - length (a :: A'))%nat ->
              (8 - Z.of_nat (length ((a :: A') ++ [] :: X)) + 1 <? 0) = false).
    { intros X HX. apply Z.ltb_ge. rewrite length_app. cbn [length] in Hl, HX |- *. lia. }
    destruct B as [| b B'].
    + rewrite Hlt by (cbn [length] in Hl |- *; lia).
      f_equal. f_equal. rewrite app_nil_r, repeat_app_one, app_nil_r. f_equal.
      rewrite length_app. cbn [length] in Hl |- *. lia.
    + rewrite Hlt by (cbn [length] in Hl |- *; lia).
      f_equal. f_equal. f_equal. f_equal.
      rewrite length_app. cbn [length] in Hl |- *. lia.
Qed.

(** Eight non-empty groups joined by colons hold no shorthand. *)
Lemma expand_plain parts :
  parts <> [] -> Forall colon_free parts ->
  expandIPv6Shorthand (split ":" (join (L ":") parts)) = Ok parts.
Proof.
  intros Hne HF. rewrite split_join_any by assumption.
  destruct parts as [| p rest]; [congruence |].
  unfold expandIPv6Shorthand. rewrite indexOf_empty_none; [reflexivity |].
  apply colon_free_nonempty. exact HF.
Qed.

(** ** IPv6: compressed text parses back *)

Lemma toString16_seg_text g : 0 <= g <= 65535 -> seg_text (toString 16 g).
Proof.
  intros H. destruct (toString16_group g H) as (Hh & Hl & _).
  split; [| exact Hl]. eapply forallb_impl; [| exact Hh]. exact is_lower_hex_is_hex.
Qed.

Lemma group_texts gs :
  Forall (fun g => 0 <= g <= 65535) gs ->
  Forall seg_text (map (toString 16) gs)
  /\ map part_val (map (toString 16) gs) = gs.
Proof.
  induction 1 as [| g gs Hg HF [IH1 IH2]]; [split; [constructor | reflexivity] |].
  split.
  - constructor; [apply toString16_seg_text; exact Hg | exact IH1].
  - simpl. rewrite IH2. f_equal.
    rewrite seg_text_part_val by (apply toString16_seg_text; exact Hg).
    apply (toString16_group g Hg).
Qed.

Lemma map_part_val_zeros A B len :
  map part_val (A ++ repeat [] len ++ B) = map part_val (A ++ repeat (L "0") len ++ B).
Proof.
  rewrite !map_app. f_equal. f_equal.
  induction len; simpl; [reflexivity | f_equal; assumption].
Qed.

Lemma forallb_hex_part_ok A B len :
  Forall seg_text A -> Forall seg_text B ->
  forallb hex_part_ok (A ++ repeat [] len ++ B) = true.
Proof.
  intros HA HB. rewrite !forallb_app.
  assert (H : forall l, Forall seg_text l -> forallb hex_part_ok l = true).
  { induction 1 as [| x l Hx Hl IH]; [reflexivity |].
    simpl. rewrite seg_text_hex_part_ok, IH by assumption. reflexivity. }
  rewrite (H A HA), (H B HB).
  replace (forallb hex_part_ok (repeat [] len)) with true; [reflexivity |].
  induction len; simpl; auto.
Qed.

Lemma Forall_firstn (A : Type) (P : A -> Prop) n l : Forall P l -> Forall P (firstn n l).
Proof.
  intros H. rewrite <- (firstn_skipn n l) in H. apply Forall_app in H. tauto.
Qed.

Lemma Forall_skipn (A : Type) (P : A -> Prop) n l : Forall P l -> Forall P (skipn n l).
Proof.
  intros H. rewrite <- (firstn_skipn n l) in H. apply Forall_app in H. tauto.
Qed.

(** The compressed text of eight group texts: either all of them joined, or
    the groups before a run of zeros, [::], and the groups after it. *)
Lemma compress_shape parts :
  length parts = 8%nat -> Forall seg_text parts ->
  (Forall (fun p => p <> L "0") parts /\ compressIPv6 parts = join (L ":") parts)
  \/ (exists A B len,
        parts = A ++ repeat (L "0") len ++ B
        /\ (1 <= len)%nat /\ (length A + len + length B = 8)%nat
        /\ Forall seg_text A /\ Forall seg_text B
        /\ compressIPv6 parts = join (L ":") A ++ L "::" ++ join (L ":") B).
Proof.
  intros Hlen HF.
  destruct (compress_longest_8 parts Hlen) as [[Hn Hnz] | (i & len & Hc & H1 & H2 & E)].
  - left. split; [exact Hnz |].
    apply compress_text_none; [apply seg_texts_colon_free; exact HF | exact Hn].
  - right.
    assert (HA : Forall seg_text (firstn i parts)) by (apply Forall_firstn; exact HF).
    assert (HB : Forall seg_text (skipn (i + len) parts)) by (apply Forall_skipn; exact HF).
    assert (LA : length (firstn i parts) = i) by (rewrite length_firstn; lia).
    assert (LB : length (skipn (i + len) parts) = (8 - (i + len))%nat)
      by (rewrite length_skipn; lia).
    remember (firstn i parts) as A eqn:EA. remember (skipn (i + len) parts) as B eqn:EB.
    clear EA EB HF Hlen. subst parts.
    exists A, B, len.
    split; [reflexivity |]. split; [exact H1 |]. split; [lia |].
    split; [exact HA |]. split; [exact HB |].
    apply compress_text.
    + apply seg_texts_colon_free; exact HA.
    + apply seg_texts_colon_free; exact HB.
    + exact H1.
    + destruct A; [| left; discriminate].
      destruct B; [| right; left; discriminate].
      right. right. cbn [length] in LA, LB. lia.
    + rewrite LA. exact Hc.
Qed.

(** Parsing the compressed text of eight groups gives the groups back. *)
Lemma compress_parses gs :
  length gs = 8%nat -> Forall (fun g => 0 <= g <= 65535) gs ->
  ipv6ToBigInt (compressIPv6 (map (toString 16) gs)) = Ok (sum_groups (rev gs)).
Proof.
  intros Hlen Hr. destruct (group_texts gs Hr) as [HF Hv].
  set (parts := map (toString 16) gs) in *.
  assert (Hpl : length parts = 8%nat) by (unfold parts; rewrite length_map; exact Hlen).
  destruct (compress_shape parts Hpl HF)
    as [[_ Ec] | (A & B & len & E & H1 & H2 & HA & HB & Ec)]; rewrite Ec.
  - rewrite (ipv6ToBigInt_parts _ parts).
    + rewrite Hv. reflexivity.
    + apply addr_char_join. exact HF.
    + apply expand_plain; [destruct parts; discriminate | apply seg_texts_colon_free; exact HF].
    + exact Hpl.
    + rewrite <- (app_nil_r parts). change [] with (repeat ([] : str) 0 ++ []).
      apply forallb_hex_part_ok; [exact HF | constructor].
  - rewrite (ipv6ToBigInt_parts _ (A ++ repeat [] len ++ B)).
    + rewrite map_part_val_zeros, <- E, Hv. reflexivity.
    + apply addr_char_compressed; assumption.
    + rewrite expand_compressed by (try apply seg_texts_colon_free; auto; lia).
      f_equal. f_equal. f_equal. f_equal. lia.
    + rewrite !length_app, repeat_length. lia.
    + apply forallb_hex_part_ok; assumption.
Qed.

(** ** IPv6: the rendered text passes validation *)

Lemma lang_seg_colon a : seg_text a -> lang seg_colon (a ++ L ":").
Proof. intros H. apply lang_seq; [apply lang_segment; exact H | apply lang_chr]. Qed.

Lemma lang_colon_seg b : seg_text b -> lang colon_seg (L ":" ++ b).
Proof. intros H. apply lang_seq; [apply lang_chr | apply lang_segment; exact H]. Qed.

Lemma concat_seg_colon A :
  A <> [] -> concat (map (fun a => a ++ L ":") A) = join (L ":") A ++ L ":".
Proof.
  induction A as [| a A IH]; intros Hne; [congruence |].
  destruct A as [| a' A'].
  - simpl. rewrite app_nil_r. reflexivity.
  - cbn [map concat]. cbn [map concat] in IH. rewrite IH by discriminate.
    rewrite join_cons2, <- !app_assoc. reflexivity.
Qed.

Lemma concat_colon_seg B :
  B <> [] -> concat (map (fun b => L ":" ++ b) B) = L ":" ++ join (L ":") B.
Proof.
  induction B as [| b B IH]; intros Hne; [congruence |].
  destruct B as [| b' B'].
  - simpl. rewrite app_nil_r. reflexivity.
  - cbn [map concat]. cbn [map concat] in IH. rewrite IH by discriminate.
    rewrite join_cons2, <- !app_assoc. reflexivity.
Qed.

Lemma lang_rep_seg_colon lo hi A :
  Forall seg_text A -> (lo <= length A <= hi)%nat ->
  lang (rep lo hi seg_colon) (concat (map (fun a => a ++ L ":") A)).
Proof.
  intros HA Hl. apply lang_rep.
  - apply Forall_forall. intros x Hx. apply in_map_iff in Hx. destruct Hx as (a & <- & Ha).
    apply lang_seg_colon. rewrite Forall_forall in HA. auto.
  - rewrite length_map. exact Hl.
Qed.

Lemma lang_rep_colon_seg lo hi B :
  Forall seg_text B -> (lo <= length B <= hi)%nat ->
  lang (rep lo hi colon_seg) (concat (map (fun b => L ":" ++ b) B)).
Proof.
  intros HB Hl. apply lang_rep.
  - apply Forall_forall. intros x Hx. apply in_map_iff in Hx. destruct Hx as (b & <- & Hb).
    apply lang_colon_seg. rewrite Forall_forall in HB. auto.
  - rewrite length_map. exact Hl.
Qed.

Lemma lang_both J K A B :
  Forall seg_text A -> Forall seg_text B ->
  (1 <= length A <= J)%nat -> (1 <= length B <= K)%nat ->
  lang (Seq (rep 1 J seg_colon) (rep 1 K colon_seg))
       (join (L ":") A ++ L "::" ++ join (L ":") B).
Proof.
  intros HA HB LA LB.
  replace (join (L ":") A ++ L "::" ++ join (L ":") B)
    with (concat (map (fun a => a ++ L ":") A) ++ concat (map (fun b => L ":" ++ b) B)).
  - apply lang_seq; [apply lang_rep_seg_colon | apply lang_rep_colon_seg]; assumption.
  - rewrite concat_seg_colon by (destruct A; [simpl in LA; lia | discriminate]).
    rewrite concat_colon_seg by (destruct B; [simpl in LB; lia | discriminate]).
    rewrite <- !app_assoc. reflexivity.
Qed.

(** Every text [A :: B] with at most seven groups in all is valid. *)
Lemma compressed_valid A B :
  Forall seg_text A -> Forall seg_text B -> (length A + length B <= 7)%nat ->
  lang IPV6_VALIDATION_REGEX (join (L ":") A ++ L "::" ++ join (L ":") B).
Proof.
  intros HA HB Hl. unfold IPV6_VALIDATION_REGEX.
  destruct A as [| a A'] eqn:EA; [| rewrite <- EA in *; assert (1 <= length A)%nat by (rewrite EA; simpl; lia)];
  (destruct B as [| b B'] eqn:EB; [| rewrite <- EB in *; assert (1 <= length B)%nat by (rewrite EB; simpl; lia)]).
  - apply lang_alts with (r := IPV6_COMPRESSED_10); [simpl; tauto |].
    apply (@lang_seq colon colon [":"%char] [":"%char]); apply lang_chr.
  - apply lang_alts with (r := IPV6_COMPRESSED_2); [simpl; tauto |].
    change (join (L ":") [] ++ L "::" ++ join (L ":") B)
      with (L ":" ++ (L ":" ++ join (L ":") B)).
    apply lang_seq; [apply lang_chr |].
    rewrite <- concat_colon_seg by (rewrite EB; discriminate).
    apply lang_rep_colon_seg; [exact HB | simpl in Hl; lia].
  - apply lang_alts with (r := IPV6_COMPRESSED_1); [simpl; tauto |].
    change (join (L ":") A ++ L "::" ++ join (L ":") [])
      with (join (L ":") A ++ L ":" ++ L ":").
    rewrite app_assoc. apply lang_seq; [| apply lang_chr].
    rewrite <- concat_seg_colon by (rewrite EA; discriminate).
    apply lang_rep_seg_colon; [exact HA | simpl in Hl; lia].
  - destruct (Nat.eq_dec (length B) 1) as [K1 | K1].
    { apply lang_alts with (r := IPV6_COMPRESSED_3); [simpl; tauto |].
      destruct B' as [| ? ?]; [| rewrite EB in K1; simpl in K1; lia].
      rewrite EB. simpl (join _ [b]).
      change (join (L ":") A ++ L "::" ++ b) with (join (L ":") A ++ L ":" ++ (L ":" ++ b)).
      rewrite app_assoc. unfold IPV6_COMPRESSED_3, seqs.
      apply lang_seq.
      - rewrite <- concat_seg_colon by (rewrite EA; discriminate).
        apply lang_rep_seg_colon; [exact HA | rewrite EB in Hl; simpl in Hl; lia].
      - apply lang_seq; [apply lang_chr |]. apply lang_segment.
        rewrite EB in HB. inversion HB; assumption. }
    destruct (Nat.eq_dec (length B) 2) as [K2 | K2].
    { apply lang_alts with (r := IPV6_COMPRESSED_4); [simpl; tauto |].
      apply lang_both; auto; lia. }
    destruct (Nat.eq_dec (length B) 3) as [K3 | K3].
    { apply lang_alts with (r := IPV6_COMPRESSED_5); [simpl; tauto |].
      apply lang_both; auto; lia. }
    destruct (Nat.eq_dec (length B) 4) as [K4 | K4].
    { apply lang_alts with (r := IPV6_COMPRESSED_6); [simpl; tauto |].
      apply lang_both; auto; lia. }
    destruct (Nat.eq_dec (length B) 5) as [K5 | K5].
    { apply lang_alts with (r := IPV6_COMPRESSED_7); [simpl; tauto |].
      apply lang_both; auto; lia. }
    apply lang_alts with (r := IPV6_COMPRESSED_8); [simpl; tauto |].
    assert (LA1 : length A = 1%nat) by lia.
    destruct A' as [| ? ?]; [| rewrite EA in LA1; simpl in LA1; lia].
    rewrite EA. simpl (join _ [a]).
    change (a ++ L "::" ++ join (L ":") B) with (a ++ L ":" ++ (L ":" ++ join (L ":") B)).
    unfold IPV6_COMPRESSED_8, seqs.
    apply lang_seq; [apply lang_segment; rewrite EA in HA; inversion HA; assumption |].
    apply lang_seq; [apply lang_chr |].
    rewrite <- concat_colon_seg by (rewrite EB; discriminate).
    apply lang_rep_colon_seg; [exact HB | lia].
Qed.

(** Eight groups joined by colons are valid. *)
Lemma plain_valid parts :
  length parts = 8%nat -> Forall seg_text parts ->
  lang IPV6_VALIDATION_REGEX (join (L ":") parts).
Proof.
  intros Hl HF. unfold IPV6_VALIDATION_REGEX.
  apply lang_alts with (r := IPV6_STANDARD); [simpl; tauto |].
  rewrite <- (firstn_skipn 7 parts).
  assert (L7 : length (firstn 7 parts) = 7%nat) by (rewrite length_firstn; lia).
  assert (L1 : length (skipn 7 parts) = 1%nat) by (rewrite length_skipn; lia).
  assert (H7 : Forall seg_text (firstn 7 parts)) by (apply Forall_firstn; exact HF).
  assert (H1 : Forall seg_text (skipn 7 parts)) by (apply Forall_skipn; exact HF).
  destruct (skipn 7 parts) as [| x [| ? ?]]; try discriminate.
  rewrite join_app by (try discriminate; destruct (firstn 7 parts); discriminate).
  rewrite app_assoc. simpl (join _ [x]).
  apply lang_seq; [| apply lang_segment; inversion H1; assumption].
  rewrite <- concat_seg_colon by (destruct (firstn 7 parts); discriminate).
  apply lang_rep_seg_colon; [exact H7 | lia].
Qed.

(** The mapped form [::ffff:a.b.c.d] is valid. *)
Lemma mapped_valid v : lang IPV6_VALIDATION_REGEX (L "::ffff:" ++ ipv4_text v).
Proof.
  unfold IPV6_VALIDATION_REGEX.
  apply lang_alts with (r := IPV6_IPV4_MAPPED); [simpl; tauto |].
  unfold IPV6_IPV4_MAPPED. apply lang_seq; [| apply ipv4_text_valid].
  apply lang_alts with (r := seqs [colon; colon; rep 0 5 seg_colon]); [simpl; tauto |].
  apply test_iff. vm_compute. reflexivity.
Qed.

(** ** IPv6: codec round trip and class *)

Lemma sum_groups_8 g0 g1 g2 g3 g4 g5 g6 g7 :
  sum_groups (rev [g0; g1; g2; g3; g4; g5; g6; g7])
  = g0 * 2 ^ 112 + g1 * 2 ^ 96 + g2 * 2 ^ 80 + g3 * 2 ^ 64
    + g4 * 2 ^ 48 + g5 * 2 ^ 32 + g6 * 2 ^ 16 + g7.
Proof.
  unfold sum_groups. cbn [rev app fold_left fst].
  change (0 + 16) with 16. change (16 + 16) with 32. change (32 + 16) with 48.
  change (48 + 16) with 64. change (64 + 16) with 80. change (80 + 16) with 96.
  change (96 + 16) with 112. change (2 ^ 0) with 1. lia.
Qed.

Lemma groups_of_length n : length (groups_of n) = 8%nat.
Proof. reflexivity. Qed.

Lemma groups_of_range n : Forall (fun g => 0 <= g <= 65535) (groups_of n).
Proof.
  unfold groups_of. apply Forall_forall. intros g Hg. apply in_map_iff in Hg.
  destruct Hg as (i & <- & _). apply group_range.
Qed.

Lemma groups_of_value n : sum_groups (rev (groups_of n)) = n mod 2 ^ 128.
Proof.
  unfold groups_of. cbn [map]. rewrite sum_groups_8.
  rewrite !land_ffff.
  change (112 - 0 * 16) with 112. change (112 - 1 * 16) with 96.
  change (112 - 2 * 16) with 80. change (112 - 3 * 16) with 64.
  change (112 - 4 * 16) with 48. change (112 - 5 * 16) with 32.
  change (112 - 6 * 16) with 16. change (112 - 7 * 16) with 0.
  rewrite Z.shiftr_0_r. rewrite !Z.shiftr_div_pow2 by lia.
  apply groups_value.
Qed.

(** Zero padding. *)
Lemma parse_digits_pad k h :
  parse_digits 16 (repeat "0"%char k ++ h) = parse_digits 16 h.
Proof.
  induction k as [| k IH]; [reflexivity |].
  simpl repeat. rewrite <- IH. unfold parse_digits. simpl. reflexivity.
Qed.

Lemma padStart_seg_text h :
  seg_text h ->
  seg_text (padStart 4 "0" h)
  /\ length (padStart 4 "0" h) = 4%nat
  /\ part_val (padStart 4 "0" h) = part_val h.
Proof.
  intros [Hh Hl]. unfold padStart.
  assert (Hs : seg_text (repeat "0"%char (4 - length h) ++ h)).
  { split.
    - rewrite forallb_app, Hh, andb_true_r.
      apply forallb_forall. intros x Hx. apply repeat_spec in Hx. subst. reflexivity.
    - rewrite length_app, repeat_length. lia. }
  split; [exact Hs |]. split.
  - rewrite length_app, repeat_length. lia.
  - rewrite (seg_text_part_val _ Hs), (seg_text_part_val h (conj Hh Hl)).
    apply parse_digits_pad.
Qed.

Lemma padded_texts parts :
  Forall seg_text parts ->
  Forall seg_text (map (padStart 4 "0") parts)
  /\ map part_val (map (padStart 4 "0") parts) = map part_val parts.
Proof.
  induction 1 as [| p rest Hp HF [IH1 IH2]]; [split; [constructor | reflexivity] |].
  destruct (padStart_seg_text p Hp) as (S1 & _ & S3).
  split; [constructor; assumption |]. simpl. rewrite S3, IH2. reflexivity.
Qed.

(** Parsing eight groups joined by single colons. *)
Lemma plain_parses parts :
  length parts = 8%nat -> Forall seg_text parts ->
  ipv6ToBigInt (join (L ":") parts) = Ok (sum_groups (rev (map part_val parts))).
Proof.
  intros Hl HF. apply ipv6ToBigInt_parts.
  - apply addr_char_join. exact HF.
  - apply expand_plain; [destruct parts; discriminate | apply seg_texts_colon_free; exact HF].
  - exact Hl.
  - rewrite <- (app_nil_r parts). change [] with (repeat ([] : str) 0 ++ []).
    apply forallb_hex_part_ok; [exact HF | constructor].
Qed.

(** The text of the mapped shortcut. *)
Lemma mapped_text_parses v :
  ipv6ToBigInt (L "::ffff:" ++ ipv4_text v)
  = Ok (Z.lor (Z.shiftl 0x00000000000000000000ffff 32) (v mod 2 ^ 32)).
Proof.
  unfold ipv6ToBigInt.
  assert (Hp : includes "%" (L "::ffff:" ++ ipv4_text v) = false).
  { rewrite includes_app. apply orb_false_intro; [reflexivity |].
    apply includes_false_iff. apply (avoids_sound "%"%char IPV4_ADDRESS_PATTERN).
    - vm_compute. reflexivity.
    - apply ipv4_text_valid. }
  rewrite Hp. cbn [bind].
  assert (Hm : test ipv4MappedRegex (L "::ffff:" ++ ipv4_text v) = true).
  { apply test_iff. unfold ipv4MappedRegex. apply lang_seq; [apply lang_lit |].
    unfold ipv4_text, seqs, dot.
    destruct (octet_text v 24) as (_ & _ & _ & L1).
    destruct (octet_text v 16) as (_ & _ & _ & L2).
    destruct (octet_text v 8) as (_ & _ & _ & L3).
    destruct (octet_text v 0) as (_ & _ & _ & L4).
    rewrite Z.shiftr_0_r in L4.
    repeat (apply lang_seq; [first [assumption | apply lang_chr] |]). assumption. }
  rewrite Hm.
  change (skipn 7 (L "::ffff:" ++ ipv4_text v)) with (ipv4_text v).
  rewrite ipv4ToBigInt_text. reflexivity.
Qed.

Lemma mapped_value n :
  Z.shiftr n 32 = 0xffff ->
  Z.lor (Z.shiftl 0x00000000000000000000ffff 32) (Z.land n 0xffffffff mod 2 ^ 32)
  = n mod 2 ^ 128.
Proof.
  intros H. rewrite Z.shiftr_div_pow2 in H by lia.
  rewrite land_max32, Z.mod_mod by lia.
  pose proof (Z.mod_pos_bound n (2 ^ 32) ltac:(lia)) as Hb.
  rewrite lor_shiftl_add by lia.
  pose proof (Z.div_mod n (2 ^ 32) ltac:(lia)) as Hd. rewrite H in Hd.
  change (2 ^ 32) with 4294967296 in *.
  change (2 ^ 128) with 340282366920938463463374607431768211456.
  rewrite (Z.mod_small n 340282366920938463463374607431768211456) by lia.
  lia.
Qed.

(** Codec round trip, version 6: compressed or expanded, and for every
    integer, in range or not. *)
Lemma ipv6ToBigInt_text n compress :
  ipv6ToBigInt (bigIntToIp n V6 compress) = Ok (n mod 2 ^ 128).
Proof.
  unfold bigIntToIp. destruct (Z.shiftr n 32 =? 0xffff) eqn:Em.
  - apply Z.eqb_eq in Em. rewrite mapped_text_parses, mapped_value by exact Em. reflexivity.
  - fold (groups_of n).
    destruct (group_texts (groups_of n) (groups_of_range n)) as [HF Hv].
    destruct compress.
    + rewrite compress_parses by (try apply groups_of_length; apply groups_of_range).
      rewrite groups_of_value. reflexivity.
    + destruct (padded_texts _ HF) as [HP HPv].
      rewrite plain_parses by (rewrite ?length_map; auto).
      rewrite HPv, Hv, groups_of_value. reflexivity.
Qed.

Lemma bigIntToIp_v6_valid n compress :
  lang IPV6_VALIDATION_REGEX (bigIntToIp n V6 compress)
  /\ includes "/" (bigIntToIp n V6 compress) = false.
Proof.
  unfold bigIntToIp. destruct (Z.shiftr n 32 =? 0xffff) eqn:Em.
  - split; [apply mapped_valid |].
    rewrite includes_app. apply orb_false_intro; [reflexivity |].
    apply includes_false_iff. apply (avoids_sound "/"%char IPV4_ADDRESS_PATTERN).
    + vm_compute. reflexivity.
    + apply ipv4_text_valid.
  - fold (groups_of n).
    destruct (group_texts (groups_of n) (groups_of_range n)) as [HF Hv].
    assert (Hs : forall t, forallb addr_char t = true -> includes "/" t = false).
    { intros t Ht. apply includes_false_iff. eapply forallb_not_In; [exact Ht | reflexivity]. }
    destruct compress.
    + destruct (compress_shape (map (toString 16) (groups_of n)))
        as [[_ Ec] | (A & B & len & E & H1 & H2 & HA & HB & Ec)];
        [rewrite length_map; apply groups_of_length | exact HF | |]; rewrite Ec.
      * split; [apply plain_valid; [rewrite length_map; apply groups_of_length | exact HF] |].
        apply Hs, addr_char_join, HF.
      * split; [apply compressed_valid; auto; lia |].
        apply Hs, addr_char_compressed; assumption.
    + destruct (padded_texts _ HF) as [HP HPv].
      split; [apply plain_valid; [rewrite !length_map; apply groups_of_length | exact HP] |].
      apply Hs, addr_char_join, HP.
Qed.

(** [IPv6.fromBigInt] keeps the low 128 bits and never throws. *)
Lemma IPv6_fromBigInt_mod n : IPv6.fromBigInt n = Ok (IPv6.mk (n mod 2 ^ 128)).
Proof.
  unfold IPv6.fromBigInt, IPv6.new, IPv6.isValid.
  destruct (bigIntToIp_v6_valid n true) as [Hv Hs]. rewrite Hs.
  rewrite (proj2 (test_iff _ _) Hv). cbn [negb].
  unfold ipToBigInt. cbn [bind]. rewrite ipv6ToBigInt_text. reflexivity.
Qed.

Lemma IPv6_fromBigInt_id n : 0 <= n < 2 ^ 128 -> IPv6.fromBigInt n = Ok (IPv6.mk n).
Proof. intros H. rewrite IPv6_fromBigInt_mod, Z.mod_small by lia. reflexivity. Qed.

(** ** IPv6: whatever is parsed is a 128-bit integer *)

Lemma Ok_inj (A : Type) (a b : A) : Ok a = Ok b -> a = b.
Proof. intros H. injection H. auto. Qed.

Lemma hex_part_val_range p : hex_part_ok p = true -> 0 <= part_val p <= 65535.
Proof.
  unfold hex_part_ok, part_val. intros H. apply andb_prop in H. destruct H as [_ Hl].
  apply Nat.leb_le in Hl. destruct p as [| c p]; [simpl; lia |].
  cbn [is_empty]. pose proof (parse_hex_bound (c :: p)) as Hb.
  assert (16 ^ Z.of_nat (length (c :: p)) <= 16 ^ 4) by (apply Z.pow_le_mono_r; lia).
  change (16 ^ 4) with 65536 in *. lia.
Qed.

Lemma horner_step x g m :
  0 <= x < m -> 0 <= g <= 65535 -> 0 <= x * 65536 + g < m * 65536.
Proof. intros. nia. Qed.

Lemma sum_groups_range parts :
  length parts = 8%nat -> forallb hex_part_ok parts = true ->
  0 <= sum_groups (rev (map part_val parts)) < 2 ^ 128.
Proof.
  intros Hl Hp.
  destruct parts as [| p0 [| p1 [| p2 [| p3 [| p4 [| p5 [| p6 [| p7 [| ? ?]]]]]]]]];
    try discriminate.
  cbn [forallb] in Hp.
  apply andb_prop in Hp. destruct Hp as [H0 Hp]. apply hex_part_val_range in H0.
  apply andb_prop in Hp. destruct Hp as [H1 Hp]. apply hex_part_val_range in H1.
  apply andb_prop in Hp. destruct Hp as [H2 Hp]. apply hex_part_val_range in H2.
  apply andb_prop in Hp. destruct Hp as [H3 Hp]. apply hex_part_val_range in H3.
  apply andb_prop in Hp. destruct Hp as [H4 Hp]. apply hex_part_val_range in H4.
  apply andb_prop in Hp. destruct Hp as [H5 Hp]. apply hex_part_val_range in H5.
  apply andb_prop in Hp. destruct Hp as [H6 Hp]. apply hex_part_val_range in H6.
  apply andb_prop in Hp. destruct Hp as [H7 _]. apply hex_part_val_range in H7.
  cbn [map]. rewrite sum_groups_8.
  generalize dependent (part_val p0). generalize dependent (part_val p1).
  generalize dependent (part_val p2). generalize dependent (part_val p3).
  generalize dependent (part_val p4). generalize dependent (part_val p5).
  generalize dependent (part_val p6). generalize dependent (part_val p7).
  intros g7 H7 g6 H6 g5 H5 g4 H4 g3 H3 g2 H2 g1 H1 g0 H0.
  replace (g0 * 2 ^ 112 + g1 * 2 ^ 96 + g2 * 2 ^ 80 + g3 * 2 ^ 64
           + g4 * 2 ^ 48 + g5 * 2 ^ 32 + g6 * 2 ^ 16 + g7)
    with (((((((g0 * 65536 + g1) * 65536 + g2) * 65536 + g3) * 65536 + g4) * 65536
             + g5) * 65536 + g6) * 65536 + g7) by ring.
  change (2 ^ 128)
    with (65536 * 65536 * 65536 * 65536 * 65536 * 65536 * 65536 * 65536).
  repeat (apply horner_step; [| assumption]). lia.
Qed.

Lemma existsb_negb_false (A : Type) (f : A -> bool) l :
  existsb (fun x => negb (f x)) l = false -> forallb f l = true.
Proof.
  induction l as [| x l IH]; simpl; [reflexivity |].
  intros H. apply orb_false_elim in H. destruct H as [H1 H2].
  apply negb_false_iff in H1. rewrite H1, IH by assumption. reflexivity.
Qed.

Lemma ipv6ToBigInt_range s n : ipv6ToBigInt s = Ok n -> 0 <= n < 2 ^ 128.
Proof.
  unfold ipv6ToBigInt. intros H.
  match type of H with bind ?z _ = _ => destruct z as [ip | e] end; [| discriminate].
  cbn [bind] in H.
  destruct (test ipv4MappedRegex ip).
  - destruct (ipv4ToBigInt (skipn 7 ip)) as [v |] eqn:E; [| discriminate].
    cbn [bind] in H. apply Ok_inj in H. subst n. apply ipv4ToBigInt_range in E.
    rewrite lor_shiftl_add by lia.
    change (2 ^ 32) with 4294967296 in *.
    change (2 ^ 128) with 340282366920938463463374607431768211456. lia.
  - destruct (expandIPv6Shorthand (split ":" ip)) as [parts |]; [| discriminate].
    cbn [bind] in H.
    destruct (length parts =? 8)%nat eqn:El; [| discriminate].
    cbn [negb orb] in H.
    destruct (existsb (fun part => negb (hex_part_ok part)) parts) eqn:Ex; [discriminate |].
    apply Ok_inj in H. subst n. apply Nat.eqb_eq in El.
    apply sum_groups_range; [exact El | apply existsb_negb_false; exact Ex].
Qed.

(** Every [IPv6] instance built by the constructor holds a 128-bit integer. *)
Lemma IPv6_new_range s a : IPv6.new s = Ok a -> 0 <= IPv6.address_ a < 2 ^ 128.
Proof.
  unfold IPv6.new, ipToBigInt. intros H.
  destruct (negb (IPv6.isValid s)); [discriminate |]. cbn [bind] in H.
  destruct (ipv6ToBigInt s) as [n |] eqn:E; [| discriminate].
  cbn [bind] in H. apply Ok_inj in H. subst a. simpl. eapply ipv6ToBigInt_range; eauto.
Qed.

(** The constructors only ever throw [InvalidIPAddressError]. *)
Lemma IPv4_new_error s e : IPv4.new s = Throw e -> e = InvalidIPAddressError.
Proof.
  unfold IPv4.new. intros H. destruct (IPv4.isValid s) eqn:Ev; cbn [negb] in H; [| congruence].
  destruct (IPv4_isValid_parses s Ev) as (n & En & _).
  unfold ipToBigInt in H. cbn [bind] in H. rewrite En in H. discriminate.
Qed.

(** ** CIDR: the arithmetic of masks *)

Lemma MAX_IP_ones v : MAX_IP v = Z.ones (BITS v).
Proof. destruct v; reflexivity. Qed.

Lemma BITS_pos v : 0 < BITS v.
Proof. destruct v; simpl; lia. Qed.

Lemma MAX_IP_eq v : MAX_IP v = 2 ^ BITS v - 1.
Proof. destruct v; reflexivity. Qed.

Lemma land_MAX_IP v x : Z.land x (MAX_IP v) = x mod 2 ^ BITS v.
Proof. rewrite MAX_IP_ones. apply Z.land_ones. pose proof (BITS_pos v). lia. Qed.

Lemma testbit_high a b i : 0 <= a < 2 ^ b -> b <= i -> Z.testbit a i = false.
Proof.
  intros Ha Hi. destruct (Z.eq_dec a 0) as [-> | Hnz]; [apply Z.bits_0 |].
  apply Z.bits_above_log2; [lia |].
  assert (0 <= b) by (destruct (Z.le_gt_cases 0 b); [assumption |];
                      rewrite Z.pow_neg_r in Ha by lia; lia).
  assert (Z.log2 a < b) by (apply Z.log2_lt_pow2; lia). lia.
Qed.

(** The netmask clears the [b - p] host bits. *)
Lemma land_netmask b p a :
  0 <= p <= b -> 0 <= a < 2 ^ b ->
  Z.land a (Z.land (Z.shiftl (Z.ones b) (b - p)) (Z.ones b))
  = Z.shiftl (Z.shiftr a (b - p)) (b - p).
Proof.
  intros Hp Ha. apply Z.bits_inj'. intros i Hi.
  rewrite !Z.land_spec.
  destruct (Z.ltb_spec i (b - p)) as [Hlt | Hge].
  - rewrite !Z.shiftl_spec_low by lia. rewrite andb_false_l, andb_false_r. reflexivity.
  - rewrite !Z.shiftl_spec_high by lia. rewrite Z.shiftr_spec by lia.
    replace (i - (b - p) + (b - p)) with i by lia.
    destruct (Z.ltb_spec i b) as [Hib | Hib].
    + rewrite !Z.ones_spec_low by lia. rewrite andb_true_r. reflexivity.
    + rewrite (testbit_high a b i) by lia. reflexivity.
Qed.

Lemma shiftr_ones b p : 0 <= p <= b -> Z.shiftr (Z.ones b) p = Z.ones (b - p).
Proof.
  intros Hp. apply Z.bits_inj'. intros i Hi.
  rewrite Z.shiftr_spec by lia.
  destruct (Z.ltb_spec i (b - p)).
  - rewrite !Z.ones_spec_low by lia. reflexivity.
  - rewrite !Z.ones_spec_high by lia. reflexivity.
Qed.

(** Network and broadcast as quotient and remainder by the block size. *)
Lemma network_int_eq v a p :
  0 <= p <= BITS v -> 0 <= a < 2 ^ BITS v ->
  network_int v a p = a / 2 ^ (BITS v - p) * 2 ^ (BITS v - p).
Proof.
  intros Hp Ha. unfold network_int, netmask_int. rewrite MAX_IP_ones.
  rewrite land_netmask by assumption.
  rewrite Z.shiftl_mul_pow2, Z.shiftr_div_pow2 by lia. reflexivity.
Qed.

Lemma broadcast_int_eq v a p :
  0 <= p <= BITS v -> 0 <= a < 2 ^ BITS v ->
  broadcast_int v a p = network_int v a p + (2 ^ (BITS v - p) - 1).
Proof.
  intros Hp Ha. unfold broadcast_int. rewrite network_int_eq by assumption.
  rewrite MAX_IP_ones, shiftr_ones by assumption.
  rewrite <- Z.shiftl_mul_pow2 by lia.
  rewrite lor_shiftl_add; [rewrite Z.shiftl_mul_pow2 by lia; rewrite Z.ones_equiv; lia | lia |].
  rewrite Z.ones_equiv. pose proof (Z.pow_pos_nonneg 2 (BITS v - p) ltac:(lia) ltac:(lia)). lia.
Qed.

(** The derived range: [network <= address <= broadcast], all inside the
    version's range, the block holding [2^(bits - prefix)] addresses. *)
Lemma cidr_range v a p :
  0 <= p <= BITS v -> 0 <= a < 2 ^ BITS v ->
  0 <= network_int v a p <= a
  /\ a <= broadcast_int v a p < 2 ^ BITS v.
Proof.
  intros Hp Ha. rewrite broadcast_int_eq, network_int_eq by assumption.
  set (h := BITS v - p). assert (Hh : 0 <= h <= BITS v) by (unfold h; lia).
  assert (Hpos : 0 < 2 ^ h) by (apply Z.pow_pos_nonneg; lia).
  pose proof (Z.div_mod a (2 ^ h) ltac:(lia)) as Hd.
  pose proof (Z.mod_pos_bound a (2 ^ h) Hpos) as Hm.
  assert (Hq : 0 <= a / 2 ^ h) by (apply Z.div_pos; lia).
  assert (Hb : 2 ^ BITS v = 2 ^ p * 2 ^ h).
  { rewrite <- Z.pow_add_r by lia. f_equal. unfold h. lia. }
  assert (Hqlt : a / 2 ^ h < 2 ^ p).
  { apply Z.div_lt_upper_bound; [exact Hpos |]. rewrite Z.mul_comm, <- Hb. lia. }
  repeat split; try nia.
Qed.

Lemma netmask_int_range v p :
  0 <= netmask_int v p < 2 ^ BITS v.
Proof.
  unfold netmask_int. rewrite land_MAX_IP. apply Z.mod_pos_bound.
  apply Z.pow_pos_nonneg; [lia | pose proof (BITS_pos v); lia].
Qed.

(** ** CIDR: derived quantities *)

Lemma IP_toBigInt_mkIP v n : IP_toBigInt (mkIP v n) = n.
Proof. destruct v; reflexivity. Qed.

Lemma IP_version_mkIP v n : IP_version (mkIP v n) = v.
Proof. destruct v; reflexivity. Qed.

Lemma mkIP_eta ip : mkIP (IP_version ip) (IP_toBigInt ip) = ip.
Proof. destruct ip as [[a] | [a]]; reflexivity. Qed.

Lemma CIDR_fromBigInt_mod v n :
  CIDR.fromBigInt v n = Ok (mkIP v (n mod 2 ^ BITS v)).
Proof.
  destruct v; unfold CIDR.fromBigInt.
  - rewrite IPv4_fromBigInt_mod. reflexivity.
  - rewrite IPv6_fromBigInt_mod. reflexivity.
Qed.

Lemma CIDR_fromBigInt_id v n :
  0 <= n < 2 ^ BITS v -> CIDR.fromBigInt v n = Ok (mkIP v n).
Proof. intros H. rewrite CIDR_fromBigInt_mod, Z.mod_small by exact H. reflexivity. Qed.

Lemma CIDR_netmask_eq c :
  CIDR.netmask c = Ok (mkIP (CIDR.version c) (netmask_int (CIDR.version c) (CIDR.prefix c))).
Proof.
  unfold CIDR.netmask. apply CIDR_fromBigInt_id. apply netmask_int_range.
Qed.

Lemma CIDR_network_eq c :
  cidr_wf c ->
  CIDR.network c
  = Ok (mkIP (CIDR.version c)
          (network_int (CIDR.version c) (IP_toBigInt (CIDR.address c)) (CIDR.prefix c))).
Proof.
  intros [Hp Ha]. unfold CIDR.network. rewrite CIDR_netmask_eq. cbn [bind].
  rewrite IP_toBigInt_mkIP. apply CIDR_fromBigInt_id.
  pose proof (cidr_range _ _ _ Hp Ha). unfold network_int in *. lia.
Qed.

Lemma CIDR_broadcast_eq c :
  cidr_wf c ->
  CIDR.broadcast c
  = Ok (mkIP (CIDR.version c)
          (broadcast_int (CIDR.version c) (IP_toBigInt (CIDR.address c)) (CIDR.prefix c))).
Proof.
  intros Hwf. unfold CIDR.broadcast. rewrite CIDR_network_eq by exact Hwf. cbn [bind].
  rewrite IP_toBigInt_mkIP. apply CIDR_fromBigInt_id.
  destruct Hwf as [Hp Ha]. pose proof (cidr_range _ _ _ Hp Ha). unfold broadcast_int in *. lia.
Qed.

Lemma IP_next_mkIP v n :
  CIDR.IP_next (mkIP v n) = Ok (mkIP v ((n + 1) mod 2 ^ BITS v)).
Proof.
  destruct v; unfold CIDR.IP_next, mkIP.
  - unfold IPv4.next. cbn [IPv4.address_]. rewrite IPv4_fromBigInt_mod.
    cbn [bind]. rewrite (land_MAX_IP V4), Z.mod_mod by (simpl; lia). reflexivity.
  - unfold IPv6.next. cbn [IPv6.address_]. rewrite IPv6_fromBigInt_mod.
    cbn [bind]. rewrite (land_MAX_IP V6), Z.mod_mod by (simpl; lia). reflexivity.
Qed.

Lemma IP_previous_mkIP v n :
  CIDR.IP_previous (mkIP v n) = Ok (mkIP v ((n - 1) mod 2 ^ BITS v)).
Proof.
  destruct v; unfold CIDR.IP_previous, mkIP.
  - unfold IPv4.previous. cbn [IPv4.address_]. rewrite IPv4_fromBigInt_mod.
    cbn [bind]. rewrite (land_MAX_IP V4), Z.mod_mod by (simpl; lia). reflexivity.
  - unfold IPv6.previous. cbn [IPv6.address_]. rewrite IPv6_fromBigInt_mod.
    cbn [bind]. rewrite (land_MAX_IP V6), Z.mod_mod by (simpl; lia). reflexivity.
Qed.

(** What the constructor accepts is well formed. *)
Lemma CIDR_new_wf s c : CIDR.new s = Ok c -> cidr_wf c.
Proof.
  unfold CIDR.new. intros H.
  destruct (nth_error (split "/" s) 1) as [prefixPart |]; [| discriminate].
  destruct (is_empty prefixPart); [discriminate |].
  destruct (parseInt10 prefixPart) as [prefix |]; [| discriminate].
  destruct (includes "." (hd [] (split "/" s))).
  - destruct (IPv4.new (hd [] (split "/" s))) as [a |] eqn:Ea; [| discriminate].
    cbn [bind] in H.
    destruct ((prefix <? 0) || (BITS V4 <? prefix)) eqn:Ep; [discriminate |].
    apply Ok_inj in H. subst c. apply orb_false_elim in Ep. destruct Ep as [E1 E2].
    apply Z.ltb_ge in E1, E2. apply IPv4_new_range in Ea.
    split; [cbn [BITS] in E2; simpl; lia | exact Ea].
  - destruct (IPv6.new (hd [] (split "/" s))) as [a |] eqn:Ea; [| discriminate].
    cbn [bind] in H.
    destruct ((prefix <? 0) || (BITS V6 <? prefix)) eqn:Ep; [discriminate |].
    apply Ok_inj in H. subst c. apply orb_false_elim in Ep. destruct Ep as [E1 E2].
    apply Z.ltb_ge in E1, E2. apply IPv6_new_range in Ea.
    split; [cbn [BITS] in E2; simpl; lia | exact Ea].
Qed.

Lemma version_eqb_refl v : version_eqb v v = true.
Proof. destruct v; reflexivity. Qed.

(** Containment of an address instance of the block's own version. *)
Lemma CIDR_contains_instance c ip :
  cidr_wf c -> IP_version ip = CIDR.version c ->
  CIDR.contains c (CIDR.Instance ip)
  = Ok ((network_int (CIDR.version c) (IP_toBigInt (CIDR.address c)) (CIDR.prefix c)
           <=? IP_toBigInt ip)
        && (IP_toBigInt ip
           <=? broadcast_int (CIDR.version c) (IP_toBigInt (CIDR.address c)) (CIDR.prefix c))).
Proof.
  intros Hwf Hv. unfold CIDR.contains. cbn [bind]. rewrite Hv, version_eqb_refl.
  cbn [negb]. rewrite CIDR_network_eq, CIDR_broadcast_eq by exact Hwf. cbn [bind].
  rewrite !IP_toBigInt_mkIP. reflexivity.
Qed.

(** An address instance of the other version is never contained. *)
Lemma CIDR_contains_other_version c ip :
  IP_version ip <> CIDR.version c -> CIDR.contains c (CIDR.Instance ip) = Ok false.
Proof.
  intros Hv. unfold CIDR.contains. cbn [bind].
  destruct (IP_version ip), (CIDR.version c); try congruence; reflexivity.
Qed.

(** * The claims of the specification *)

(** ** C1: construction from an integer *)

(** C1, as stated, fails: [fromBigInt] does not reject an integer outside
    the range of its version.  [2^32] (IPv4) and [2^128] (IPv6) are accepted
    and yield the zero address. *)
Lemma C1_counterexample :
  ~ (0 <= 2 ^ 32 <= 2 ^ 32 - 1)
  /\ IPv4.fromBigInt (2 ^ 32) = Ok (IPv4.mk 0)
  /\ ~ (0 <= 2 ^ 128 <= 2 ^ 128 - 1)
  /\ IPv6.fromBigInt (2 ^ 128) = Ok (IPv6.mk 0).
Proof.
  split; [lia |]. split; [rewrite IPv4_fromBigInt_mod; reflexivity |].
  split; [lia |]. rewrite IPv6_fromBigInt_mod. reflexivity.
Qed.

(** C1, amended: for every integer [n], in range or not, [fromBigInt] never
    fails and yields the address holding [n] modulo [2^32] (IPv4) or [2^128]
    (IPv6); and every instance the constructors build stores an integer
    inside the range of its version. *)
Theorem C1_fromBigInt_wraps_instances_in_range
  (n : Z) (s4 s6 : str) (a4 : IPv4.t) (a6 : IPv6.t) :
  IPv4.fromBigInt n = Ok (IPv4.mk (n mod 2 ^ 32))
  /\ IPv6.fromBigInt n = Ok (IPv6.mk (n mod 2 ^ 128))
  /\ (IPv4.new s4 = Ok a4 -> 0 <= IPv4.toBigInt a4 <= 2 ^ 32 - 1)
  /\ (IPv6.new s6 = Ok a6 -> 0 <= IPv6.toBigInt a6 <= 2 ^ 128 - 1).
Proof.
  split; [apply IPv4_fromBigInt_mod |]. split; [apply IPv6_fromBigInt_mod |].
  split; intros H.
  - apply IPv4_new_range in H. unfold IPv4.toBigInt. lia.
  - apply IPv6_new_range in H. unfold IPv6.toBigInt. lia.
Qed.

Lemma C1_fromBigInt_wraps_instances_in_range_witness :
  IPv4.fromBigInt (2 ^ 32 + 5) = Ok (IPv4.mk ((2 ^ 32 + 5) mod 2 ^ 32))
  /\ IPv6.fromBigInt (2 ^ 32 + 5) = Ok (IPv6.mk ((2 ^ 32 + 5) mod 2 ^ 128))
  /\ 0 <= IPv4.toBigInt (IPv4.mk 16909060) <= 2 ^ 32 - 1
  /\ 0 <= IPv6.toBigInt (IPv6.mk 1) <= 2 ^ 128 - 1.
Proof.
  destruct (C1_fromBigInt_wraps_instances_in_range
              (2 ^ 32 + 5) (L "1.2.3.4") (L "::1") (IPv4.mk 16909060) (IPv6.mk 1))
    as (H1 & H2 & H3 & H4).
  split; [exact H1 |]. split; [exact H2 |].
  split; [apply H3; vm_compute; reflexivity | apply H4; vm_compute; reflexivity].
Defined.

(** ** Integer round trip with the version given *)

(** Parsing a rendering with its own version gives the integer back; for
    IPv4 also with the version detected. *)
Lemma integer_round_trip_explicit (n : Z) (compress : bool) :
  (0 <= n < 2 ^ 32 ->
     ipToBigInt (bigIntToIp n V4 compress) (Some V4) = Ok n
     /\ ipToBigInt (bigIntToIp n V4 compress) None = Ok n)
  /\ (0 <= n < 2 ^ 128 ->
     ipToBigInt (bigIntToIp n V6 compress) (Some V6) = Ok n).
Proof.
  split; intros H.
  - assert (E : ipv4ToBigInt (ipv4_text n) = Ok n)
      by (rewrite ipv4ToBigInt_text, Z.mod_small by lia; reflexivity).
    split; [exact E |].
    unfold ipToBigInt, fastIpVersion, bigIntToIp.
    assert (Hd : includes "." (ipv4_text n) = true).
    { apply includes_iff. apply (needs_sound "."%char IPV4_ADDRESS_PATTERN).
      - vm_compute. reflexivity.
      - apply ipv4_text_valid. }
    rewrite Hd. exact E.
  - unfold ipToBigInt. cbn [bind]. rewrite ipv6ToBigInt_text, Z.mod_small by lia. reflexivity.
Qed.

(** ** C10: the expanded form of a mapped address *)

(** C10: for every IPv6 address in the IPv4-mapped range, [expandedAddress]
    is [::ffff:] followed by the dotted form of the low 32 bits, the same
    text as [address]: the compress flag has no effect there. *)
Theorem C10_expanded_mapped (a : IPv6.t) :
  IPv6.isIPv4Mapped a = true ->
  IPv6.expandedAddress a
    = L "::ffff:" ++ bigIntToIp (Z.land (IPv6.toBigInt a) 0xffffffff) V4 true
  /\ IPv6.expandedAddress a = IPv6.address a.
Proof.
  unfold IPv6.isIPv4Mapped, IPv6.expandedAddress, IPv6.address, IPv6.toBigInt, bigIntToIp.
  intros H. rewrite H. split; reflexivity.
Qed.

Lemma C10_expanded_mapped_witness :
  IPv6.expandedAddress (IPv6.mk 281473913979137) = L "::ffff:192.168.1.1"
  /\ IPv6.expandedAddress (IPv6.mk 281473913979137) = IPv6.address (IPv6.mk 281473913979137).
Proof.
  destruct (C10_expanded_mapped (IPv6.mk 281473913979137)) as [H1 H2];
    [vm_compute; reflexivity |].
  split; [rewrite H1; vm_compute; reflexivity | exact H2].
Defined.

(** ** C9: the derived range of a CIDR block *)

Lemma CIDR_first_eq c :
  cidr_wf c ->
  let v := CIDR.version c in
  let a := IP_toBigInt (CIDR.address c) in
  let p := CIDR.prefix c in
  CIDR.first c
  = Ok (mkIP v (match v with
                | V4 => if 31 <=? p then network_int v a p else network_int v a p + 1
                | V6 => network_int v a p
                end)).
Proof.
  intros Hwf v a p. unfold CIDR.first. fold v. fold p.
  pose proof (CIDR_network_eq c Hwf) as En. fold v a p in En.
  destruct Hwf as [Hp Ha]. fold v p in Hp. fold v a in Ha.
  pose proof (cidr_range v a p Hp Ha) as Hr.
  pose proof (broadcast_int_eq v a p Hp Ha) as Hb.
  destruct v eqn:Ev; [| exact En].
  destruct (31 <=? p) eqn:E31; [exact En |].
  rewrite En. cbn [bind]. rewrite IP_next_mkIP. f_equal. f_equal.
  apply Z.leb_gt in E31. cbn [BITS] in *.
  assert (2 ^ 2 <= 2 ^ (32 - p)) by (apply Z.pow_le_mono_r; lia).
  apply Z.mod_small. change (2 ^ 2) with 4 in *. lia.
Qed.

Lemma CIDR_last_eq c :
  cidr_wf c ->
  let v := CIDR.version c in
  let a := IP_toBigInt (CIDR.address c) in
  let p := CIDR.prefix c in
  CIDR.last c
  = Ok (mkIP v (match v with
                | V4 => if 31 <=? p then broadcast_int v a p else broadcast_int v a p - 1
                | V6 => broadcast_int v a p
                end)).
Proof.
  intros Hwf v a p. unfold CIDR.last. fold v. fold p.
  pose proof (CIDR_broadcast_eq c Hwf) as En. fold v a p in En.
  destruct Hwf as [Hp Ha]. fold v p in Hp. fold v a in Ha.
  pose proof (cidr_range v a p Hp Ha) as Hr.
  pose proof (broadcast_int_eq v a p Hp Ha) as Hb.
  destruct v eqn:Ev; [| exact En].
  destruct (31 <=? p) eqn:E31; [exact En |].
  rewrite En. cbn [bind]. rewrite IP_previous_mkIP. f_equal. f_equal.
  apply Z.leb_gt in E31. cbn [BITS] in *.
  assert (2 ^ 2 <= 2 ^ (32 - p)) by (apply Z.pow_le_mono_r; lia).
  apply Z.mod_small. change (2 ^ 2) with 4 in *. lia.
Qed.

(** C9: for every validly constructed CIDR block the derived range is
    consistent: [network], [broadcast], [first] and [last] are all defined,
    [network <= last], [first <= last], the block contains its own network
    and broadcast addresses; for IPv4 prefixes 31 and 32, and for IPv6 at
    every prefix, [first] is [network] and [last] is [broadcast]. *)
Theorem C9_cidr_range_consistent (s : str) (c : CIDR.t) :
  CIDR.new s = Ok c ->
  exists net bc f l,
    CIDR.network c = Ok net /\ CIDR.broadcast c = Ok bc
    /\ CIDR.first c = Ok f /\ CIDR.last c = Ok l
    /\ IP_toBigInt net <= IP_toBigInt l
    /\ IP_toBigInt f <= IP_toBigInt l
    /\ CIDR.contains c (CIDR.Instance net) = Ok true
    /\ CIDR.contains c (CIDR.Instance bc) = Ok true
    /\ (CIDR.version c = V4 -> 31 <= CIDR.prefix c -> f = net /\ l = bc)
    /\ (CIDR.version c = V6 -> f = net /\ l = bc).
Proof.
  intros Hnew. pose proof (CIDR_new_wf s c Hnew) as Hwf.
  pose proof (CIDR_network_eq c Hwf) as En. pose proof (CIDR_broadcast_eq c Hwf) as Eb.
  pose proof (CIDR_first_eq c Hwf) as Ef. pose proof (CIDR_last_eq c Hwf) as El.
  cbv zeta in Ef, El.
  set (v := CIDR.version c) in *. set (a := IP_toBigInt (CIDR.address c)) in *.
  set (p := CIDR.prefix c) in *.
  destruct Hwf as [Hp Ha]. fold v p in Hp. fold v a in Ha.
  pose proof (cidr_range v a p Hp Ha) as Hr.
  pose proof (broadcast_int_eq v a p Hp Ha) as Hb.
  assert (Hpow : v = V4 -> p < 31 -> 4 <= 2 ^ (BITS v - p)).
  { intros Ev Hlt. rewrite Ev in *. cbn [BITS] in *. change 4 with (2 ^ 2).
    apply Z.pow_le_mono_r; lia. }
  assert (Hnl : network_int v a p
                <= match v with
                   | V4 => if 31 <=? p then broadcast_int v a p else broadcast_int v a p - 1
                   | V6 => broadcast_int v a p
                   end).
  { destruct v; [| lia]. destruct (31 <=? p) eqn:E; [lia |].
    apply Z.leb_gt in E. specialize (Hpow eq_refl E). lia. }
  assert (Hfl : match v with
                | V4 => if 31 <=? p then network_int v a p else network_int v a p + 1
                | V6 => network_int v a p
                end
                <= match v with
                   | V4 => if 31 <=? p then broadcast_int v a p else broadcast_int v a p - 1
                   | V6 => broadcast_int v a p
                   end).
  { destruct v; [| lia]. destruct (31 <=? p) eqn:E; [lia |].
    apply Z.leb_gt in E. specialize (Hpow eq_refl E). lia. }
  do 4 eexists.
  split; [exact En |]. split; [exact Eb |]. split; [exact Ef |]. split; [exact El |].
  rewrite !IP_toBigInt_mkIP.
  split; [exact Hnl |]. split; [exact Hfl |].
  split.
  { rewrite CIDR_contains_instance by (try apply IP_version_mkIP; split; assumption).
    rewrite IP_toBigInt_mkIP. fold v a p. f_equal.
    apply andb_true_intro. split; apply Z.leb_le; lia. }
  split.
  { rewrite CIDR_contains_instance by (try apply IP_version_mkIP; split; assumption).
    rewrite IP_toBigInt_mkIP. fold v a p. f_equal.
    apply andb_true_intro. split; apply Z.leb_le; lia. }
  split.
  - intros Ev H31. rewrite Ev.
    replace (31 <=? p) with true by (symmetry; apply Z.leb_le; exact H31).
    rewrite <- Ev. split; reflexivity.
  - intros Ev. rewrite Ev. split; reflexivity.
Qed.

Lemma C9_cidr_range_consistent_witness :
  exists net bc f l,
    CIDR.network (CIDR.mk (IP4 (IPv4.mk 167772160)) 24) = Ok net
    /\ CIDR.broadcast (CIDR.mk (IP4 (IPv4.mk 167772160)) 24) = Ok bc
    /\ CIDR.first (CIDR.mk (IP4 (IPv4.mk 167772160)) 24) = Ok f
    /\ CIDR.last (CIDR.mk (IP4 (IPv4.mk 167772160)) 24) = Ok l
    /\ IP_toBigInt net <= IP_toBigInt l
    /\ IP_toBigInt f <= IP_toBigInt l.
Proof.
  destruct (C9_cidr_range_consistent (L "10.0.0.0/24") (CIDR.mk (IP4 (IPv4.mk 167772160)) 24))
    as (net & bc & f & l & H1 & H2 & H3 & H4 & H5 & H6 & _);
    [vm_compute; reflexivity |].
  exists net, bc, f, l. repeat split; assumption.
Defined.

(** ** C5: containment across versions *)

Lemma valid_versions_disjoint s : IPv4.isValid s = true -> IPv6.isValid s = true -> False.
Proof.
  unfold IPv4.isValid, IPv6.isValid. intros H4 H6.
  destruct (includes "/" s); [discriminate |].
  apply test_iff in H4, H6.
  apply (avoids_sound ":"%char) in H4; [| vm_compute; reflexivity].
  apply (needs_sound ":"%char) in H6; [| vm_compute; reflexivity].
  contradiction.
Qed.

(** C5, as stated, fails for a literal: it is parsed as the block's own
    version, and [contains] throws. *)
Lemma C5_counterexample :
  CIDR.new (L "192.168.1.0/24") = Ok (CIDR.mk (IP4 (IPv4.mk 3232235776)) 24)
  /\ IPv6.isValid (L "::1") = true
  /\ CIDR.contains (CIDR.mk (IP4 (IPv4.mk 3232235776)) 24) (CIDR.Literal (L "::1"))
     = Throw InvalidIPAddressError.
Proof. repeat split; vm_compute; reflexivity. Qed.

(** C5, amended: for every CIDR block and every address instance of the
    other version, [contains] returns false without raising; for a literal
    valid for the other version, [contains] parses it as the block's own
    version and raises [InvalidIPAddressError]. *)
Theorem C5_contains_other_version (c : CIDR.t) (ip : IP) (s : str) :
  (IP_version ip <> CIDR.version c -> CIDR.contains c (CIDR.Instance ip) = Ok false)
  /\ (isValid_for (other_version (CIDR.version c)) s = true ->
      CIDR.contains c (CIDR.Literal s) = Throw InvalidIPAddressError).
Proof.
  split; [apply CIDR_contains_other_version |].
  intros Hv. unfold CIDR.contains.
  destruct (CIDR.version c); cbn [other_version isValid_for] in Hv.
  - unfold IPv4.new.
    destruct (IPv4.isValid s) eqn:E4; [exfalso; eapply valid_versions_disjoint; eauto |].
    reflexivity.
  - unfold IPv6.new.
    destruct (IPv6.isValid s) eqn:E6; [exfalso; eapply valid_versions_disjoint; eauto |].
    reflexivity.
Qed.

Lemma C5_contains_other_version_witness :
  CIDR.contains (CIDR.mk (IP4 (IPv4.mk 3232235776)) 24) (CIDR.Instance (IP6 (IPv6.mk 1)))
    = Ok false
  /\ CIDR.contains (CIDR.mk (IP4 (IPv4.mk 3232235776)) 24) (CIDR.Literal (L "::1"))
    = Throw InvalidIPAddressError.
Proof.
  destruct (C5_contains_other_version
              (CIDR.mk (IP4 (IPv4.mk 3232235776)) 24) (IP6 (IPv6.mk 1)) (L "::1"))
    as [H1 H2].
  split; [apply H1; simpl; discriminate | apply H2; vm_compute; reflexivity].
Defined.

(** ** When the compressed form contains [::] *)

Lemma hdc_cons2 c d s :
  has_double_colon (c :: d :: s)
  = (Ascii.eqb c ":" && Ascii.eqb d ":") || has_double_colon (d :: s).
Proof. reflexivity. Qed.

Lemma hdc_free p w : ~ In ":"%char p -> has_double_colon (p ++ w) = has_double_colon w.
Proof.
  induction p as [| c p IH]; intros H; [reflexivity |].
  assert (Hc : Ascii.eqb c ":" = false).
  { apply Ascii.eqb_neq. intros ->. apply H. left. reflexivity. }
  assert (Hp : ~ In ":"%char p) by (intros Hin; apply H; right; exact Hin).
  specialize (IH Hp). cbn [app]. cbn [has_double_colon]. rewrite Hc. cbn [andb orb].
  destruct (p ++ w) eqn:E; [| exact IH].
  destruct w; [reflexivity | destruct p; discriminate].
Qed.

Lemma hdc_compressed u v : has_double_colon (u ++ L "::" ++ v) = true.
Proof.
  induction u as [| c u IH]; [reflexivity |].
  cbn [app]. cbn [has_double_colon]. destruct (u ++ L "::" ++ v) eqn:E.
  - destruct u; discriminate.
  - rewrite IH. apply orb_true_r.
Qed.

Lemma hdc_plain parts :
  Forall colon_free parts -> has_double_colon (join (L ":") parts) = false.
Proof.
  induction 1 as [| a A Ha HA IH]; [reflexivity |].
  destruct A as [| a' A'].
  - simpl join. rewrite <- (app_nil_r a). rewrite hdc_free by apply Ha. reflexivity.
  - rewrite join_cons2. rewrite hdc_free by apply Ha.
    inversion HA as [| ? ? Ha' HA']; subst.
    pose proof (join_no_lead (a' :: A') HA) as Hl.
    change (L ":" ++ join (L ":") (a' :: A')) with (":"%char :: join (L ":") (a' :: A')).
    destruct (join (L ":") (a' :: A')) as [| d r] eqn:E; [reflexivity |].
    simpl in Hl. rewrite hdc_cons2.
    replace (Ascii.eqb d ":") with false by (symmetry; apply Ascii.eqb_neq; exact Hl).
    rewrite andb_false_r. exact IH.
Qed.

Lemma zero_text_iff g : 0 <= g <= 65535 -> str_eqb (toString 16 g) (L "0") = (g =? 0).
Proof.
  intros H. destruct (toString16_group g H) as (_ & _ & _ & Hz).
  destruct (g =? 0) eqn:E.
  - apply Z.eqb_eq in E. apply str_eqb_eq. apply Hz. exact E.
  - apply Z.eqb_neq in E. apply str_eqb_neq. intros Hs. apply E. apply Hz. exact Hs.
Qed.

Lemma zero_groups_flags gs :
  Forall (fun g => 0 <= g <= 65535) gs ->
  existsb (fun p => str_eqb p (L "0")) (map (toString 16) gs) = existsb (fun g => g =? 0) gs.
Proof.
  induction 1 as [| g gs Hg HF IH]; [reflexivity |].
  cbn [map existsb]. rewrite IH. f_equal. apply zero_text_iff. exact Hg.
Qed.

(** Outside the mapped shortcut the compressed rendering contains [::]
    exactly when one of the eight groups is zero. *)
Lemma double_colon_iff_zero_group (n : Z) :
  Z.shiftr n 32 <> 0xffff ->
  has_double_colon (bigIntToIp n V6 true) = existsb (fun g => g =? 0) (groups_of n).
Proof.
  intros Hm. unfold bigIntToIp.
  replace (Z.shiftr n 32 =? 0xffff) with false by (symmetry; apply Z.eqb_neq; exact Hm).
  fold (groups_of n).
  destruct (group_texts (groups_of n) (groups_of_range n)) as [HF _].
  rewrite <- zero_groups_flags by apply groups_of_range.
  destruct (compress_shape (map (toString 16) (groups_of n)))
    as [[Hnz Ec] | (A & B & len & E & H1 & H2 & HA & HB & Ec)];
    [rewrite length_map; apply groups_of_length | exact HF | |]; rewrite Ec.
  - rewrite hdc_plain by (apply seg_texts_colon_free; exact HF).
    symmetry. apply not_true_is_false. intros Hex. apply existsb_exists in Hex.
    destruct Hex as (p & Hin & Hp). apply str_eqb_eq in Hp.
    rewrite Forall_forall in Hnz. exact (Hnz p Hin Hp).
  - rewrite hdc_compressed. symmetry. apply existsb_exists.
    exists (L "0"). split; [| reflexivity].
    rewrite E. apply in_or_app. right. apply in_or_app. left.
    destruct len; [lia | left; reflexivity].
Qed.

(** ** C4: CIDR construction *)

(** C4 is right and the code is wrong.  The repository's tests expect a bare
    address to be accepted with the maximal prefix; the constructor rejects
    it.  The constructor also accepts a prefix followed by other text. *)
Theorem C4_bare_address_rejected :
  IPv4.isValid (L "192.168.1.1") = true
  /\ CIDR.new (L "192.168.1.1") = Throw InvalidIPAddressError
  /\ IPv6.isValid (L "2001:db8::1") = true
  /\ CIDR.new (L "2001:db8::1") = Throw InvalidIPAddressError
  /\ CIDR.new (L "10.0.0.0/24abc") = Ok (CIDR.mk (IP4 (IPv4.mk 167772160)) 24)
  /\ CIDR.new (L "10.0.0.0/24/foo") = Ok (CIDR.mk (IP4 (IPv4.mk 167772160)) 24).
Proof. repeat split; vm_compute; reflexivity. Qed.

(** ** C6: the reverse-DNS name of an IPv6 address *)

(** C6 is right and the code is wrong in the mapped range: [toArpa] goes
    through [expandedAddress], which there is the dotted mapped form, so the
    name is not made of the 32 nibbles. *)
Theorem C6_toArpa_mapped_diverges :
  IPv6.isIPv4Mapped (IPv6.mk 281473913979137) = true
  /\ IPv6.toArpa (IPv6.mk 281473913979137) = L "1...1...8.6.1...2.9.1.f.f.f.f.ip6.arpa"
  /\ toArpa_spec 281473913979137
     = L "1.0.1.0.8.a.0.c.f.f.f.f.0.0.0.0.0.0.0.0.0.0.0.0.0.0.0.0.0.0.0.0.ip6.arpa"
  /\ IPv6.toArpa (IPv6.mk 281473913979137) <> toArpa_spec 281473913979137.
Proof. repeat split; vm_compute; try reflexivity; discriminate. Qed.

(** ** Zone suffixes *)

Lemma zone_extend_cons c s :
  zone_extend (c :: s)
  = match (if is_line_terminator c then None else option_map (cons c) (zone_extend s)) with
    | Some g => Some g
    | None =>
        if Ascii.eqb c "%" then
          match s with
          | d :: _ => if is_line_terminator d then None else Some []
          | [] => None
          end
        else None
    end.
Proof. reflexivity. Qed.

Lemma zone_extend_no_percent z : ~ In "%"%char z -> zone_extend z = None.
Proof.
  induction z as [| c z IH]; intros H; [reflexivity |].
  rewrite zone_extend_cons. rewrite IH by (intros Hin; apply H; right; exact Hin).
  assert (Hc : Ascii.eqb c "%" = false).
  { apply Ascii.eqb_neq. intros ->. apply H. left. reflexivity. }
  rewrite Hc. destruct (is_line_terminator c); reflexivity.
Qed.



Lemma IPv6_valid_text s :
  IPv6.isValid s = true ->
  s <> [] /\ ~ In "%"%char s
  /\ forallb (fun c => negb (is_line_terminator c)) s = true.
Proof.
  unfold IPv6.isValid. intros H. destruct (includes "/" s); [discriminate |].
  apply test_iff in H. split; [| split].
  - apply lang_length in H. destruct s; [| discriminate].
    exfalso. revert H. vm_compute. lia.
  - apply (avoids_sound "%"%char IPV6_VALIDATION_REGEX); [vm_compute; reflexivity | exact H].
  - apply (only_sound (fun c => negb (is_line_terminator c)) IPV6_VALIDATION_REGEX);
      [vm_compute; reflexivity | exact H].
Qed.

(** ** IPv6: what validation accepts *)

Lemma hex_class_is_hex c :
  (range "0" "9" c || range "A" "F" c || range "a" "f" c) = is_hex c.
Proof.
  assert (E : forallb (fun c => Bool.eqb (range "0" "9" c || range "A" "F" c || range "a" "f" c)
                                         (is_hex c)) all_ascii = true)
    by (vm_compute; reflexivity).
  rewrite forallb_forall in E. apply eqb_prop. apply E. apply all_ascii_complete.
Qed.

Lemma lang_cls_concat p ss :
  Forall (lang (Cls p)) ss ->
  length (concat ss) = length ss /\ forallb p (concat ss) = true.
Proof.
  induction 1 as [| x ss Hx HF [IH1 IH2]]; [split; reflexivity |].
  inversion Hx as [| | q c Hc | | |]; subst. simpl. rewrite Hc, IH1, IH2. split; reflexivity.
Qed.

Lemma lang_segment_inv h : lang IPV6_SEGMENT h -> seg_text h.
Proof.
  unfold IPV6_SEGMENT. intros H. apply lang_rep_inv in H.
  destruct H as (ss & HF & Hl & ->). apply lang_cls_concat in HF. destruct HF as [H1 H2].
  split.
  - eapply forallb_impl; [| exact H2]. intros x Hx. rewrite <- hex_class_is_hex. exact Hx.
  - rewrite H1. simpl in Hl. lia.
Qed.

Lemma seg_colons_inv ss :
  Forall (lang seg_colon) ss ->
  exists A, Forall seg_text A /\ length A = length ss
            /\ concat ss = concat (map (fun a => a ++ L ":") A).
Proof.
  induction 1 as [| x ss Hx HF (A & HA & HL & HC)]; [exists []; repeat split; constructor |].
  unfold seg_colon, colon in Hx. inv_lang.
  match goal with H : lang IPV6_SEGMENT ?a |- _ =>
    exists (a :: A); apply lang_segment_inv in H end.
  split; [constructor; assumption |]. split; [simpl; lia |].
  simpl. rewrite HC. reflexivity.
Qed.

Lemma colon_segs_inv ss :
  Forall (lang colon_seg) ss ->
  exists B, Forall seg_text B /\ length B = length ss
            /\ concat ss = concat (map (fun b => L ":" ++ b) B).
Proof.
  induction 1 as [| x ss Hx HF (B & HB & HL & HC)]; [exists []; repeat split; constructor |].
  unfold colon_seg, colon in Hx. inv_lang.
  match goal with H : lang IPV6_SEGMENT ?b |- _ =>
    exists (b :: B); apply lang_segment_inv in H end.
  split; [constructor; assumption |]. split; [simpl; lia |].
  simpl. rewrite HC. reflexivity.
Qed.

Lemma rep_seg_colon_inv lo hi s :
  lang (rep lo hi seg_colon) s ->
  exists A, Forall seg_text A /\ (lo <= length A <= lo + (hi - lo))%nat
            /\ s = concat (map (fun a => a ++ L ":") A).
Proof.
  intros H. apply lang_rep_inv in H. destruct H as (ss & HF & Hl & ->).
  destruct (seg_colons_inv ss HF) as (A & HA & HL & HC).
  exists A. rewrite HL. auto.
Qed.

Lemma rep_colon_seg_inv lo hi s :
  lang (rep lo hi colon_seg) s ->
  exists B, Forall seg_text B /\ (lo <= length B <= lo + (hi - lo))%nat
            /\ s = concat (map (fun b => L ":" ++ b) B).
Proof.
  intros H. apply lang_rep_inv in H. destruct H as (ss & HF & Hl & ->).
  destruct (colon_segs_inv ss HF) as (B & HB & HL & HC).
  exists B. rewrite HL. auto.
Qed.

Lemma concat_seg_colon_any A :
  concat (map (fun a => a ++ L ":") A)
  = match A with [] => [] | _ => join (L ":") A ++ L ":" end.
Proof. destruct A; [reflexivity | apply concat_seg_colon; discriminate]. Qed.

Lemma concat_colon_seg_any B :
  concat (map (fun b => L ":" ++ b) B)
  = match B with [] => [] | _ => L ":" ++ join (L ":") B end.
Proof. destruct B; [reflexivity | apply concat_colon_seg; discriminate]. Qed.

Lemma shape_compressed A B :
  Forall seg_text A -> Forall seg_text B -> (length A + length B <= 7)%nat ->
  ipv6_shape (join (L ":") A ++ L "::" ++ join (L ":") B).
Proof. intros HA HB Hl. right. exists A, B. auto. Qed.

Lemma join_snoc A h :
  A <> [] -> join (L ":") (A ++ [h]) = join (L ":") A ++ L ":" ++ h.
Proof. intros H. apply join_app; [exact H | discriminate]. Qed.

(** Every valid text without a dot has one of the two shapes. *)
Lemma valid_shape s :
  lang IPV6_VALIDATION_REGEX s -> ~ In "."%char s -> ipv6_shape s.
Proof.
  unfold IPV6_VALIDATION_REGEX. intros H Hdot.
  apply lang_alts_inv in H. destruct H as (r & Hin & H).
  unfold IPV6_COMBINED in Hin. cbn [In] in Hin.
  destruct Hin as [<- | [<- | [<- | [<- | [<- | [<- | [<- | [<- | [<- | [<- | [<- | [<- | []]]]]]]]]]]]].
  - (* eight groups *)
    unfold IPV6_STANDARD in H. inv_lang.
    match goal with H : lang (rep _ _ seg_colon) _ |- _ =>
      apply rep_seg_colon_inv in H; destruct H as (A & HA & HL & ->) end.
    match goal with Hs : lang IPV6_SEGMENT ?h |- _ =>
      apply lang_segment_inv in Hs; rename h into sg; rename Hs into Hsg end.
    left. exists (A ++ [sg]). rewrite length_app. cbn [length].
    split; [lia |]. split; [apply Forall_app; auto |].
    rewrite concat_seg_colon_any. destruct A; [simpl in HL; lia |].
    rewrite join_snoc by discriminate. rewrite <- app_assoc. reflexivity.
  - unfold IPV6_COMPRESSED_1, colon in H. inv_lang.
    match goal with H : lang (rep _ _ seg_colon) _ |- _ =>
      apply rep_seg_colon_inv in H; destruct H as (A & HA & HL & ->) end.
    rewrite concat_seg_colon_any. destruct A as [| a A']; [simpl in HL; lia |].
    rewrite <- app_assoc.
    change (L ":" ++ [":"%char]) with (L "::" ++ join (L ":") []).
    apply shape_compressed; [exact HA | constructor | simpl in *; lia].
  - unfold IPV6_COMPRESSED_2, colon in H. inv_lang.
    match goal with H : lang (rep _ _ colon_seg) _ |- _ =>
      apply rep_colon_seg_inv in H; destruct H as (B & HB & HL & ->) end.
    rewrite concat_colon_seg_any. destruct B as [| b B']; [simpl in HL; lia |].
    change ([":"%char] ++ L ":" ++ join (L ":") (b :: B'))
      with (join (L ":") [] ++ L "::" ++ join (L ":") (b :: B')).
    apply shape_compressed; [constructor | exact HB | simpl in *; lia].
  - unfold IPV6_COMPRESSED_3, seqs, colon in H. inv_lang.
    match goal with H : lang (rep _ _ seg_colon) _ |- _ =>
      apply rep_seg_colon_inv in H; destruct H as (A & HA & HL & ->) end.
    match goal with Hs : lang IPV6_SEGMENT ?h |- _ =>
      apply lang_segment_inv in Hs; rename h into sg; rename Hs into Hsg end.
    rewrite concat_seg_colon_any. destruct A as [| a A']; [simpl in HL; lia |].
    rewrite <- app_assoc.
    change (L ":" ++ [":"%char] ++ sg) with (L "::" ++ join (L ":") [sg]).
    apply shape_compressed; [exact HA | constructor; [assumption | constructor] | simpl in *; lia].
  - unfold IPV6_COMPRESSED_4 in H. inv_lang.
    match goal with H : lang (rep _ _ seg_colon) _ |- _ =>
      apply rep_seg_colon_inv in H; destruct H as (A & HA & HL & ->) end.
    match goal with H : lang (rep _ _ colon_seg) _ |- _ =>
      apply rep_colon_seg_inv in H; destruct H as (B & HB & HL' & ->) end.
    rewrite concat_seg_colon_any, concat_colon_seg_any.
    destruct A as [| a A']; [simpl in HL; lia |]. destruct B as [| b B']; [simpl in HL'; lia |].
    rewrite <- app_assoc. apply shape_compressed; [exact HA | exact HB | simpl in *; lia].
  - unfold IPV6_COMPRESSED_5 in H. inv_lang.
    match goal with H : lang (rep _ _ seg_colon) _ |- _ =>
      apply rep_seg_colon_inv in H; destruct H as (A & HA & HL & ->) end.
    match goal with H : lang (rep _ _ colon_seg) _ |- _ =>
      apply rep_colon_seg_inv in H; destruct H as (B & HB & HL' & ->) end.
    rewrite concat_seg_colon_any, concat_colon_seg_any.
    destruct A as [| a A']; [simpl in HL; lia |]. destruct B as [| b B']; [simpl in HL'; lia |].
    rewrite <- app_assoc. apply shape_compressed; [exact HA | exact HB | simpl in *; lia].
  - unfold IPV6_COMPRESSED_6 in H. inv_lang.
    match goal with H : lang (rep _ _ seg_colon) _ |- _ =>
      apply rep_seg_colon_inv in H; destruct H as (A & HA & HL & ->) end.
    match goal with H : lang (rep _ _ colon_seg) _ |- _ =>
      apply rep_colon_seg_inv in H; destruct H as (B & HB & HL' & ->) end.
    rewrite concat_seg_colon_any, concat_colon_seg_any.
    destruct A as [| a A']; [simpl in HL; lia |]. destruct B as [| b B']; [simpl in HL'; lia |].
    rewrite <- app_assoc. apply shape_compressed; [exact HA | exact HB | simpl in *; lia].
  - unfold IPV6_COMPRESSED_7 in H. inv_lang.
    match goal with H : lang (rep _ _ seg_colon) _ |- _ =>
      apply rep_seg_colon_inv in H; destruct H as (A & HA & HL & ->) end.
    match goal with H : lang (rep _ _ colon_seg) _ |- _ =>
      apply rep_colon_seg_inv in H; destruct H as (B & HB & HL' & ->) end.
    rewrite concat_seg_colon_any, concat_colon_seg_any.
    destruct A as [| a A']; [simpl in HL; lia |]. destruct B as [| b B']; [simpl in HL'; lia |].
    rewrite <- app_assoc. apply shape_compressed; [exact HA | exact HB | simpl in *; lia].
  - unfold IPV6_COMPRESSED_8, seqs, colon in H. inv_lang.
    match goal with H : lang (rep _ _ colon_seg) _ |- _ =>
      apply rep_colon_seg_inv in H; destruct H as (B & HB & HL' & ->) end.
    match goal with Hs : lang IPV6_SEGMENT ?h |- _ =>
      apply lang_segment_inv in Hs; rename h into sg; rename Hs into Hsg end.
    rewrite concat_colon_seg_any. destruct B as [| b B']; [simpl in HL'; lia |].
    change (sg ++ [":"%char] ++ L ":" ++ join (L ":") (b :: B'))
      with (join (L ":") [sg] ++ L "::" ++ join (L ":") (b :: B')).
    apply shape_compressed; [constructor; [assumption | constructor] | exact HB | simpl in *; lia].
  - unfold IPV6_COMPRESSED_9, seqs, colon in H. inv_lang.
    match goal with H : lang (rep _ _ seg_colon) _ |- _ =>
      apply rep_seg_colon_inv in H; destruct H as (A & HA & HL & ->) end.
    match goal with Hs : lang IPV6_SEGMENT ?h |- _ =>
      apply lang_segment_inv in Hs; rename h into sg; rename Hs into Hsg end.
    rewrite concat_seg_colon_any.
    destruct A as [| a A'].
    + change ([":"%char] ++ [":"%char] ++ [] ++ sg)
        with (join (L ":") [] ++ L "::" ++ join (L ":") [sg]).
      apply shape_compressed; [constructor | constructor; [assumption | constructor] | simpl; lia].
    + rewrite <- app_assoc. rewrite <- join_snoc by discriminate.
      change ([":"%char] ++ [":"%char] ++ join (L ":") ((a :: A') ++ [sg]))
        with (join (L ":") [] ++ L "::" ++ join (L ":") ((a :: A') ++ [sg])).
      apply shape_compressed; [constructor | apply Forall_app; split; [exact HA | constructor; [assumption | constructor]] |].
      rewrite length_app. simpl in *. lia.
  - unfold IPV6_COMPRESSED_10, colon in H. inv_lang.
    change ([":"%char] ++ [":"%char]) with (join (L ":") [] ++ L "::" ++ join (L ":") []).
    apply shape_compressed; [constructor | constructor | simpl; lia].
  - exfalso. apply Hdot. apply (needs_sound "."%char IPV6_IPV4_MAPPED); [vm_compute; reflexivity | exact H].
Qed.

(** Both shapes are parsed. *)
Lemma shape_parses s :
  ipv6_shape s -> exists n, ipv6ToBigInt s = Ok n /\ 0 <= n < 2 ^ 128.
Proof.
  intros [(parts & Hl & HF & ->) | (A & B & HA & HB & Hl & ->)].
  - eexists. split; [apply plain_parses; assumption |].
    eapply ipv6ToBigInt_range. apply plain_parses; assumption.
  - assert (E : ipv6ToBigInt (join (L ":") A ++ L "::" ++ join (L ":") B)
                = Ok (sum_groups (rev (map part_val
                        (A ++ repeat [] (8 - length A - length B) ++ B))))).
    { apply ipv6ToBigInt_parts.
      - apply addr_char_compressed; assumption.
      - apply expand_compressed; try apply seg_texts_colon_free; assumption.
      - rewrite !length_app, repeat_length. lia.
      - apply forallb_hex_part_ok; assumption. }
    eexists. split; [exact E |]. eapply ipv6ToBigInt_range. exact E.
Qed.

(** Validation implies parsing, version 6, for a text without a dot. *)
Lemma IPv6_isValid_parses s :
  IPv6.isValid s = true -> includes "." s = false ->
  exists n, ipv6ToBigInt s = Ok n /\ 0 <= n < 2 ^ 128.
Proof.
  unfold IPv6.isValid. intros H Hd. destruct (includes "/" s); [discriminate |].
  apply test_iff in H. apply includes_false_iff in Hd.
  apply shape_parses. apply valid_shape; assumption.
Qed.

(** ** Validation against the codec *)

(** Validation implies parsing for IPv4 literals and for IPv6 literals
    without a dot. *)
Lemma validation_implies_parsing (s4 s6 : str) :
  (IPv4.isValid s4 = true -> succeeds (ipv4ToBigInt s4) = true)
  /\ (IPv6.isValid s6 = true -> includes "." s6 = false ->
      succeeds (ipv6ToBigInt s6) = true).
Proof.
  split.
  - intros H. destruct (IPv4_isValid_parses s4 H) as (n & E & _). rewrite E. reflexivity.
  - intros H Hd. destruct (IPv6_isValid_parses s6 H Hd) as (n & E & _). rewrite E. reflexivity.
Qed.

(** ** Further checks against the repository's tests *)

Example test_ipv4_classes :
  IPv4.isPrivate (IPv4.mk 167772161) = true
  /\ IPv4.isPrivate (IPv4.mk 134744072) = false
  /\ IPv4.isLoopback (IPv4.mk 2147483646) = true
  /\ IPv4.isLinkLocal (IPv4.mk 2851995649) = true
  /\ IPv4.isMulticast (IPv4.mk 4026531840) = false
  /\ IPv4.isReserved (IPv4.mk 3221225985) = true
  /\ IPv4.isReserved (IPv4.mk 134744072) = false
  /\ IPv4.isGlobalUnicast (IPv4.mk 134744072) = true
  /\ IPv4.isGlobalUnicast (IPv4.mk 0) = false
  /\ IPv4.isGlobalUnicast (IPv4.mk 0xffffffff) = false.
Proof. repeat split; vm_compute; reflexivity. Qed.

Example test_ipv4_operations :
  IPv4.equals (IPv4.mk 3232235777) (IPv4.Lit (L "192.168.1.1")) = Ok true
  /\ IPv4.compare (IPv4.mk 167772161) (IPv4.Inst (IPv4.mk 167772162)) = Ok (-1)
  /\ IPv4.and (IPv4.mk 0xffff0000) (IPv4.Inst (IPv4.mk 3232235777)) = Ok (IPv4.mk 3232235520)
  /\ IPv4.or (IPv4.mk 167772161) (IPv4.Lit (L "0.0.255.0")) = Ok (IPv4.mk 167837441)
  /\ IPv4.not (IPv4.mk 0xffff0000) = Ok (IPv4.mk 0xffff)
  /\ IPv4.next (IPv4.mk 0xffffffff) 1 = Ok (IPv4.mk 0)
  /\ IPv4.previous (IPv4.mk 0) 1 = Ok (IPv4.mk 0xffffffff)
  /\ IPv4.toBytes (IPv4.mk 3232235777) = [192; 168; 1; 1]
  /\ IPv4.fromBytes [192; 168; 1; 1] = Ok (IPv4.mk 3232235777)
  /\ IPv4.toArpa (IPv4.mk 3232235777) = L "1.1.168.192.in-addr.arpa".
Proof. repeat split; vm_compute; reflexivity. Qed.

Example test_ipv6_classes :
  IPv6.isLinkLocal (IPv6.mk 0xfe800000000000000000000000000001) = true
  /\ IPv6.isLinkLocal (IPv6.mk 0xfec00000000000000000000000000001) = false
  /\ IPv6.isUniqueLocal (IPv6.mk 0xfdffffffffffffffffffffffffffffff) = true
  /\ IPv6.isUniqueLocal (IPv6.mk 0xfe000000000000000000000000000000) = false
  /\ IPv6.isReserved (IPv6.mk 0x20010db8000000000000000000000001) = true
  /\ IPv6.isReserved (IPv6.mk 0x2620004f800000000000000000000000) = false
  /\ IPv6.isGlobalUnicast (IPv6.mk 0x20014860486000000000000000008888) = true
  /\ IPv6.isGlobalUnicast (IPv6.mk 1) = false
  /\ IPv6.toIPv4 (IPv6.mk 281473913979137) = Ok (Some (IPv4.mk 3232235777))
  /\ IPv6.toIPv4 (IPv6.mk 0x20010db8000000000000000000000001) = Ok None
  /\ IPv6.toBytes (IPv6.mk 281473913979137)
     = [0; 0; 0; 0; 0; 0; 0; 0; 0; 0; 255; 255; 192; 168; 1; 1]
  /\ IPv6.fromBytes [0; 0; 0; 1] = Throw InvalidIPAddressError
  /\ IPv6.not (IPv6.mk 0xffffffffffffffff0000000000000000) = Ok (IPv6.mk 0xffffffffffffffff).
Proof. repeat split; vm_compute; reflexivity. Qed.

Example test_index :
  isValidIP (JSString (L "1.2.3.4")) = true
  /\ isValidIP (JSString (L "::ffff:192.168.1.1")) = true
  /\ isValidIP (JSString (L "1.2.3.4/24")) = false
  /\ isValidIP (JSString (L "2001:db8::1/64")) = false
  /\ isValidIP JSOther = false
  /\ isValidIP (JSString (L "")) = false
  /\ parseIP (L "not.an.ip") = Throw InvalidIPAddressError
  /\ CIDR.toString (CIDR.mk (IP4 (IPv4.mk 3232235876)) 24) = L "192.168.1.100/24".
Proof. repeat split; vm_compute; reflexivity. Qed.

(** * Further properties of the code *)

(** ** The codec: results and errors *)

(** X1: [ipv4ToBigInt] either returns a 32-bit integer or throws
    [InvalidIPAddressError]; nothing else comes out of it. *)
Theorem ipv4ToBigInt_total (s : str) :
  (exists n, ipv4ToBigInt s = Ok n /\ 0 <= n <= 2 ^ 32 - 1)
  \/ ipv4ToBigInt s = Throw InvalidIPAddressError.
Proof.
  destruct (ipv4ToBigInt s) as [n | e] eqn:E.
  - left. exists n. split; [reflexivity |]. apply ipv4ToBigInt_range in E. lia.
  - right. apply ipv4ToBigInt_error in E. subst. reflexivity.
Qed.

Lemma expand_length parts index :
  indexOf_empty parts = Some index ->
  (index < length parts)%nat.
Proof.
  revert index. induction parts as [| p rest IH]; intros index H; [discriminate |].
  simpl in H. destruct (is_empty p).
  - injection H as <-. simpl. lia.
  - destruct (indexOf_empty rest) as [i |]; [| discriminate].
    injection H as <-. simpl. specialize (IH i eq_refl). lia.
Qed.

(** X2: [expandIPv6Shorthand] leaves parts without an empty piece alone;
    given an empty piece and at most nine parts it returns exactly eight
    parts; given an empty piece and more than nine parts it throws a
    [RangeError] (from [Array] of a negative length). *)
Theorem expandIPv6Shorthand_cases (parts : list str) :
  (indexOf_empty parts = None -> expandIPv6Shorthand parts = Ok parts)
  /\ (indexOf_empty parts <> None -> (length parts <= 9)%nat ->
      exists r, expandIPv6Shorthand parts = Ok r /\ length r = 8%nat)
  /\ (indexOf_empty parts <> None -> (9 < length parts)%nat ->
      expandIPv6Shorthand parts = Throw RangeError).
Proof.
  unfold expandIPv6Shorthand. destruct (indexOf_empty parts) as [index |] eqn:E.
  - pose proof (expand_length parts index E) as Hi.
    split; [discriminate |]. split; intros _ Hl.
    + replace (8 - Z.of_nat (length parts) + 1 <? 0) with false
        by (symmetry; apply Z.ltb_ge; lia).
      eexists. split; [reflexivity |].
      rewrite !length_app, repeat_length, length_firstn, length_skipn. lia.
    + replace (8 - Z.of_nat (length parts) + 1 <? 0) with true
        by (symmetry; apply Z.ltb_lt; lia).
      reflexivity.
  - split; [reflexivity |]. split; intros H; congruence.
Qed.

Lemma expandIPv6Shorthand_cases_witness :
  expandIPv6Shorthand [L "1"; L "2"] = Ok [L "1"; L "2"]
  /\ (exists r, expandIPv6Shorthand [L "1"; []; L "2"] = Ok r /\ length r = 8%nat)
  /\ expandIPv6Shorthand
       [L "1"; L "2"; L "3"; L "4"; L "5"; L "6"; L "7"; L "8"; []; []]
     = Throw RangeError.
Proof.
  split; [apply (expandIPv6Shorthand_cases [L "1"; L "2"]); reflexivity |].
  split.
  - apply (expandIPv6Shorthand_cases [L "1"; []; L "2"]); [discriminate | simpl; lia].
  - apply (expandIPv6Shorthand_cases
             [L "1"; L "2"; L "3"; L "4"; L "5"; L "6"; L "7"; L "8"; []; []]);
      [discriminate | simpl; lia].
Defined.

(** X3: whatever [ipv6ToBigInt] returns is a 128-bit integer. *)
Theorem ipv6ToBigInt_in_range (s : str) (n : Z) :
  ipv6ToBigInt s = Ok n -> 0 <= n <= 2 ^ 128 - 1.
Proof. intros H. apply ipv6ToBigInt_range in H. lia. Qed.

Lemma ipv6ToBigInt_in_range_witness : 0 <= 1 <= 2 ^ 128 - 1.
Proof. apply (ipv6ToBigInt_in_range (L "::1") 1). vm_compute. reflexivity. Defined.

Lemma zone_at_cons c s :
  zone_at (c :: s)
  = if is_line_terminator c then None else option_map (cons c) (zone_extend s).
Proof. reflexivity. Qed.

Lemma zone_exec_cons c s :
  zone_exec (c :: s)
  = match zone_at (c :: s) with Some g => Some g | None => zone_exec s end.
Proof. reflexivity. Qed.

Lemma zone_exec_no_percent s : ~ In "%"%char s -> zone_exec s = None.
Proof.
  induction s as [| c s IH]; intros H; [reflexivity |].
  assert (Hs : ~ In "%"%char s) by (intros Hin; apply H; right; exact Hin).
  rewrite zone_exec_cons, zone_at_cons, (zone_extend_no_percent s Hs), (IH Hs).
  destruct (is_line_terminator c); reflexivity.
Qed.

Lemma zone_extend_trailing s : ~ In "%"%char s -> zone_extend (s ++ L "%") = None.
Proof.
  induction s as [| c s IH]; intros H; [reflexivity |].
  assert (Hs : ~ In "%"%char s) by (intros Hin; apply H; right; exact Hin).
  assert (Hc : Ascii.eqb c "%" = false).
  { apply Ascii.eqb_neq. intros ->. apply H. left. reflexivity. }
  cbn [app]. rewrite zone_extend_cons, (IH Hs), Hc.
  destruct (is_line_terminator c); reflexivity.
Qed.

Lemma zone_exec_trailing s : ~ In "%"%char s -> zone_exec (s ++ L "%") = None.
Proof.
  induction s as [| c s IH]; intros H; [reflexivity |].
  assert (Hs : ~ In "%"%char s) by (intros Hin; apply H; right; exact Hin).
  cbn [app]. rewrite zone_exec_cons, zone_at_cons, (zone_extend_trailing s Hs), (IH Hs).
  destruct (is_line_terminator c); reflexivity.
Qed.

(** X4: a literal with nothing before its [%], or nothing after it, makes
    [ipv6ToBigInt] throw a [TypeError] (the zone pattern does not match and
    its result is dereferenced), not [InvalidIPAddressError]. *)
Theorem ipv6ToBigInt_empty_zone_TypeError (s : str) :
  ~ In "%"%char s ->
  ipv6ToBigInt (s ++ L "%") = Throw TypeError
  /\ ipv6ToBigInt (L "%" ++ s) = Throw TypeError.
Proof.
  intros H. unfold ipv6ToBigInt. split.
  - replace (includes "%" (s ++ L "%")) with true
      by (symmetry; apply includes_iff; apply in_or_app; right; left; reflexivity).
    rewrite zone_exec_trailing by exact H. reflexivity.
  - change (L "%" ++ s) with ("%"%char :: s). cbn [includes existsb].
    rewrite Ascii.eqb_refl. cbn [orb].
    rewrite zone_exec_cons, zone_at_cons, (zone_extend_no_percent s H),
      (zone_exec_no_percent s H). reflexivity.
Qed.

Lemma ipv6ToBigInt_empty_zone_TypeError_witness :
  ipv6ToBigInt (L "fe80::1" ++ L "%") = Throw TypeError
  /\ ipv6ToBigInt (L "%" ++ L "fe80::1") = Throw TypeError.
Proof.
  apply (ipv6ToBigInt_empty_zone_TypeError (L "fe80::1")).
  vm_compute. intuition discriminate.
Defined.

(** ** Rendering and re-parsing *)

Lemma ipv4ToBigInt_chars t n :
  ipv4ToBigInt t = Ok n -> forallb (fun c => is_digit c || Ascii.eqb c ".") t = true.
Proof.
  unfold ipv4ToBigInt. intros H.
  destruct (negb (length (split "." t) =? 4)%nat) eqn:El; [discriminate |].
  cbn [orb] in H.
  destruct (existsb _ (split "." t)) eqn:Ex; [discriminate |]. clear H El.
  rewrite <- (join_split "."%char t).
  induction (split "." t) as [| p rest IH]; [reflexivity |].
  cbn [existsb] in Ex. apply orb_false_elim in Ex. destruct Ex as [Ep Er].
  apply orb_false_elim in Ep. destruct Ep as [Ed _]. apply negb_false_iff in Ed.
  apply all_digits_forall in Ed.
  assert (Hp : forallb (fun c => is_digit c || Ascii.eqb c ".") p = true).
  { eapply forallb_impl; [| exact Ed]. intros x Hx. rewrite Hx. reflexivity. }
  destruct rest as [| q rest']; [exact Hp |].
  rewrite join_cons2, !forallb_app, Hp, (IH Er). reflexivity.
Qed.

Lemma bigIntToIp_v6_chars n compress :
  Z.shiftr n 32 <> 0xffff -> forallb addr_char (bigIntToIp n V6 compress) = true.
Proof.
  intros Hm. unfold bigIntToIp.
  replace (Z.shiftr n 32 =? 0xffff) with false by (symmetry; apply Z.eqb_neq; exact Hm).
  fold (groups_of n).
  destruct (group_texts (groups_of n) (groups_of_range n)) as [HF _].
  destruct compress.
  - destruct (compress_shape (map (toString 16) (groups_of n)))
      as [[_ Ec] | (A & B & len & E & H1 & H2 & HA & HB & Ec)];
      [rewrite length_map; apply groups_of_length | exact HF | |]; rewrite Ec.
    + apply addr_char_join. exact HF.
    + apply addr_char_compressed; assumption.
  - destruct (padded_texts _ HF) as [HP _]. apply addr_char_join. exact HP.
Qed.

(** X5: parsing an IPv6 rendering with the version left to auto-detection
    gives the integer back outside the mapped range, and fails inside it: the
    mapped form holds a dot, so it is taken for an IPv4 literal. *)
Theorem ipToBigInt_autodetect_v6 (n : Z) (compress : bool) :
  (Z.shiftr n 32 <> 0xffff ->
     ipToBigInt (bigIntToIp n V6 compress) None = Ok (n mod 2 ^ 128))
  /\ (Z.shiftr n 32 = 0xffff ->
     ipToBigInt (bigIntToIp n V6 compress) None = Throw InvalidIPAddressError).
Proof.
  split; intros Hm.
  - pose proof (bigIntToIp_v6_chars n compress Hm) as Hc.
    destruct (bigIntToIp_v6_valid n compress) as [Hv _].
    unfold ipToBigInt, fastIpVersion.
    replace (includes "." (bigIntToIp n V6 compress)) with false
      by (symmetry; apply includes_false_iff; eapply forallb_not_In; [exact Hc | reflexivity]).
    replace (includes ":" (bigIntToIp n V6 compress)) with true
      by (symmetry; apply includes_iff;
          apply (needs_sound ":"%char IPV6_VALIDATION_REGEX); [vm_compute; reflexivity | exact Hv]).
    cbn [bind]. apply ipv6ToBigInt_text.
  - unfold ipToBigInt, fastIpVersion, bigIntToIp.
    replace (Z.shiftr n 32 =? 0xffff) with true by (symmetry; apply Z.eqb_eq; exact Hm).
    assert (Hd : includes "." (L "::ffff:" ++ ipv4_text (Z.land n 0xffffffff)) = true).
    { rewrite includes_app. apply orb_true_intro. right. apply includes_iff.
      apply (needs_sound "."%char IPV4_ADDRESS_PATTERN); [vm_compute; reflexivity |].
      apply ipv4_text_valid. }
    rewrite Hd. cbn [bind].
    destruct (ipv4ToBigInt (L "::ffff:" ++ ipv4_text (Z.land n 0xffffffff))) as [v | e] eqn:E.
    + apply ipv4ToBigInt_chars in E. discriminate.
    + apply ipv4ToBigInt_error in E. subst. reflexivity.
Qed.

Lemma ipToBigInt_autodetect_v6_witness :
  ipToBigInt (bigIntToIp 1 V6 true) None = Ok (1 mod 2 ^ 128)
  /\ ipToBigInt (bigIntToIp 281473913979137 V6 true) None = Throw InvalidIPAddressError.
Proof.
  split.
  - apply (ipToBigInt_autodetect_v6 1 true). vm_compute. discriminate.
  - apply (ipToBigInt_autodetect_v6 281473913979137 true). vm_compute. reflexivity.
Defined.

(** X6: every text [bigIntToIp] produces, for any integer and either flag,
    is accepted by the validation predicate of its version. *)
Theorem bigIntToIp_is_valid (n : Z) (compress : bool) :
  IPv4.isValid (bigIntToIp n V4 compress) = true
  /\ IPv6.isValid (bigIntToIp n V6 compress) = true.
Proof.
  split.
  - unfold IPv4.isValid, IPV4_ADDRESS_REGEX. apply test_iff. apply ipv4_text_valid.
  - unfold IPv6.isValid. destruct (bigIntToIp_v6_valid n compress) as [Hv Hs].
    rewrite Hs. apply test_iff. exact Hv.
Qed.

(** *** Canonical IPv4 text *)

Lemma digit_chars_complete c : is_digit c = true -> In c digit_chars.
Proof.
  intros H. unfold digit_chars. apply filter_In. split; [apply all_ascii_complete | exact H].
Qed.

Lemma digit_strs_complete p :
  forallb is_digit p = true -> (1 <= length p <= 3)%nat ->
  In p (digit_strs1 ++ digit_strs2 ++ digit_strs3).
Proof.
  intros Hd Hl.
  destruct p as [| a [| b [| c [| ? ?]]]]; simpl in Hl; try lia;
    cbn [forallb] in Hd;
    repeat match goal with
    | H : _ && _ = true |- _ => apply andb_prop in H; destruct H
    end;
    repeat match goal with
    | H : is_digit _ = true |- _ => apply digit_chars_complete in H
    end.
  - apply in_or_app. left. unfold digit_strs1.
    apply (in_map (fun x => [x]) digit_chars a). assumption.
  - apply in_or_app. right. apply in_or_app. left.
    unfold digit_strs2. apply in_flat_map. exists a. split; [assumption |].
    apply (in_map (cons a) digit_strs1 [b]). unfold digit_strs1.
    apply (in_map (fun x => [x]) digit_chars b). assumption.
  - apply in_or_app. right. apply in_or_app. right.
    unfold digit_strs3. apply in_flat_map. exists a. split; [assumption |].
    apply (in_map (cons a) digit_strs2 [b; c]).
    unfold digit_strs2. apply in_flat_map. exists b. split; [assumption |].
    apply (in_map (cons b) digit_strs1 [c]). unfold digit_strs1.
    apply (in_map (fun x => [x]) digit_chars c). assumption.
Qed.

Lemma octet_canonical_all p : lang IPV4_PART p -> toString 10 (parse_digits 10 p) = p.
Proof.
  intros H.
  assert (E : forallb octet_canonical (digit_strs1 ++ digit_strs2 ++ digit_strs3) = true)
    by (vm_compute; reflexivity).
  rewrite forallb_forall in E.
  destruct (ipv4_part_inv p H) as [Hd _]. pose proof (lang_length _ _ H) as Hl.
  assert (Hin : In p (digit_strs1 ++ digit_strs2 ++ digit_strs3)).
  { apply digit_strs_complete; [apply all_digits_forall; exact Hd |].
    revert Hl. vm_compute. intros [? ?]. split; assumption. }
  specialize (E p Hin). unfold octet_canonical in E.
  rewrite (proj2 (test_iff _ _) H) in E. simpl in E. apply str_eqb_eq. exact E.
Qed.

Lemma IPv4_new_address (s : str) :
  IPv4.isValid s = true ->
  exists a, IPv4.new s = Ok a /\ IPv4.address a = s.
Proof.
  intros Hv. unfold IPv4.new. rewrite Hv. cbn [negb].
  unfold IPv4.isValid, IPV4_ADDRESS_REGEX in Hv. apply test_iff in Hv.
  apply lang_ipv4_pattern_inv in Hv.
  destruct Hv as (p1 & p2 & p3 & p4 & -> & L1 & L2 & L3 & L4).
  destruct (ipv4_part_inv p1 L1) as [D1 B1]. destruct (ipv4_part_inv p2 L2) as [D2 B2].
  destruct (ipv4_part_inv p3 L3) as [D3 B3]. destruct (ipv4_part_inv p4 L4) as [D4 B4].
  unfold ipToBigInt. cbn [bind].
  rewrite ipv4ToBigInt_parts by assumption. cbn [bind].
  eexists. split; [reflexivity |].
  unfold IPv4.address, bigIntToIp, ipv4_text. cbn [IPv4.address_].
  pose proof (parse_digits_nonneg 10 p1 ltac:(lia)) as N1.
  pose proof (parse_digits_nonneg 10 p2 ltac:(lia)) as N2.
  pose proof (parse_digits_nonneg 10 p3 ltac:(lia)) as N3.
  pose proof (parse_digits_nonneg 10 p4 ltac:(lia)) as N4.
  set (v1 := parse_digits 10 p1) in *. set (v2 := parse_digits 10 p2) in *.
  set (v3 := parse_digits 10 p3) in *. set (v4 := parse_digits 10 p4) in *.
  cbn [fold_left]. rewrite !lor_shiftl_add by (change (2 ^ 8) with 256; lia).
  change (2 ^ 8) with 256.
  rewrite !land_ff, !Z.shiftr_div_pow2 by lia.
  change (2 ^ 24) with 16777216. change (2 ^ 16) with 65536. change (2 ^ 8) with 256.
  assert (E1 : ((((0 * 256 + v1) * 256 + v2) * 256 + v3) * 256 + v4) / 16777216 mod 256 = v1)
    by (Z.div_mod_to_equations; lia).
  assert (E2 : ((((0 * 256 + v1) * 256 + v2) * 256 + v3) * 256 + v4) / 65536 mod 256 = v2)
    by (Z.div_mod_to_equations; lia).
  assert (E3 : ((((0 * 256 + v1) * 256 + v2) * 256 + v3) * 256 + v4) / 256 mod 256 = v3)
    by (Z.div_mod_to_equations; lia).
  assert (E4 : ((((0 * 256 + v1) * 256 + v2) * 256 + v3) * 256 + v4) mod 256 = v4)
    by (Z.div_mod_to_equations; lia).
  rewrite E1, E2, E3, E4.
  unfold v1, v2, v3, v4. rewrite !octet_canonical_all by assumption. reflexivity.
Qed.

(** X7: a valid IPv4 literal is already canonical: the constructor accepts
    it and the instance renders as the very same text. *)
Theorem IPv4_text_round_trip (s : str) :
  IPv4.isValid s = true ->
  exists a, IPv4.new s = Ok a /\ IPv4.address a = s.
Proof.
  exact (IPv4_new_address s).
Qed.

Lemma IPv4_text_round_trip_witness :
  exists a, IPv4.new (L "192.168.1.1") = Ok a /\ IPv4.address a = L "192.168.1.1".
Proof. apply (IPv4_text_round_trip (L "192.168.1.1")). vm_compute. reflexivity. Defined.

(** ** [compressIPv6]: the leftmost longest run *)

Lemma nth_zero_flags parts k :
  nth k (zero_flags parts) false = str_eqb (nth k parts []) (L "0").
Proof.
  unfold zero_flags. exact (map_nth (fun p => str_eqb p (L "0")) parts [] k).
Qed.

Lemma window_set_iff parts j m :
  window_set (zero_flags parts) j m = true <-> zero_window parts j m.
Proof.
  unfold window_set, zero_window. rewrite forallb_forall. split.
  - intros H k Hk. apply str_eqb_eq. rewrite <- nth_zero_flags. apply H.
    apply in_seq. lia.
  - intros H k Hk. apply in_seq in Hk. rewrite nth_zero_flags. apply str_eqb_eq.
    apply H. lia.
Qed.

Lemma leftmost_longest_ok_8 fl : length fl = 8%nat -> leftmost_longest_ok fl = true.
Proof.
  intros H.
  assert (E : forallb leftmost_longest_ok (all_flags 8) = true) by (vm_compute; reflexivity).
  rewrite forallb_forall in E. apply E. apply all_flags_complete. exact H.
Qed.

(** X8: on eight parts [compressIPv6] replaces the leftmost of the longest
    runs of ["0"] parts (the tie-break of RFC 5952), whatever its length: the
    chosen indices are a window of ["0"] parts, no window of ["0"] parts is
    longer, and none of the same length starts further left; nothing is
    chosen only when no part is ["0"]. *)
Theorem compress_leftmost_longest (parts : list str) :
  length parts = 8%nat ->
  match compress_longest parts with
  | None => forall k, (k < 8)%nat -> nth k parts [] <> L "0"
  | Some l =>
      exists i len,
        l = seq i len /\ (1 <= len)%nat /\ (i + len <= 8)%nat
        /\ zero_window parts i len
        /\ forall j m, (1 <= m)%nat -> (j + m <= 8)%nat -> zero_window parts j m ->
             (m <= len)%nat /\ (m = len -> (i <= j)%nat)
  end.
Proof.
  intros Hlen.
  assert (Hfl : length (zero_flags parts) = 8%nat)
    by (unfold zero_flags; rewrite length_map; exact Hlen).
  pose proof (leftmost_longest_ok_8 _ Hfl) as H. unfold leftmost_longest_ok in H.
  rewrite compress_longest_flags.
  destruct (longest_flags (zero_flags parts)) as [l |].
  - destruct l as [| i rest]; [discriminate |].
    set (l := i :: rest) in *. set (len := length l) in *.
    apply andb_prop in H. destruct H as [H H4].
    apply andb_prop in H. destruct H as [H H3].
    apply andb_prop in H. destruct H as [H1 H2].
    apply list_nat_eqb_eq in H1. apply Nat.leb_le in H2. rewrite Hfl in H2, H4.
    exists i, len. split; [exact H1 |]. split; [unfold len, l; simpl; lia |].
    split; [exact H2 |]. split; [apply window_set_iff; exact H3 |].
    intros j m Hm Hjm Hw. apply window_set_iff in Hw.
    rewrite forallb_forall in H4. specialize (H4 j ltac:(apply in_seq; lia)).
    rewrite forallb_forall in H4. specialize (H4 m ltac:(apply in_seq; lia)).
    rewrite Hw in H4.
    replace (j + m <=? 8)%nat with true in H4 by (symmetry; apply Nat.leb_le; lia).
    cbn [andb implb] in H4. apply andb_prop in H4. destruct H4 as [H5 H6].
    apply Nat.leb_le in H5. split; [exact H5 |]. intros ->.
    rewrite Nat.eqb_refl in H6. apply Nat.leb_le in H6. exact H6.
  - intros k Hk. apply str_eqb_neq. rewrite <- nth_zero_flags.
    rewrite forallb_forall in H.
    specialize (H (nth k (zero_flags parts) false)
                  ltac:(apply nth_In; rewrite Hfl; exact Hk)).
    apply negb_true_iff in H. exact H.
Qed.

Lemma compress_leftmost_longest_witness :
  match compress_longest [L "1"; L "0"; L "0"; L "2"; L "0"; L "0"; L "3"; L "4"] with
  | None =>
      forall k, (k < 8)%nat ->
        nth k [L "1"; L "0"; L "0"; L "2"; L "0"; L "0"; L "3"; L "4"] [] <> L "0"
  | Some l =>
      exists i len,
        l = seq i len /\ (1 <= len)%nat /\ (i + len <= 8)%nat
        /\ zero_window [L "1"; L "0"; L "0"; L "2"; L "0"; L "0"; L "3"; L "4"] i len
        /\ forall j m, (1 <= m)%nat -> (j + m <= 8)%nat ->
             zero_window [L "1"; L "0"; L "0"; L "2"; L "0"; L "0"; L "3"; L "4"] j m ->
             (m <= len)%nat /\ (m = len -> (i <= j)%nat)
  end.
Proof.
  apply (compress_leftmost_longest [L "1"; L "0"; L "0"; L "2"; L "0"; L "0"; L "3"; L "4"]).
  reflexivity.
Defined.

(** ** Reverse-DNS names *)

Lemma filter_no_colon_join parts :
  Forall colon_free parts ->
  filter (fun c => negb (Ascii.eqb c ":")) (join (L ":") parts) = concat parts.
Proof.
  assert (Hf : forall p, ~ In ":"%char p ->
                 filter (fun c => negb (Ascii.eqb c ":")) p = p).
  { induction p as [| c p IH]; intros H; [reflexivity |].
    simpl. destruct (Ascii.eqb c ":") eqn:E.
    - apply Ascii.eqb_eq in E. subst. exfalso. apply H. left. reflexivity.
    - simpl. rewrite IH; [reflexivity |]. intros Hin. apply H. right. exact Hin. }
  induction 1 as [| a A Ha HA IH]; [reflexivity |].
  destruct A as [| a' A'].
  - simpl. rewrite app_nil_r. apply Hf. apply Ha.
  - rewrite join_cons2, !filter_app, IH. rewrite (Hf a) by apply Ha. reflexivity.
Qed.

Lemma lower_hex_digit_char c : is_lower_hex c = true -> digit_char (digit_val c) = c.
Proof.
  assert (E : forallb (fun c => implb (is_lower_hex c)
                                   (Ascii.eqb (digit_char (digit_val c)) c)) all_ascii = true)
    by (vm_compute; reflexivity).
  rewrite forallb_forall in E. specialize (E c (all_ascii_complete c)).
  intros H. rewrite H in E. simpl in E. apply Ascii.eqb_eq. exact E.
Qed.

Lemma land_f x : Z.land x 0xf = x mod 16.
Proof. change 0xf with (Z.ones 4). rewrite Z.land_ones by lia. reflexivity. Qed.

(** The four characters of a zero-padded group are its four nibbles. *)
Lemma pad_group g :
  0 <= g <= 65535 ->
  padStart 4 "0" (toString 16 g)
  = map (fun j => digit_char (Z.land (Z.shiftr g j) 0xf)) [12; 8; 4; 0].
Proof.
  intros Hg. destruct (toString16_group g Hg) as (Hh & Hl & Hp & _).
  assert (Hph : forallb is_lower_hex (padStart 4 "0" (toString 16 g)) = true).
  { unfold padStart. rewrite forallb_app, Hh, andb_true_r.
    apply forallb_forall. intros x Hx. apply repeat_spec in Hx. subst. reflexivity. }
  assert (Hpl : length (padStart 4 "0" (toString 16 g)) = 4%nat).
  { unfold padStart. rewrite length_app, repeat_length. lia. }
  assert (Hpp : parse_digits 16 (padStart 4 "0" (toString 16 g)) = g).
  { unfold padStart. rewrite parse_digits_pad. exact Hp. }
  destruct (padStart 4 "0" (toString 16 g)) as [| c3 [| c2 [| c1 [| c0 [| ? ?]]]]];
    try discriminate.
  cbn [forallb] in Hph.
  apply andb_prop in Hph. destruct Hph as [H3 Hph].
  apply andb_prop in Hph. destruct Hph as [H2 Hph].
  apply andb_prop in Hph. destruct Hph as [H1 Hph].
  apply andb_prop in Hph. destruct Hph as [H0 _].
  unfold parse_digits in Hpp. cbn [fold_left] in Hpp.
  pose proof (digit_val_bounds c3). pose proof (digit_val_bounds c2).
  pose proof (digit_val_bounds c1). pose proof (digit_val_bounds c0).
  cbn [map]. rewrite !land_f, Z.shiftr_0_r, !Z.shiftr_div_pow2 by lia.
  change (2 ^ 12) with 4096. change (2 ^ 8) with 256. change (2 ^ 4) with 16.
  rewrite <- (lower_hex_digit_char c3 H3) at 1. rewrite <- (lower_hex_digit_char c2 H2) at 1.
  rewrite <- (lower_hex_digit_char c1 H1) at 1. rewrite <- (lower_hex_digit_char c0 H0) at 1.
  repeat f_equal; Z.div_mod_to_equations; lia.
Qed.

Lemma nibble_shift n s j :
  0 <= s -> 0 <= j -> j + 4 <= 16 ->
  Z.land (Z.shiftr (Z.land (Z.shiftr n s) 0xffff) j) 0xf = Z.land (Z.shiftr n (s + j)) 0xf.
Proof.
  intros Hs Hj Hj4. apply Z.bits_inj'. intros i Hi.
  change 0xf with (Z.ones 4). change 0xffff with (Z.ones 16).
  rewrite !Z.land_spec, !Z.shiftr_spec, Z.land_spec, Z.shiftr_spec by lia.
  destruct (Z.ltb_spec i 4).
  - rewrite (Z.ones_spec_low 16) by lia. rewrite andb_true_r.
    replace (i + j + s) with (i + (s + j)) by lia. reflexivity.
  - rewrite (Z.ones_spec_high 4) by lia. rewrite !andb_false_r. reflexivity.
Qed.

Lemma expanded_hex n :
  Z.shiftr n 32 <> 0xffff ->
  filter (fun c => negb (Ascii.eqb c ":")) (bigIntToIp n V6 false) = nibbles n.
Proof.
  intros Hm. unfold bigIntToIp.
  replace (Z.shiftr n 32 =? 0xffff) with false by (symmetry; apply Z.eqb_neq; exact Hm).
  fold (groups_of n).
  destruct (group_texts (groups_of n) (groups_of_range n)) as [HF _].
  destruct (padded_texts _ HF) as [HP _].
  rewrite filter_no_colon_join by (apply seg_texts_colon_free; exact HP).
  rewrite map_map.
  assert (E : map (fun g => padStart 4 "0" (toString 16 g)) (groups_of n)
              = map (fun g => map (fun j => digit_char (Z.land (Z.shiftr g j) 0xf)) [12; 8; 4; 0])
                    (groups_of n)).
  { apply map_ext_in. intros g Hg. apply pad_group.
    pose proof (groups_of_range n) as Hr. rewrite Forall_forall in Hr. apply Hr. exact Hg. }
  rewrite E. unfold groups_of, nibbles, upto_Z. cbn [map concat app seq].
  rewrite !nibble_shift by lia. rewrite Z.shiftr_0_r.
  repeat (f_equal; [f_equal; f_equal; f_equal; reflexivity |]).
  reflexivity.
Qed.

(** X9: outside the IPv4-mapped range [IPv6.toArpa] is the 32 lower-case
    hexadecimal nibbles of the address in reversed order, joined by dots,
    followed by [.ip6.arpa]. *)
Theorem IPv6_toArpa_nibbles (a : IPv6.t) :
  IPv6.isIPv4Mapped a = false ->
  IPv6.toArpa a = toArpa_spec (IPv6.toBigInt a).
Proof.
  intros Hm. unfold IPv6.toArpa, toArpa_spec, IPv6.expandedAddress, IPv6.toBigInt.
  rewrite expanded_hex; [reflexivity |].
  unfold IPv6.isIPv4Mapped in Hm. apply Z.eqb_neq. exact Hm.
Qed.

Lemma IPv6_toArpa_nibbles_witness :
  IPv6.toArpa (IPv6.mk 0x20010db8000000000000000000000001)
  = toArpa_spec (IPv6.toBigInt (IPv6.mk 0x20010db8000000000000000000000001)).
Proof.
  apply (IPv6_toArpa_nibbles (IPv6.mk 0x20010db8000000000000000000000001)).
  vm_compute. reflexivity.
Defined.

(** X10: [IPv4.toArpa] is the decimal text of the four bytes of the address
    in reversed order, joined by dots, followed by [.in-addr.arpa]. *)
Theorem IPv4_toArpa_reversed_bytes (a : IPv4.t) :
  IPv4.toArpa a
  = join (L ".") (map (toString 10) (rev (IPv4.toBytes a))) ++ L ".in-addr.arpa".
Proof.
  unfold IPv4.toArpa, IPv4.address, bigIntToIp, IPv4.toBytes.
  set (n := IPv4.address_ a).
  destruct (octet_text n 24) as (D1 & _). destruct (octet_text n 16) as (D2 & _).
  destruct (octet_text n 8) as (D3 & _). destruct (octet_text n 0) as (D4 & _).
  rewrite Z.shiftr_0_r in D4.
  assert (Hs : split "." (ipv4_text n)
               = map (toString 10)
                   [ Z.land (Z.shiftr n 24) 0xff; Z.land (Z.shiftr n 16) 0xff;
                     Z.land (Z.shiftr n 8) 0xff; Z.land n 0xff ]).
  { unfold ipv4_text. change (L ".") with ["."%char]. cbn [app map].
    rewrite !split_app by (apply all_digits_not_In; auto).
    rewrite split_no_sep by (apply all_digits_not_In; auto). reflexivity. }
  rewrite Hs, map_rev. reflexivity.
Qed.

(** ** CIDR: construction and blocks *)

(** X11: a text without a [/] is never accepted by the CIDR constructor (or
    by [parseCIDR]): a bare address, valid or not, makes it throw
    [InvalidIPAddressError]. *)
Theorem CIDR_new_without_slash (s : str) :
  includes "/" s = false ->
  CIDR.new s = Throw InvalidIPAddressError
  /\ parseCIDR s = Throw InvalidIPAddressError.
Proof.
  intros H. apply includes_false_iff in H.
  assert (E : CIDR.new s = Throw InvalidIPAddressError).
  { unfold CIDR.new. rewrite split_no_sep by exact H. reflexivity. }
  split; [exact E | exact E].
Qed.

Lemma CIDR_new_without_slash_witness :
  CIDR.new (L "192.168.1.1") = Throw InvalidIPAddressError
  /\ parseCIDR (L "192.168.1.1") = Throw InvalidIPAddressError.
Proof. apply (CIDR_new_without_slash (L "192.168.1.1")). vm_compute. reflexivity. Defined.

(** X12: every CIDR value the constructor returns has its prefix within the
    width of its version and its address within the version's range. *)
Theorem CIDR_new_invariant (s : str) (c : CIDR.t) :
  CIDR.new s = Ok c ->
  0 <= CIDR.prefix c <= BITS (CIDR.version c)
  /\ 0 <= IP_toBigInt (CIDR.address c) <= MAX_IP (CIDR.version c).
Proof.
  intros H. destruct (CIDR_new_wf s c H) as [Hp Ha]. split; [exact Hp |].
  rewrite MAX_IP_eq. lia.
Qed.

Lemma CIDR_new_invariant_witness :
  0 <= CIDR.prefix (CIDR.mk (IP4 (IPv4.mk 167772160)) 24)
    <= BITS (CIDR.version (CIDR.mk (IP4 (IPv4.mk 167772160)) 24))
  /\ 0 <= IP_toBigInt (CIDR.address (CIDR.mk (IP4 (IPv4.mk 167772160)) 24))
    <= MAX_IP (CIDR.version (CIDR.mk (IP4 (IPv4.mk 167772160)) 24)).
Proof.
  apply (CIDR_new_invariant (L "10.0.0.0/24")). vm_compute. reflexivity.
Defined.

Lemma netmask_int_eq v p :
  0 <= p <= BITS v -> netmask_int v p = 2 ^ BITS v - 2 ^ (BITS v - p).
Proof.
  intros Hp. unfold netmask_int. rewrite land_MAX_IP, MAX_IP_eq.
  rewrite Z.shiftl_mul_pow2 by lia.
  set (h := BITS v - p). assert (Hh : 0 <= h <= BITS v) by (unfold h; lia).
  assert (Hb : 2 ^ BITS v = 2 ^ p * 2 ^ h).
  { rewrite <- Z.pow_add_r by lia. f_equal. unfold h. lia. }
  assert (Hpos : 0 < 2 ^ h) by (apply Z.pow_pos_nonneg; lia).
  assert (Hpp : 0 < 2 ^ p) by (apply Z.pow_pos_nonneg; lia).
  replace ((2 ^ BITS v - 1) * 2 ^ h)
    with ((2 ^ BITS v - 2 ^ h) + (2 ^ h - 1) * 2 ^ BITS v) by ring.
  rewrite Z.mod_add by lia. apply Z.mod_small. nia.
Qed.

(** X13: for a constructed block of prefix [p] the netmask is the integer
    with the top [p] bits of the width set: [2^bits - 2^(bits - p)]. *)
Theorem CIDR_netmask_value (s : str) (c : CIDR.t) :
  CIDR.new s = Ok c ->
  CIDR.netmask c
  = Ok (mkIP (CIDR.version c)
          (2 ^ BITS (CIDR.version c) - 2 ^ (BITS (CIDR.version c) - CIDR.prefix c))).
Proof.
  intros H. destruct (CIDR_new_wf s c H) as [Hp _].
  rewrite CIDR_netmask_eq, netmask_int_eq by exact Hp. reflexivity.
Qed.

Lemma CIDR_netmask_value_witness :
  CIDR.netmask (CIDR.mk (IP4 (IPv4.mk 167772160)) 24)
  = Ok (mkIP (CIDR.version (CIDR.mk (IP4 (IPv4.mk 167772160)) 24))
          (2 ^ BITS (CIDR.version (CIDR.mk (IP4 (IPv4.mk 167772160)) 24))
           - 2 ^ (BITS (CIDR.version (CIDR.mk (IP4 (IPv4.mk 167772160)) 24))
                  - CIDR.prefix (CIDR.mk (IP4 (IPv4.mk 167772160)) 24)))).
Proof.
  apply (CIDR_netmask_value (L "10.0.0.0/24")). vm_compute. reflexivity.
Defined.

(** X14: a constructed block of prefix [p] spans [2^(bits - p)] addresses,
    starts at a multiple of that size, and holds its own address. *)
Theorem CIDR_block (s : str) (c : CIDR.t) :
  CIDR.new s = Ok c ->
  exists net bc,
    CIDR.network c = Ok net /\ CIDR.broadcast c = Ok bc
    /\ IP_toBigInt net <= IP_toBigInt (CIDR.address c) <= IP_toBigInt bc
    /\ IP_toBigInt bc - IP_toBigInt net + 1 = 2 ^ (BITS (CIDR.version c) - CIDR.prefix c)
    /\ IP_toBigInt net mod 2 ^ (BITS (CIDR.version c) - CIDR.prefix c) = 0
    /\ CIDR.contains c (CIDR.Instance (CIDR.address c)) = Ok true.
Proof.
  intros H. pose proof (CIDR_new_wf s c H) as Hwf.
  pose proof (CIDR_network_eq c Hwf) as En. pose proof (CIDR_broadcast_eq c Hwf) as Eb.
  destruct Hwf as [Hp Ha].
  pose proof (cidr_range _ _ _ Hp Ha) as Hr.
  pose proof (broadcast_int_eq _ _ _ Hp Ha) as Hb.
  pose proof (network_int_eq _ _ _ Hp Ha) as Hn.
  do 2 eexists. split; [exact En |]. split; [exact Eb |].
  rewrite !IP_toBigInt_mkIP.
  split; [lia |]. split; [lia |]. split.
  - rewrite Hn. apply Z.mod_mul. apply Z.pow_nonzero; lia.
  - rewrite CIDR_contains_instance by (try reflexivity; split; assumption).
    f_equal. apply andb_true_intro. split; apply Z.leb_le; lia.
Qed.

Lemma CIDR_block_witness :
  exists net bc,
    CIDR.network (CIDR.mk (IP4 (IPv4.mk 3232235876)) 24) = Ok net
    /\ CIDR.broadcast (CIDR.mk (IP4 (IPv4.mk 3232235876)) 24) = Ok bc
    /\ IP_toBigInt bc - IP_toBigInt net + 1 = 2 ^ (32 - 24).
Proof.
  destruct (CIDR_block (L "192.168.1.100/24") (CIDR.mk (IP4 (IPv4.mk 3232235876)) 24))
    as (net & bc & H1 & H2 & _ & H4 & _); [vm_compute; reflexivity |].
  exists net, bc. split; [exact H1 |]. split; [exact H2 | exact H4].
Defined.

(** X15: for a constructed block and an address instance of its version,
    [contains] holds exactly when the candidate and the block's address agree
    on everything above the host bits. *)
Theorem CIDR_contains_same_prefix (s : str) (c : CIDR.t) (ip : IP) :
  CIDR.new s = Ok c ->
  IP_version ip = CIDR.version c ->
  CIDR.contains c (CIDR.Instance ip)
  = Ok (IP_toBigInt ip / 2 ^ (BITS (CIDR.version c) - CIDR.prefix c)
        =? IP_toBigInt (CIDR.address c) / 2 ^ (BITS (CIDR.version c) - CIDR.prefix c)).
Proof.
  intros H Hv. pose proof (CIDR_new_wf s c H) as Hwf.
  rewrite CIDR_contains_instance by assumption. f_equal.
  destruct Hwf as [Hp Ha].
  rewrite broadcast_int_eq, network_int_eq by assumption.
  set (h := BITS (CIDR.version c) - CIDR.prefix c).
  assert (Hpos : 0 < 2 ^ h) by (apply Z.pow_pos_nonneg; unfold h; lia).
  set (q := IP_toBigInt (CIDR.address c) / 2 ^ h).
  set (x := IP_toBigInt ip).
  pose proof (Z.div_mod x (2 ^ h) ltac:(lia)) as Hd.
  pose proof (Z.mod_pos_bound x (2 ^ h) Hpos) as Hm.
  destruct (x / 2 ^ h =? q) eqn:E.
  - apply Z.eqb_eq in E. apply andb_true_intro. split; apply Z.leb_le; nia.
  - apply Z.eqb_neq in E. apply andb_false_iff.
    destruct (Z.lt_ge_cases (x / 2 ^ h) q).
    + left. apply Z.leb_gt. nia.
    + right. apply Z.leb_gt. nia.
Qed.

Lemma CIDR_contains_same_prefix_witness :
  CIDR.contains (CIDR.mk (IP4 (IPv4.mk 3232235876)) 24)
                (CIDR.Instance (IP4 (IPv4.mk 3232235826)))
  = Ok (3232235826 / 2 ^ (32 - 24) =? 3232235876 / 2 ^ (32 - 24)).
Proof.
  apply (CIDR_contains_same_prefix (L "192.168.1.100/24")
           (CIDR.mk (IP4 (IPv4.mk 3232235876)) 24) (IP4 (IPv4.mk 3232235826))).
  - vm_compute. reflexivity.
  - reflexivity.
Defined.

(** ** Address arithmetic: [next], [previous], [not] *)

Lemma IPv4_next_mod a k :
  IPv4.next a k = Ok (IPv4.mk ((IPv4.address_ a + k) mod 2 ^ 32)).
Proof.
  unfold IPv4.next. rewrite IPv4_fromBigInt_mod, (land_MAX_IP V4).
  change (BITS V4) with 32. rewrite Z.mod_mod by lia. reflexivity.
Qed.

Lemma IPv4_previous_mod a k :
  IPv4.previous a k = Ok (IPv4.mk ((IPv4.address_ a - k) mod 2 ^ 32)).
Proof.
  unfold IPv4.previous. rewrite IPv4_fromBigInt_mod, (land_MAX_IP V4).
  change (BITS V4) with 32. rewrite Z.mod_mod by lia. reflexivity.
Qed.

Lemma IPv6_next_mod a k :
  IPv6.next a k = Ok (IPv6.mk ((IPv6.address_ a + k) mod 2 ^ 128)).
Proof.
  unfold IPv6.next. rewrite IPv6_fromBigInt_mod, (land_MAX_IP V6).
  change (BITS V6) with 128. rewrite Z.mod_mod by lia. reflexivity.
Qed.

Lemma IPv6_previous_mod a k :
  IPv6.previous a k = Ok (IPv6.mk ((IPv6.address_ a - k) mod 2 ^ 128)).
Proof.
  unfold IPv6.previous. rewrite IPv6_fromBigInt_mod, (land_MAX_IP V6).
  change (BITS V6) with 128. rewrite Z.mod_mod by lia. reflexivity.
Qed.

Lemma mod_add_sub n k m : 0 < m -> ((n + k) mod m - k) mod m = n mod m.
Proof. intros Hm. rewrite Zminus_mod_idemp_l. f_equal. lia. Qed.

Lemma mod_sub_add n k m : 0 < m -> ((n - k) mod m + k) mod m = n mod m.
Proof. intros Hm. rewrite Zplus_mod_idemp_l. f_equal. lia. Qed.

(** X16: [next] and [previous] step modulo the size of the address space
    (past the last address they wrap to the first and back), and with the
    same count they undo each other, for both classes. *)
Theorem next_previous_inverse (a4 : IPv4.t) (a6 : IPv6.t) (k : Z) :
  0 <= IPv4.toBigInt a4 < 2 ^ 32 -> 0 <= IPv6.toBigInt a6 < 2 ^ 128 ->
  (IPv4.next a4 k = Ok (IPv4.mk ((IPv4.toBigInt a4 + k) mod 2 ^ 32))
   /\ (let* b := IPv4.next a4 k in IPv4.previous b k) = Ok a4
   /\ (let* b := IPv4.previous a4 k in IPv4.next b k) = Ok a4)
  /\ (IPv6.next a6 k = Ok (IPv6.mk ((IPv6.toBigInt a6 + k) mod 2 ^ 128))
      /\ (let* b := IPv6.next a6 k in IPv6.previous b k) = Ok a6
      /\ (let* b := IPv6.previous a6 k in IPv6.next b k) = Ok a6).
Proof.
  destruct a4 as [n], a6 as [m]. unfold IPv4.toBigInt, IPv6.toBigInt.
  cbn [IPv4.address_ IPv6.address_]. intros Hn Hm.
  split; (split; [| split]).
  - apply IPv4_next_mod.
  - rewrite IPv4_next_mod. cbn [bind]. rewrite IPv4_previous_mod.
    cbn [IPv4.address_]. rewrite mod_add_sub, Z.mod_small by lia. reflexivity.
  - rewrite IPv4_previous_mod. cbn [bind]. rewrite IPv4_next_mod.
    cbn [IPv4.address_]. rewrite mod_sub_add, Z.mod_small by lia. reflexivity.
  - apply IPv6_next_mod.
  - rewrite IPv6_next_mod. cbn [bind]. rewrite IPv6_previous_mod.
    cbn [IPv6.address_]. rewrite mod_add_sub, Z.mod_small by lia. reflexivity.
  - rewrite IPv6_previous_mod. cbn [bind]. rewrite IPv6_next_mod.
    cbn [IPv6.address_]. rewrite mod_sub_add, Z.mod_small by lia. reflexivity.
Qed.

Lemma next_previous_inverse_witness :
  IPv4.next (IPv4.mk 4294967295) 1 = Ok (IPv4.mk ((4294967295 + 1) mod 2 ^ 32))
  /\ (let* b := IPv6.previous (IPv6.mk 0) 1 in IPv6.next b 1) = Ok (IPv6.mk 0).
Proof.
  destruct (next_previous_inverse (IPv4.mk 4294967295) (IPv6.mk 0) 1)
    as [[H1 _] [_ [_ H2]]].
  - cbn. lia.
  - cbn. lia.
  - split; [exact H1 | exact H2].
Defined.

Lemma lnot_mod n b : 0 <= n < 2 ^ b -> Z.lnot n mod 2 ^ b = 2 ^ b - 1 - n.
Proof.
  intros H. unfold Z.lnot.
  replace (Z.pred (- n)) with ((2 ^ b - 1 - n) + (-1) * 2 ^ b) by lia.
  rewrite Z.mod_add by lia. apply Z.mod_small. lia.
Qed.

(** X17: [not] is the complement within the width of the class: it maps
    the address [n] to [2^bits - 1 - n], and applied twice it gives the
    address back. *)
Theorem not_complement (a4 : IPv4.t) (a6 : IPv6.t) :
  0 <= IPv4.toBigInt a4 < 2 ^ 32 -> 0 <= IPv6.toBigInt a6 < 2 ^ 128 ->
  (IPv4.not a4 = Ok (IPv4.mk (2 ^ 32 - 1 - IPv4.toBigInt a4))
   /\ (let* b := IPv4.not a4 in IPv4.not b) = Ok a4)
  /\ (IPv6.not a6 = Ok (IPv6.mk (2 ^ 128 - 1 - IPv6.toBigInt a6))
      /\ (let* b := IPv6.not a6 in IPv6.not b) = Ok a6).
Proof.
  destruct a4 as [n], a6 as [m]. unfold IPv4.toBigInt, IPv6.toBigInt.
  cbn [IPv4.address_ IPv6.address_]. intros Hn Hm.
  assert (E4 : forall x, 0 <= x < 2 ^ 32 ->
                 IPv4.not (IPv4.mk x) = Ok (IPv4.mk (2 ^ 32 - 1 - x))).
  { intros x Hx. unfold IPv4.not. cbn [IPv4.address_].
    rewrite IPv4_fromBigInt_mod, (land_MAX_IP V4). change (BITS V4) with 32.
    rewrite Z.mod_mod, lnot_mod by lia. reflexivity. }
  assert (E6 : forall x, 0 <= x < 2 ^ 128 ->
                 IPv6.not (IPv6.mk x) = Ok (IPv6.mk (2 ^ 128 - 1 - x))).
  { intros x Hx. unfold IPv6.not. cbn [IPv6.address_].
    rewrite IPv6_fromBigInt_mod, (land_MAX_IP V6). change (BITS V6) with 128.
    rewrite Z.mod_mod, lnot_mod by lia. reflexivity. }
  split; split.
  - apply E4. exact Hn.
  - rewrite E4 by exact Hn. cbn [bind]. rewrite E4 by lia. do 2 f_equal. lia.
  - apply E6. exact Hm.
  - rewrite E6 by exact Hm. cbn [bind]. rewrite E6 by lia. do 2 f_equal. lia.
Qed.

Lemma not_complement_witness :
  IPv4.not (IPv4.mk 4294967040) = Ok (IPv4.mk (2 ^ 32 - 1 - 4294967040))
  /\ (let* b := IPv6.not (IPv6.mk 1) in IPv6.not b) = Ok (IPv6.mk 1).
Proof.
  destruct (not_complement (IPv4.mk 4294967040) (IPv6.mk 1)) as [[H1 _] [_ H2]].
  - cbn. lia.
  - cbn. lia.
  - split; [exact H1 | exact H2].
Defined.

(** ** Bytes *)

Lemma bytes_value_snoc bs b :
  bytes_value (bs ++ [b]) = Z.lor (Z.shiftl (bytes_value bs) 8) b.
Proof. unfold bytes_value. rewrite fold_left_app. reflexivity. Qed.

Lemma bytes_value_snoc_add bs b :
  is_byte b -> bytes_value (bs ++ [b]) = bytes_value bs * 256 + b.
Proof.
  intros Hb. rewrite bytes_value_snoc, lor_shiftl_add.
  - reflexivity.
  - lia.
  - unfold is_byte in Hb. change (2 ^ 8) with 256. lia.
Qed.

Lemma bytes_value_range bs :
  Forall is_byte bs -> 0 <= bytes_value bs < 2 ^ (8 * Z.of_nat (length bs)).
Proof.
  induction bs as [| b bs IH] using rev_ind; intros H.
  - cbn. lia.
  - apply Forall_app in H. destruct H as [H1 H2].
    assert (Hb : is_byte b) by (inversion H2; assumption).
    rewrite bytes_value_snoc_add by exact Hb.
    rewrite length_app. cbn [length].
    replace (8 * Z.of_nat (length bs + 1)) with (8 * Z.of_nat (length bs) + 8) by lia.
    rewrite Z.pow_add_r by lia. change (2 ^ 8) with 256.
    specialize (IH H1). unfold is_byte in Hb. lia.
Qed.

Lemma bytes_value_inj bs :
  forall cs, length bs = length cs -> Forall is_byte bs -> Forall is_byte cs ->
             bytes_value bs = bytes_value cs -> bs = cs.
Proof.
  induction bs as [| b bs IH] using rev_ind; intros cs Hl Hb Hc E.
  - destruct cs; [reflexivity | discriminate Hl].
  - destruct cs as [| c cs _] using rev_ind.
    + rewrite length_app in Hl. cbn [length] in Hl. lia.
    + rewrite !length_app in Hl. cbn [length] in Hl.
      apply Forall_app in Hb, Hc. destruct Hb as [Hb1 Hb2], Hc as [Hc1 Hc2].
      assert (B : is_byte b) by (inversion Hb2; assumption).
      assert (C : is_byte c) by (inversion Hc2; assumption).
      rewrite !bytes_value_snoc_add in E by assumption.
      unfold is_byte in B, C.
      assert (Ev : bytes_value bs = bytes_value cs) by lia.
      assert (Eb : b = c) by lia.
      rewrite (IH cs) by (assumption || lia). rewrite Eb. reflexivity.
Qed.

Lemma land_ff_byte x : is_byte (Z.land x 0xff).
Proof.
  unfold is_byte. rewrite land_ff. pose proof (Z.mod_pos_bound x 256). lia.
Qed.

Lemma IPv4_toBytes_bytes a : Forall is_byte (IPv4.toBytes a).
Proof. unfold IPv4.toBytes. repeat (apply Forall_cons; [apply land_ff_byte |]). apply Forall_nil. Qed.

Lemma IPv4_toBytes_value a : bytes_value (IPv4.toBytes a) = IPv4.address_ a mod 2 ^ 32.
Proof.
  destruct a as [n]. unfold bytes_value, IPv4.toBytes. cbn [IPv4.address_].
  exact (octets_value n).
Qed.

Lemma IPv4_fromBytes_value bs :
  IPv4.fromBytes bs = Ok (IPv4.mk (bytes_value bs mod 2 ^ 32)).
Proof. unfold IPv4.fromBytes. fold (bytes_value bs). apply IPv4_fromBigInt_mod. Qed.

(** X18: the bytes of an IPv4 address build the same address again, and
    four bytes are the bytes of the address built from them. *)
Theorem IPv4_bytes_round_trip (a : IPv4.t) (bs : list Z) :
  0 <= IPv4.toBigInt a < 2 ^ 32 ->
  length bs = 4%nat -> Forall is_byte bs ->
  IPv4.fromBytes (IPv4.toBytes a) = Ok a
  /\ exists b, IPv4.fromBytes bs = Ok b /\ IPv4.toBytes b = bs.
Proof.
  intros Ha Hl Hb. split.
  - rewrite IPv4_fromBytes_value, IPv4_toBytes_value, Z.mod_mod by lia.
    destruct a as [n]. unfold IPv4.toBigInt in Ha. cbn [IPv4.address_] in *.
    rewrite Z.mod_small by lia. reflexivity.
  - eexists. split; [apply IPv4_fromBytes_value |].
    pose proof (bytes_value_range bs Hb) as Hr. rewrite Hl in Hr.
    change (2 ^ (8 * Z.of_nat 4)) with (2 ^ 32) in Hr.
    apply bytes_value_inj.
    + rewrite Hl. reflexivity.
    + apply IPv4_toBytes_bytes.
    + exact Hb.
    + rewrite IPv4_toBytes_value. cbn [IPv4.address_].
      rewrite Z.mod_mod by lia. apply Z.mod_small. exact Hr.
Qed.

Lemma IPv4_bytes_round_trip_witness :
  IPv4.fromBytes (IPv4.toBytes (IPv4.mk 3232235777)) = Ok (IPv4.mk 3232235777)
  /\ exists b, IPv4.fromBytes [192; 168; 1; 1] = Ok b /\ IPv4.toBytes b = [192; 168; 1; 1].
Proof.
  apply (IPv4_bytes_round_trip (IPv4.mk 3232235777) [192; 168; 1; 1]).
  - cbn. lia.
  - reflexivity.
  - repeat (apply Forall_cons; [unfold is_byte; lia |]). apply Forall_nil.
Defined.

Lemma byte_step n s M X :
  0 <= s -> 0 < M -> X = (n / 2 ^ (s + 8)) mod M ->
  Z.lor (Z.shiftl X 8) (Z.land (Z.shiftr n s) 0xff) = (n / 2 ^ s) mod (256 * M).
Proof.
  intros Hs HM ->. rewrite land_ff, Z.shiftr_div_pow2 by lia.
  rewrite lor_shiftl_add.
  - rewrite Z.pow_add_r by lia. change (2 ^ 8) with 256.
    rewrite <- Z.div_div by (try apply Z.pow_pos_nonneg; lia).
    rewrite (Z.rem_mul_r (n / 2 ^ s) 256 M) by lia. lia.
  - lia.
  - change (2 ^ 8) with 256. apply Z.mod_pos_bound. lia.
Qed.

Lemma IPv6_toBytes_bytes a : Forall is_byte (IPv6.toBytes a).
Proof. unfold IPv6.toBytes. cbn [map]. repeat (apply Forall_cons; [apply land_ff_byte |]). apply Forall_nil. Qed.

Lemma IPv6_toBytes_length a : length (IPv6.toBytes a) = 16%nat.
Proof. reflexivity. Qed.

Lemma IPv6_toBytes_value a : bytes_value (IPv6.toBytes a) = IPv6.address_ a mod 2 ^ 128.
Proof.
  destruct a as [n]. cbn [IPv6.address_].
  assert (E : IPv6.toBytes (IPv6.mk n)
              = [ Z.land (Z.shiftr n 120) 0xff; Z.land (Z.shiftr n 112) 0xff;
                  Z.land (Z.shiftr n 104) 0xff; Z.land (Z.shiftr n 96) 0xff;
                  Z.land (Z.shiftr n 88) 0xff; Z.land (Z.shiftr n 80) 0xff;
                  Z.land (Z.shiftr n 72) 0xff; Z.land (Z.shiftr n 64) 0xff;
                  Z.land (Z.shiftr n 56) 0xff; Z.land (Z.shiftr n 48) 0xff;
                  Z.land (Z.shiftr n 40) 0xff; Z.land (Z.shiftr n 32) 0xff;
                  Z.land (Z.shiftr n 24) 0xff; Z.land (Z.shiftr n 16) 0xff;
                  Z.land (Z.shiftr n 8) 0xff; Z.land (Z.shiftr n 0) 0xff ])
    by reflexivity.
  rewrite E. unfold bytes_value. cbn [fold_left].
  rewrite (byte_step n 120 1 0) by (try lia; rewrite Z.mod_1_r; reflexivity).
  rewrite (byte_step n 112 (256 ^ 1)) by (try lia; reflexivity).
  rewrite (byte_step n 104 (256 ^ 2)) by (try lia; reflexivity).
  rewrite (byte_step n 96 (256 ^ 3)) by (try lia; reflexivity).
  rewrite (byte_step n 88 (256 ^ 4)) by (try lia; reflexivity).
  rewrite (byte_step n 80 (256 ^ 5)) by (try lia; reflexivity).
  rewrite (byte_step n 72 (256 ^ 6)) by (try lia; reflexivity).
  rewrite (byte_step n 64 (256 ^ 7)) by (try lia; reflexivity).
  rewrite (byte_step n 56 (256 ^ 8)) by (try lia; reflexivity).
  rewrite (byte_step n 48 (256 ^ 9)) by (try lia; reflexivity).
  rewrite (byte_step n 40 (256 ^ 10)) by (try lia; reflexivity).
  rewrite (byte_step n 32 (256 ^ 11)) by (try lia; reflexivity).
  rewrite (byte_step n 24 (256 ^ 12)) by (try lia; reflexivity).
  rewrite (byte_step n 16 (256 ^ 13)) by (try lia; reflexivity).
  rewrite (byte_step n 8 (256 ^ 14)) by (try lia; reflexivity).
  rewrite (byte_step n 0 (256 ^ 15)) by (try lia; reflexivity).
  rewrite Z.pow_0_r, Z.div_1_r. reflexivity.
Qed.

Lemma IPv6_fromBytes_value bs :
  length bs = 16%nat ->
  IPv6.fromBytes bs = Ok (IPv6.mk (bytes_value bs mod 2 ^ 128)).
Proof.
  intros Hl. unfold IPv6.fromBytes. rewrite Hl. cbn [Nat.eqb negb].
  fold (bytes_value bs). apply IPv6_fromBigInt_mod.
Qed.

(** X19: [IPv6.fromBytes] refuses every array whose length is not 16,
    whatever it holds; the 16 bytes of an address build the same address
    again, and 16 bytes are the bytes of the address built from them. *)
Theorem IPv6_bytes_round_trip (a : IPv6.t) (bs : list Z) :
  (0 <= IPv6.toBigInt a < 2 ^ 128 -> IPv6.fromBytes (IPv6.toBytes a) = Ok a)
  /\ (length bs = 16%nat -> Forall is_byte bs ->
      exists b, IPv6.fromBytes bs = Ok b /\ IPv6.toBytes b = bs)
  /\ (length bs <> 16%nat -> IPv6.fromBytes bs = Throw InvalidIPAddressError).
Proof.
  split; [| split].
  - intros Ha. rewrite IPv6_fromBytes_value by apply IPv6_toBytes_length.
    rewrite IPv6_toBytes_value, Z.mod_mod by lia.
    destruct a as [n]. unfold IPv6.toBigInt in Ha. cbn [IPv6.address_] in *.
    rewrite Z.mod_small by lia. reflexivity.
  - intros Hl Hb. eexists. split; [apply IPv6_fromBytes_value; exact Hl |].
    pose proof (bytes_value_range bs Hb) as Hr. rewrite Hl in Hr.
    change (2 ^ (8 * Z.of_nat 16)) with (2 ^ 128) in Hr.
    apply bytes_value_inj.
    + rewrite Hl. reflexivity.
    + apply IPv6_toBytes_bytes.
    + exact Hb.
    + rewrite IPv6_toBytes_value. cbn [IPv6.address_].
      rewrite Z.mod_mod by lia. apply Z.mod_small. exact Hr.
  - intros Hl. unfold IPv6.fromBytes.
    destruct (Nat.eqb_spec (length bs) 16) as [E | _]; [contradiction | reflexivity].
Qed.

Lemma IPv6_bytes_round_trip_witness :
  IPv6.fromBytes (IPv6.toBytes (IPv6.mk 1)) = Ok (IPv6.mk 1)
  /\ (exists b, IPv6.fromBytes [0; 0; 0; 0; 0; 0; 0; 0; 0; 0; 0; 0; 0; 0; 0; 1] = Ok b
               /\ IPv6.toBytes b = [0; 0; 0; 0; 0; 0; 0; 0; 0; 0; 0; 0; 0; 0; 0; 1])
  /\ IPv6.fromBytes [192; 168; 1; 256] = Throw InvalidIPAddressError.
Proof.
  split; [| split].
  - apply (IPv6_bytes_round_trip (IPv6.mk 1) []). cbn. lia.
  - apply (IPv6_bytes_round_trip (IPv6.mk 1) [0; 0; 0; 0; 0; 0; 0; 0; 0; 0; 0; 0; 0; 0; 0; 1]).
    + reflexivity.
    + repeat (apply Forall_cons; [unfold is_byte; lia |]). apply Forall_nil.
  - apply (IPv6_bytes_round_trip (IPv6.mk 1) [192; 168; 1; 256]). cbn [length]. lia.
Defined.

(** ** IPv4-mapped addresses *)

(** X20: [toIPv4Mapped] puts an IPv4 address under the prefix
    [::ffff:0:0/96]: the result is recognised as mapped, renders as
    [::ffff:] followed by the dotted address, and [toIPv4] gives the IPv4
    address back. *)
Theorem IPv4_mapped_round_trip (a : IPv4.t) :
  0 <= IPv4.toBigInt a < 2 ^ 32 ->
  exists m, IPv4_toIPv4Mapped a = Ok m
    /\ IPv6.toBigInt m = 0xffff * 2 ^ 32 + IPv4.toBigInt a
    /\ IPv6.isIPv4Mapped m = true
    /\ IPv6.address m = L "::ffff:" ++ IPv4.address a
    /\ IPv6.toIPv4 m = Ok (Some a).
Proof.
  destruct a as [n]. unfold IPv4.toBigInt. cbn [IPv4.address_]. intros Hn.
  assert (Ev : Z.lor (Z.shiftl 0xffff 32) n = 0xffff * 2 ^ 32 + n)
    by (apply lor_shiftl_add; lia).
  assert (Es : Z.shiftr (0xffff * 2 ^ 32 + n) 32 = 0xffff).
  { rewrite Z.shiftr_div_pow2 by lia. rewrite Z.div_add_l by lia.
    rewrite Z.div_small by lia. lia. }
  assert (El : Z.land (0xffff * 2 ^ 32 + n) 0xffffffff = n).
  { rewrite land_max32. rewrite Z.add_comm, Z.mod_add by lia.
    apply Z.mod_small. lia. }
  exists (IPv6.mk (0xffff * 2 ^ 32 + n)). split; [| split; [| split; [| split]]].
  - unfold IPv4_toIPv4Mapped. cbn [IPv4.address_]. rewrite Ev.
    apply IPv6_fromBigInt_id. lia.
  - reflexivity.
  - unfold IPv6.isIPv4Mapped. cbn [IPv6.address_]. rewrite Es. reflexivity.
  - unfold IPv6.address, IPv4.address, bigIntToIp. cbn [IPv6.address_ IPv4.address_].
    rewrite Es, El. reflexivity.
  - unfold IPv6.toIPv4, IPv6.isIPv4Mapped. cbn [IPv6.address_].
    rewrite Es, El. cbn [Z.eqb Pos.eqb negb].
    rewrite IPv4_fromBigInt_id by lia. reflexivity.
Qed.

Lemma IPv4_mapped_round_trip_witness :
  exists m, IPv4_toIPv4Mapped (IPv4.mk 3221225985) = Ok m
    /\ IPv6.toBigInt m = 0xffff * 2 ^ 32 + IPv4.toBigInt (IPv4.mk 3221225985)
    /\ IPv6.isIPv4Mapped m = true
    /\ IPv6.address m = L "::ffff:" ++ IPv4.address (IPv4.mk 3221225985)
    /\ IPv6.toIPv4 m = Ok (Some (IPv4.mk 3221225985)).
Proof.
  apply (IPv4_mapped_round_trip (IPv4.mk 3221225985)).
  cbn. lia.
Defined.

(** ** Classification against the blocks named in the source *)

Lemma in_block_bounds blk c lo hi ip :
  CIDR.new blk = Ok c ->
  IP_version ip = CIDR.version c ->
  network_int (CIDR.version c) (IP_toBigInt (CIDR.address c)) (CIDR.prefix c) = lo ->
  broadcast_int (CIDR.version c) (IP_toBigInt (CIDR.address c)) (CIDR.prefix c) = hi ->
  in_block blk ip = (lo <=? IP_toBigInt ip) && (IP_toBigInt ip <=? hi).
Proof.
  intros Hc Hv Hlo Hhi. unfold in_block. rewrite Hc. cbn [bind].
  rewrite CIDR_contains_instance by (try exact Hv; exact (CIDR_new_wf blk c Hc)).
  rewrite Hlo, Hhi. reflexivity.
Qed.

(** Replaces [in_block blk _] by the comparison with the ends of the block,
    both computed from the text [blk]. *)
Ltac block_bounds blk :=
  let r := eval vm_compute in (CIDR.new blk) in
  match r with
  | Ok ?c =>
      let lo := eval vm_compute in
        (network_int (CIDR.version c) (IP_toBigInt (CIDR.address c)) (CIDR.prefix c)) in
      let hi := eval vm_compute in
        (broadcast_int (CIDR.version c) (IP_toBigInt (CIDR.address c)) (CIDR.prefix c)) in
      rewrite (in_block_bounds blk c lo hi) by (vm_compute; reflexivity)
  end.

Ltac all_block_bounds :=
  unfold in_blocks; cbn [existsb];
  repeat match goal with
         | |- context [in_block ?blk _] => block_bounds blk
         end.

(** Names every range test of the goal, so that it is handled as a bare
    boolean. *)
Ltac name_ranges n :=
  repeat match goal with
         | |- context [(?l <=? n) && (n <=? ?h)] =>
             let b := fresh "b" in
             generalize ((l <=? n) && (n <=? h)); intro b
         end.

(** Decides an equation between disjunctions of boolean variables, leaving
    at each variable only the case that is not already settled. *)
Ltac bool_chain :=
  repeat match goal with
         | b : bool |- _ => destruct b; cbn [andb orb negb]; [reflexivity |]
         end;
  try reflexivity.

(** X21: the IPv4 predicates [isPrivate], [isLoopback], [isMulticast] and
    [isLinkLocal] hold exactly on the blocks their comments name, as the
    library's own [CIDR.contains] decides them. *)
Theorem IPv4_classes_are_blocks (a : IPv4.t) :
  IPv4.isPrivate a
  = in_blocks [L "10.0.0.0/8"; L "172.16.0.0/12"; L "192.168.0.0/16"] (IP4 a)
  /\ IPv4.isLoopback a = in_block (L "127.0.0.0/8") (IP4 a)
  /\ IPv4.isMulticast a = in_block (L "224.0.0.0/4") (IP4 a)
  /\ IPv4.isLinkLocal a = in_block (L "169.254.0.0/16") (IP4 a).
Proof.
  all_block_bounds. destruct a as [n].
  unfold IPv4.isPrivate, IPv4.isLoopback, IPv4.isMulticast, IPv4.isLinkLocal,
    IP_toBigInt, IPv4.toBigInt.
  cbn [IPv4.address_].
  repeat split; reflexivity.
Qed.

(** X22: [isReserved] holds exactly on the fifteen blocks the source lists
    (nine of its own and those of the four predicates it calls), and since
    these hold [0.0.0.0] and [255.255.255.255], [isGlobalUnicast] is the
    negation of [isReserved]. *)
Theorem IPv4_reserved_blocks (a : IPv4.t) :
  IPv4.isReserved a
  = in_blocks [L "0.0.0.0/8"; L "100.64.0.0/10"; L "192.0.0.0/24"; L "192.0.2.0/24";
               L "192.88.99.0/24"; L "198.18.0.0/15"; L "198.51.100.0/24";
               L "203.0.113.0/24"; L "240.0.0.0/4";
               L "10.0.0.0/8"; L "172.16.0.0/12"; L "192.168.0.0/16";
               L "127.0.0.0/8"; L "169.254.0.0/16"; L "224.0.0.0/4"] (IP4 a)
  /\ IPv4.isGlobalUnicast a = negb (IPv4.isReserved a).
Proof.
  all_block_bounds. split.
  - destruct a as [n].
    unfold IPv4.isReserved, IPv4.isPrivate, IPv4.isLoopback,
      IPv4.isMulticast, IPv4.isLinkLocal, IP_toBigInt, IPv4.toBigInt.
    cbn [IPv4.address_]. name_ranges n. bool_chain.
  - unfold IPv4.isGlobalUnicast, IPv4.isUnspecified, IPv4.isBroadcast.
    destruct a as [n]. cbn [IPv4.address_].
    destruct (Z.eqb_spec n 0) as [-> | _]; [reflexivity |].
    destruct (Z.eqb_spec n 0xffffffff) as [-> | _]; [reflexivity |].
    reflexivity.
Qed.

Lemma shiftr_eqb_block x k v :
  0 <= k ->
  (Z.shiftr x k =? v) = (v * 2 ^ k <=? x) && (x <=? v * 2 ^ k + (2 ^ k - 1)).
Proof.
  intros Hk. rewrite Z.shiftr_div_pow2 by exact Hk.
  assert (Hp : 0 < 2 ^ k) by (apply Z.pow_pos_nonneg; lia).
  pose proof (Z.div_mod x (2 ^ k) ltac:(lia)) as Hd.
  pose proof (Z.mod_pos_bound x (2 ^ k) Hp) as Hm.
  destruct (Z.eqb_spec (x / 2 ^ k) v) as [E | E].
  - symmetry. apply andb_true_intro. split; apply Z.leb_le; nia.
  - symmetry. apply andb_false_iff.
    destruct (Z.lt_ge_cases (x / 2 ^ k) v).
    + left. apply Z.leb_gt. nia.
    + right. apply Z.leb_gt. nia.
Qed.

Lemma shiftr_eqb_bounds x k v lo hi :
  0 <= k -> v * 2 ^ k = lo -> v * 2 ^ k + (2 ^ k - 1) = hi ->
  (Z.shiftr x k =? v) = (lo <=? x) && (x <=? hi).
Proof. intros Hk <- <-. apply shiftr_eqb_block. exact Hk. Qed.

(** Replaces every test [n >> k === v] by the comparison with the ends of
    the block it stands for. *)
Ltac shift_ranges n :=
  repeat match goal with
         | |- context [Z.shiftr n ?k =? ?v] =>
             let lo := eval vm_compute in (v * 2 ^ k) in
             let hi := eval vm_compute in (v * 2 ^ k + (2 ^ k - 1)) in
             rewrite (shiftr_eqb_bounds n k v lo hi) by (vm_compute; first [reflexivity | discriminate])
         end.

(** X23: the IPv6 predicates [isMulticast], [isLinkLocal], [isUniqueLocal],
    [isIPv4Mapped] and [isReserved], written as shifts, hold exactly on the
    blocks their comments name. *)
Theorem IPv6_classes_are_blocks (a : IPv6.t) :
  IPv6.isMulticast a = in_block (L "ff00::/8") (IP6 a)
  /\ IPv6.isLinkLocal a = in_block (L "fe80::/10") (IP6 a)
  /\ IPv6.isUniqueLocal a = in_block (L "fc00::/7") (IP6 a)
  /\ IPv6.isIPv4Mapped a = in_block (L "::ffff:0:0/96") (IP6 a)
  /\ IPv6.isReserved a
     = in_blocks [L "100::/64"; L "2001:2::/48"; L "2001:db8::/32"; L "2001::/32";
                  L "2002::/16"] (IP6 a).
Proof.
  all_block_bounds. destruct a as [n].
  unfold IPv6.isMulticast, IPv6.isLinkLocal, IPv6.isUniqueLocal, IPv6.isIPv4Mapped,
    IPv6.isReserved, IP_toBigInt, IPv6.toBigInt.
  cbn [IPv6.address_].
  shift_ranges n.
  repeat split; reflexivity.
Qed.

(** X24: of the eight tests of the IPv6 [isGlobalUnicast] only two decide:
    the address lies in [2000::/3] and in none of the four reserved blocks
    inside it; the other tests never fail there. *)
Theorem IPv6_global_unicast_blocks (a : IPv6.t) :
  IPv6.isGlobalUnicast a
  = in_block (L "2000::/3") (IP6 a)
    && negb (in_blocks [L "2001:2::/48"; L "2001:db8::/32"; L "2001::/32";
                        L "2002::/16"] (IP6 a)).
Proof.
  all_block_bounds. destruct a as [n].
  unfold IPv6.isGlobalUnicast, IPv6.isMulticast, IPv6.isLinkLocal, IPv6.isUniqueLocal,
    IPv6.isIPv4Mapped, IPv6.isReserved, IPv6.isUnspecified, IPv6.isLoopback,
    IP_toBigInt, IPv6.toBigInt.
  cbn [IPv6.address_].
  shift_ranges n.
  match goal with
  | |- _ = ((?l <=? n) && (n <=? ?h)) && _ =>
      destruct (Z.leb_spec l n) as [Hlo | Hlo]; [| reflexivity];
      destruct (Z.leb_spec n h) as [Hhi | Hhi]; [| reflexivity]
  end.
  replace (n =? 0) with false by (symmetry; apply Z.eqb_neq; lia).
  replace (n =? 1) with false by (symmetry; apply Z.eqb_neq; lia).
  repeat match goal with
         | |- context [(?l <=? n) && (n <=? ?h)] =>
             replace ((l <=? n) && (n <=? h)) with false
               by (symmetry; apply andb_false_iff;
                   first [left; apply Z.leb_gt; lia | right; apply Z.leb_gt; lia])
         end.
  name_ranges n. cbn [andb orb negb]. bool_chain.
Qed.

(** ** Comparison *)

(** X25: an IPv4 address equals a literal exactly when the literal is the
    text the address renders as; IPv4 addresses have one spelling. *)
Theorem IPv4_equals_text (a : IPv4.t) (s : str) :
  0 <= IPv4.toBigInt a < 2 ^ 32 ->
  (IPv4.equals a (IPv4.Lit s) = Ok true <-> IPv4.address a = s).
Proof.
  destruct a as [n]. unfold IPv4.toBigInt. cbn [IPv4.address_]. intros Hn.
  unfold IPv4.equals, IPv4.resolve. split.
  - destruct (IPv4.new s) as [b |] eqn:E; cbn [bind]; [| discriminate].
    intros H. apply Ok_inj in H. cbn [IPv4.address_] in H. apply Z.eqb_eq in H.
    assert (Hv : IPv4.isValid s = true).
    { unfold IPv4.new in E. destruct (IPv4.isValid s); [reflexivity | discriminate]. }
    destruct (IPv4_new_address s Hv) as (a' & E' & Ha').
    rewrite E in E'. apply Ok_inj in E'. subst a'.
    rewrite <- Ha'. unfold IPv4.address. cbn [IPv4.address_]. rewrite H. reflexivity.
  - intros <-. unfold IPv4.address. cbn [IPv4.address_].
    fold (IPv4.fromBigInt n). rewrite IPv4_fromBigInt_id by exact Hn.
    cbn [bind IPv4.address_]. rewrite Z.eqb_refl. reflexivity.
Qed.

Lemma IPv4_equals_text_witness :
  IPv4.equals (IPv4.mk 3232235777) (IPv4.Lit (L "192.168.1.1")) = Ok true
  <-> IPv4.address (IPv4.mk 3232235777) = L "192.168.1.1".
Proof. apply (IPv4_equals_text (IPv4.mk 3232235777) (L "192.168.1.1")). cbn. lia. Defined.

(** X26: [compare] against an instance always returns, with the sign of the
    difference of the two integers; swapping the operands negates it, and it
    is [0] exactly when [equals] holds.  Both classes. *)
Theorem compare_equals_consistent (a4 b4 : IPv4.t) (a6 b6 : IPv6.t) :
  (IPv4.compare a4 (IPv4.Inst b4) = Ok (Z.sgn (IPv4.toBigInt a4 - IPv4.toBigInt b4))
   /\ IPv4.compare b4 (IPv4.Inst a4) = Ok (- Z.sgn (IPv4.toBigInt a4 - IPv4.toBigInt b4))
   /\ IPv4.equals a4 (IPv4.Inst b4)
      = Ok (Z.sgn (IPv4.toBigInt a4 - IPv4.toBigInt b4) =? 0))
  /\ (IPv6.compare a6 (IPv6.Inst b6) = Ok (Z.sgn (IPv6.toBigInt a6 - IPv6.toBigInt b6))
      /\ IPv6.compare b6 (IPv6.Inst a6) = Ok (- Z.sgn (IPv6.toBigInt a6 - IPv6.toBigInt b6))
      /\ IPv6.equals a6 (IPv6.Inst b6)
         = Ok (Z.sgn (IPv6.toBigInt a6 - IPv6.toBigInt b6) =? 0)).
Proof.
  destruct a4 as [x], b4 as [y], a6 as [u], b6 as [v].
  unfold IPv4.compare, IPv4.equals, IPv4.resolve, IPv4.toBigInt,
    IPv6.compare, IPv6.equals, IPv6.resolve, IPv6.toBigInt.
  cbn [bind IPv4.address_ IPv6.address_].
  assert (S : forall p q,
             (if p <? q then Ok (-1) else if q <? p then Ok 1 else Ok 0)
             = Ok (Z.sgn (p - q))
             /\ (if q <? p then Ok (-1) else if p <? q then Ok 1 else Ok 0)
                = Ok (- Z.sgn (p - q))
             /\ Ok (p =? q) = Ok (Z.sgn (p - q) =? 0)).
  { intros p q.
    destruct (Z.ltb_spec p q), (Z.ltb_spec q p), (Z.eqb_spec p q); try lia.
    - replace (Z.sgn (p - q)) with (-1) by lia. repeat split; reflexivity.
    - replace (Z.sgn (p - q)) with 1 by lia. repeat split; reflexivity.
    - replace (Z.sgn (p - q)) with 0 by lia. repeat split; reflexivity. }
  split; apply S.
Qed.

(** ** index.ts *)

(** X27: [parseIP] chooses the class by the first test that fits, a dot, so
    an IPv6 literal with an embedded dotted part, though [isValidIP] accepts
    it, is handed to the IPv4 constructor and refused. *)
Theorem parseIP_dotted_ipv6_rejected (s : str) :
  IPv6.isValid s = true -> includes "." s = true ->
  isValidIP (JSString s) = true /\ parseIP s = Throw InvalidIPAddressError.
Proof.
  intros Hv Hd. split.
  - unfold isValidIP. rewrite Hv. apply orb_true_r.
  - unfold parseIP. rewrite Hd. unfold IPv4.new.
    destruct (IPv4.isValid s) eqn:E4.
    + destruct (valid_versions_disjoint s E4 Hv).
    + reflexivity.
Qed.

Lemma parseIP_dotted_ipv6_rejected_witness :
  isValidIP (JSString (L "::ffff:192.168.1.1")) = true
  /\ parseIP (L "::ffff:192.168.1.1") = Throw InvalidIPAddressError.
Proof.
  apply (parseIP_dotted_ipv6_rejected (L "::ffff:192.168.1.1")); vm_compute; reflexivity.
Defined.

(** X28: whatever [parseIP] returns was a valid literal for [isValidIP];
    an IPv4 result renders as the literal itself, an IPv6 result comes from a
    literal without a dot, and both hold an integer of their width. *)
Theorem parseIP_sound (s : str) (ip : IP) :
  parseIP s = Ok ip ->
  isValidIP (JSString s) = true
  /\ 0 <= IP_toBigInt ip < 2 ^ BITS (IP_version ip)
  /\ match ip with
     | IP4 a => IPv4.address a = s
     | IP6 _ => includes "." s = false /\ includes ":" s = true
     end.
Proof.
  unfold parseIP, isValidIP. intros H.
  destruct (includes "." s) eqn:Hd.
  - destruct (IPv4.new s) as [a |] eqn:E; cbn [bind] in H; [| discriminate].
    apply Ok_inj in H. subst ip.
    assert (Hv : IPv4.isValid s = true).
    { unfold IPv4.new in E. destruct (IPv4.isValid s); [reflexivity | discriminate]. }
    rewrite Hv. split; [reflexivity |]. split.
    + exact (IPv4_new_range s a E).
    + destruct (IPv4_new_address s Hv) as (a' & E' & Ha').
      rewrite E in E'. apply Ok_inj in E'. subst a'. exact Ha'.
  - destruct (includes ":" s) eqn:Hc; [| discriminate].
    destruct (IPv6.new s) as [a |] eqn:E; cbn [bind] in H; [| discriminate].
    apply Ok_inj in H. subst ip.
    assert (Hv : IPv6.isValid s = true).
    { unfold IPv6.new in E. destruct (IPv6.isValid s); [reflexivity | discriminate]. }
    rewrite Hv. split; [apply orb_true_r |]. split.
    + exact (IPv6_new_range s a E).
    + split; reflexivity.
Qed.

Lemma parseIP_sound_witness :
  isValidIP (JSString (L "2001:db8::1")) = true
  /\ 0 <= IP_toBigInt (IP6 (IPv6.mk 42540766411282592856903984951653826561))
     < 2 ^ BITS (IP_version (IP6 (IPv6.mk 42540766411282592856903984951653826561)))
  /\ (includes "." (L "2001:db8::1") = false /\ includes ":" (L "2001:db8::1") = true).
Proof.
  apply (parseIP_sound (L "2001:db8::1")
           (IP6 (IPv6.mk 42540766411282592856903984951653826561))).
  vm_compute. reflexivity.
Defined.

Lemma valid_ip_no_slash s : isValidIP (JSString s) = true -> ~ In "/"%char s.
Proof.
  unfold isValidIP. intros H. apply orb_prop in H. destruct H as [H | H].
  - unfold IPv4.isValid, IPV4_ADDRESS_REGEX in H. apply test_iff in H.
    apply (avoids_sound "/"%char IPV4_ADDRESS_PATTERN); [vm_compute; reflexivity | exact H].
  - unfold IPv6.isValid in H. destruct (includes "/" s) eqn:E; [discriminate |].
    apply includes_false_iff. exact E.
Qed.

(** X29: address literals and block literals are disjoint: a string that
    [isValidIP] accepts has no [/], and [parseCIDR] refuses it. *)
Theorem valid_ip_is_not_cidr (s : str) :
  isValidIP (JSString s) = true ->
  includes "/" s = false /\ parseCIDR s = Throw InvalidIPAddressError.
Proof.
  intros H. apply valid_ip_no_slash in H. split.
  - apply includes_false_iff. exact H.
  - unfold parseCIDR, CIDR.new. rewrite split_no_sep by exact H. reflexivity.
Qed.

Lemma valid_ip_is_not_cidr_witness :
  includes "/" (L "2001:db8::1") = false
  /\ parseCIDR (L "2001:db8::1") = Throw InvalidIPAddressError.
Proof. apply (valid_ip_is_not_cidr (L "2001:db8::1")). vm_compute. reflexivity. Defined.

(** ** [CIDR.toString] *)

Lemma prefix_text p :
  0 <= p <= 128 ->
  is_empty (toString 10 p) = false
  /\ ~ In "/"%char (toString 10 p)
  /\ parseInt10 (toString 10 p) = Some p.
Proof.
  intros Hp.
  assert (E : forallb (fun q =>
                negb (is_empty (toString 10 q))
                && negb (includes "/" (toString 10 q))
                && match parseInt10 (toString 10 q) with
                   | Some r => r =? q
                   | None => false
                   end) (upto_Z 129) = true) by (vm_compute; reflexivity).
  rewrite forallb_forall in E.
  specialize (E p ltac:(apply (upto_Z_complete 129); simpl; lia)).
  apply andb_prop in E. destruct E as [E E3].
  apply andb_prop in E. destruct E as [E1 E2].
  apply negb_true_iff in E1, E2. split; [exact E1 |]. split.
  - apply includes_false_iff. exact E2.
  - destruct (parseInt10 (toString 10 p)) as [r |]; [| discriminate].
    apply Z.eqb_eq in E3. subst r. reflexivity.
Qed.

Lemma CIDR_new_text t p :
  ~ In "/"%char t -> 0 <= p <= 128 ->
  CIDR.new (t ++ L "/" ++ toString 10 p)
  = (let* (address, version) :=
       (if includes "." t
        then let* a := IPv4.new t in Ok (IP4 a, V4)
        else let* a := IPv6.new t in Ok (IP6 a, V6)) in
     if (p <? 0) || (BITS version <? p)
     then Throw InvalidIPAddressError
     else Ok (CIDR.mk address p)).
Proof.
  intros Ht Hp. destruct (prefix_text p Hp) as (E1 & E2 & E3).
  unfold CIDR.new. change (t ++ L "/" ++ toString 10 p) with (t ++ "/"%char :: toString 10 p).
  rewrite split_app by exact Ht. rewrite split_no_sep by exact E2.
  cbn [hd nth_error]. rewrite E1, E3. reflexivity.
Qed.

(** X30: a constructed block is read back from its own text, unless its
    address is IPv4-mapped: that one renders with a dotted part, which sends
    the text to the IPv4 constructor, and the text is refused. *)
Theorem CIDR_toString_round_trip (s : str) (c : CIDR.t) :
  CIDR.new s = Ok c ->
  CIDR.new (CIDR.toString c)
  = match CIDR.address c with
    | IP4 _ => Ok c
    | IP6 a => if IPv6.isIPv4Mapped a then Throw InvalidIPAddressError else Ok c
    end.
Proof.
  intros H. destruct (CIDR_new_wf s c H) as [Hp Ha]. clear H.
  destruct c as [[[n] | [n]] p]; unfold CIDR.version in Hp, Ha;
    cbn [CIDR.address CIDR.prefix IP_version IP_toBigInt IPv4.toBigInt IPv6.toBigInt
         IPv4.address_ IPv6.address_ BITS] in Hp, Ha;
    unfold CIDR.toString; cbn [CIDR.address CIDR.prefix].
  - unfold IPv4.address, bigIntToIp. cbn [IPv4.address_].
    pose proof (ipv4_text_valid n) as Hl.
    rewrite CIDR_new_text.
    + rewrite (proj2 (includes_iff "."%char (ipv4_text n)))
        by (apply (needs_sound "."%char IPV4_ADDRESS_PATTERN);
            [vm_compute; reflexivity | exact Hl]).
      change (IPv4.new (ipv4_text n)) with (IPv4.fromBigInt n).
      rewrite IPv4_fromBigInt_id by exact Ha. cbn [bind BITS].
      replace (p <? 0) with false by (symmetry; apply Z.ltb_ge; lia).
      replace (32 <? p) with false by (symmetry; apply Z.ltb_ge; lia).
      reflexivity.
    + apply (avoids_sound "/"%char IPV4_ADDRESS_PATTERN); [vm_compute; reflexivity | exact Hl].
    + lia.
  - unfold IPv6.isIPv4Mapped, IPv6.address. cbn [IPv6.address_].
    destruct (Z.eqb_spec (Z.shiftr n 32) 0xffff) as [Em | Em].
    + unfold bigIntToIp. rewrite (proj2 (Z.eqb_eq _ _) Em).
      pose proof (ipv4_text_valid (Z.land n 0xffffffff)) as Hl.
      rewrite CIDR_new_text.
      * rewrite includes_app.
        rewrite (proj2 (includes_iff "."%char (ipv4_text (Z.land n 0xffffffff))))
          by (apply (needs_sound "."%char IPV4_ADDRESS_PATTERN);
              [vm_compute; reflexivity | exact Hl]).
        rewrite orb_true_r. unfold IPv4.new.
        replace (IPv4.isValid (L "::ffff:" ++ ipv4_text (Z.land n 0xffffffff))) with false.
        -- reflexivity.
        -- symmetry. apply test_false_iff. intros Hm.
           apply (avoids_sound ":"%char IPV4_ADDRESS_PATTERN) in Hm; [| vm_compute; reflexivity].
           apply Hm. left. reflexivity.
      * intros Hin. apply in_app_or in Hin. destruct Hin as [Hin | Hin].
        -- revert Hin. apply includes_false_iff. vm_compute. reflexivity.
        -- revert Hin.
           apply (avoids_sound "/"%char IPV4_ADDRESS_PATTERN); [vm_compute; reflexivity | exact Hl].
      * lia.
    + pose proof (bigIntToIp_v6_chars n true Em) as Hc.
      rewrite CIDR_new_text.
      * replace (includes "." (bigIntToIp n V6 true)) with false
          by (symmetry; apply includes_false_iff;
              apply (forallb_not_In addr_char); [exact Hc | reflexivity]).
        change (IPv6.new (bigIntToIp n V6 true)) with (IPv6.fromBigInt n).
        rewrite IPv6_fromBigInt_id by exact Ha. cbn [bind BITS].
        replace (p <? 0) with false by (symmetry; apply Z.ltb_ge; lia).
        replace (128 <? p) with false by (symmetry; apply Z.ltb_ge; lia).
        reflexivity.
      * apply (forallb_not_In addr_char); [exact Hc | reflexivity].
      * lia.
Qed.

Lemma CIDR_toString_round_trip_witness :
  CIDR.new (CIDR.toString (CIDR.mk (IP6 (IPv6.mk 281470698652420)) 96))
  = match CIDR.address (CIDR.mk (IP6 (IPv6.mk 281470698652420)) 96) with
    | IP4 _ => Ok (CIDR.mk (IP6 (IPv6.mk 281470698652420)) 96)
    | IP6 a => if IPv6.isIPv4Mapped a then Throw InvalidIPAddressError
               else Ok (CIDR.mk (IP6 (IPv6.mk 281470698652420)) 96)
    end.
Proof.
  apply (CIDR_toString_round_trip (L "::ffff:102:304/96")). vm_compute. reflexivity.
Defined.

(** ** Valid IPv6 literals with a dotted part *)

Lemma ends_sound c r s :
  lang r s ->
  (ends_with c r = true -> exists u, s = u ++ [c])
  /\ (ends_or_empty c r = true -> s = [] \/ exists u, s = u ++ [c]).
Proof.
  induction 1 as [ | d | p d Hp | a b s1 s2 _ [IHa1 IHa2] _ [IHb1 IHb2]
                 | a b s _ [IH1 IH2] | a b s _ [IH1 IH2] ];
    cbn [ends_with ends_or_empty].
  - split; [discriminate | left; reflexivity].
  - split; intros E; apply Ascii.eqb_eq in E; subst; [| right]; exists []; reflexivity.
  - split; discriminate.
  - assert (K : forall u, s2 = u ++ [c] -> exists w, s1 ++ s2 = w ++ [c]).
    { intros u ->. exists (s1 ++ u). rewrite app_assoc. reflexivity. }
    split; intros E; apply orb_prop in E; destruct E as [E | E].
    + destruct (IHb1 E) as [u Hu]. eauto.
    + apply andb_prop in E. destruct E as [Ea Eb].
      destruct (IHb2 Eb) as [-> | [u Hu]]; [rewrite app_nil_r; auto | eauto].
    + right. destruct (IHb1 E) as [u Hu]. eauto.
    + apply andb_prop in E. destruct E as [Ea Eb].
      destruct (IHb2 Eb) as [-> | [u Hu]]; [rewrite app_nil_r; auto | right; eauto].
  - split; intros E; apply andb_prop in E; destruct E; auto.
  - split; intros E; apply andb_prop in E; destruct E; auto.
Qed.

(** Two texts cut at the first separator agree piece by piece. *)
Lemma app_sep_inj (sep : ascii) x :
  forall y r r',
    ~ In sep x -> ~ In sep y -> x ++ sep :: r = y ++ sep :: r' -> x = y /\ r = r'.
Proof.
  induction x as [| a x IH]; intros [| b y] r r' Hx Hy E; cbn [app] in E.
  - inversion E; subst. auto.
  - inversion E; subst. exfalso. apply Hy. left. reflexivity.
  - inversion E; subst. exfalso. apply Hx. left. reflexivity.
  - inversion E; subst.
    destruct (IH y r r') as [-> ->]; auto; intros Hin; [apply Hx | apply Hy]; right; exact Hin.
Qed.

(** Two texts cut at the last separator agree on what follows it. *)
Lemma app_sep_last (sep : ascii) u v x y :
  ~ In sep x -> ~ In sep y -> u ++ sep :: x = v ++ sep :: y -> x = y.
Proof.
  intros Hx Hy E. apply (f_equal (@rev ascii)) in E.
  rewrite !rev_app_distr in E. cbn [rev] in E. rewrite <- !app_assoc in E.
  cbn [app] in E.
  apply app_sep_inj in E; [| rewrite <- in_rev; exact Hx | rewrite <- in_rev; exact Hy].
  destruct E as [E _]. apply (f_equal (@rev ascii)) in E.
  rewrite !rev_involutive in E. exact E.
Qed.

Lemma digits_not_In c x : forallb is_digit x = true -> is_digit c = false -> ~ In c x.
Proof. intros H Hc. exact (forallb_not_In is_digit c x H Hc). Qed.

Lemma lang_d13_digits x : lang d13 x -> forallb is_digit x = true.
Proof.
  intros H. apply (only_sound is_digit d13); [vm_compute; reflexivity | exact H].
Qed.

Lemma lang_seq_inv a b s :
  lang (Seq a b) s -> exists s1 s2, s = s1 ++ s2 /\ lang a s1 /\ lang b s2.
Proof. intros H. inversion H; subst. eauto. Qed.

Lemma mapped_regex_inv s :
  lang ipv4MappedRegex s ->
  exists a b c d,
    s = L "::ffff:" ++ a ++ L "." ++ b ++ L "." ++ c ++ L "." ++ d
    /\ forallb is_digit a = true /\ forallb is_digit b = true
    /\ forallb is_digit c = true /\ forallb is_digit d = true.
Proof.
  intros H. unfold ipv4MappedRegex in H.
  apply lang_seq_inv in H. destruct H as (s1 & t & -> & H1 & H2).
  apply lang_lit_inv in H1. subst s1.
  unfold seqs, dot in H2.
  repeat match goal with
  | H : lang (Seq _ _) _ |- _ => inversion H; subst; clear H
  | H : lang (Chr _) _ |- _ => inversion H; subst; clear H
  end.
  do 4 eexists. split; [reflexivity |].
  repeat split; apply lang_d13_digits; assumption.
Qed.

Lemma mapped_alternative s :
  lang IPV6_VALIDATION_REGEX s -> In "."%char s -> lang IPV6_IPV4_MAPPED s.
Proof.
  unfold IPV6_VALIDATION_REGEX. intros H Hdot.
  apply lang_alts_inv in H. destruct H as (r & Hin & H).
  unfold IPV6_COMBINED in Hin. cbn [In] in Hin.
  destruct Hin as [<- | [<- | [<- | [<- | [<- | [<- | [<- | [<- | [<- | [<- | [<- | [<- | []]]]]]]]]]]]];
    try exact H;
    exfalso; revert Hdot; (eapply avoids_sound; [| exact H]); vm_compute; reflexivity.
Qed.

(** A valid literal of the codec's own mapped form has a valid IPv4 address
    after its [::ffff:]. *)
Lemma valid_mapped_dotted_part s :
  lang IPV6_VALIDATION_REGEX s -> lang ipv4MappedRegex s ->
  lang IPV4_ADDRESS_PATTERN (skipn 7 s).
Proof.
  intros Hv Hm.
  destruct (mapped_regex_inv s Hm) as (a & b & c & d & Es & Da & Db & Dc & Dd).
  assert (Hdot : In "."%char s).
  { rewrite Es. apply in_or_app. right. apply in_or_app. right. left. reflexivity. }
  pose proof (mapped_alternative s Hv Hdot) as H.
  unfold IPV6_IPV4_MAPPED in H. fold IPV6_IPV4_PREFIX in H.
  apply lang_seq_inv in H. destruct H as (pre & v4 & Hs & Hpre & Hv4).
  destruct (lang_ipv4_pattern_inv v4 Hv4) as (p1 & p2 & p3 & p4 & Ev & L1 & L2 & L3 & L4).
  destruct (ipv4_part_inv p1 L1) as [D1 _]. destruct (ipv4_part_inv p2 L2) as [D2 _].
  destruct (ipv4_part_inv p3 L3) as [D3 _]. destruct (ipv4_part_inv p4 L4) as [D4 _].
  apply all_digits_forall in D1, D2, D3, D4.
  destruct (proj1 (ends_sound ":"%char IPV6_IPV4_PREFIX pre Hpre)) as [u Eu];
    [vm_compute; reflexivity |].
  assert (Hpd : ~ In "."%char pre)
    by (apply (avoids_sound "."%char IPV6_IPV4_PREFIX); [vm_compute; reflexivity | exact Hpre]).
  assert (E : (pre ++ p1) ++ "."%char :: (p2 ++ "."%char :: (p3 ++ "."%char :: p4))
              = (L "::ffff:" ++ a) ++ "."%char :: (b ++ "."%char :: (c ++ "."%char :: d))).
  { rewrite <- !app_assoc. transitivity s.
    - rewrite Hs, Ev. reflexivity.
    - rewrite Es. reflexivity. }
  apply app_sep_inj in E.
  - destruct E as [E1 E].
    apply app_sep_inj in E; [| apply digits_not_In; [assumption | reflexivity] ..].
    destruct E as [E2 E].
    apply app_sep_inj in E; [| apply digits_not_In; [assumption | reflexivity] ..].
    destruct E as [E3 E4].
    rewrite Eu in E1. rewrite <- app_assoc in E1. cbn [app] in E1.
    change (u ++ ":"%char :: p1 = L "::ffff" ++ ":"%char :: a) in E1.
    apply app_sep_last in E1; [| apply digits_not_In; [assumption | reflexivity] ..].
    rewrite Es. cbn [skipn app]. subst a b c d. rewrite <- Ev. exact Hv4.
  - intros Hin. apply in_app_or in Hin. destruct Hin as [Hin | Hin]; [exact (Hpd Hin) |].
    revert Hin. apply digits_not_In; [assumption | reflexivity].
  - intros Hin. apply in_app_or in Hin. destruct Hin as [Hin | Hin].
    + revert Hin. apply includes_false_iff. reflexivity.
    + revert Hin. apply digits_not_In; [assumption | reflexivity].
Qed.

Lemma valid_mapped_parses s :
  IPv6.isValid s = true -> test ipv4MappedRegex s = true ->
  exists v, 0 <= v < 2 ^ 32
    /\ ipv6ToBigInt s = Ok (Z.lor (Z.shiftl 0x00000000000000000000ffff 32) v).
Proof.
  intros Hv Hm. destruct (IPv6_valid_text s Hv) as (_ & Hp & _).
  unfold IPv6.isValid in Hv. destruct (includes "/" s); [discriminate |].
  apply test_iff in Hv, Hm.
  pose proof (valid_mapped_dotted_part s Hv Hm) as H4.
  destruct (IPv4_isValid_parses (skipn 7 s)) as (v & Ev & Hr).
  { unfold IPv4.isValid, IPV4_ADDRESS_REGEX. apply test_iff. exact H4. }
  exists v. split; [exact Hr |].
  unfold ipv6ToBigInt.
  replace (includes "%" s) with false by (symmetry; apply includes_false_iff; exact Hp).
  cbn [bind]. rewrite (proj2 (test_iff _ _) Hm). rewrite Ev. reflexivity.
Qed.

(** ** Literals with a dot outside the mapped form *)

Lemma In_join (sep : str) c parts :
  In c (join sep parts) -> In c sep \/ exists p, In p parts /\ In c p.
Proof.
  induction parts as [| p rest IH]; intros H; [contradiction |].
  destruct rest as [| q rest'].
  - right. exists p. split; [left; reflexivity | exact H].
  - rewrite join_cons2 in H. apply in_app_or in H. destruct H as [H | H].
    + right. exists p. split; [left; reflexivity | exact H].
    + apply in_app_or in H. destruct H as [H | H]; [left; exact H |].
      destruct (IH H) as [Hs | (p' & Hp' & Hc)]; [left; exact Hs |].
      right. exists p'. split; [right; exact Hp' | exact Hc].
Qed.

Lemma indexOf_empty_keeps parts :
  forall index p,
    indexOf_empty parts = Some index -> In p parts -> p <> [] ->
    In p (firstn index parts ++ skipn (S index) parts).
Proof.
  induction parts as [| q rest IH]; intros index p Hi Hin Hne; [contradiction |].
  cbn [indexOf_empty] in Hi. destruct (is_empty q) eqn:Eq.
  - injection Hi as <-. cbn [firstn skipn app].
    destruct Hin as [-> | Hin]; [| exact Hin].
    destruct p; [congruence | discriminate].
  - destruct (indexOf_empty rest) as [i |] eqn:Ei; [| discriminate].
    injection Hi as <-. cbn [firstn skipn app].
    destruct Hin as [-> | Hin]; [left; reflexivity | right; apply (IH i); auto].
Qed.

Lemma expand_keeps parts parts' p :
  expandIPv6Shorthand parts = Ok parts' -> In p parts -> p <> [] -> In p parts'.
Proof.
  unfold expandIPv6Shorthand. intros H Hin Hne.
  destruct (indexOf_empty parts) as [index |] eqn:Ei.
  - destruct (8 - Z.of_nat (length parts) + 1 <? 0); [discriminate |].
    apply Ok_inj in H. subst parts'.
    pose proof (indexOf_empty_keeps parts index p Ei Hin Hne) as K.
    apply in_app_or in K. apply in_or_app.
    destruct K as [K | K]; [left; exact K | right; apply in_or_app; right; exact K].
  - apply Ok_inj in H. subst parts'. exact Hin.
Qed.

(** Outside the mapped form a dot is fatal: the part that holds it is not
    hexadecimal. *)
Lemma dotted_unmapped_fails s :
  includes "%" s = false -> includes "." s = true -> test ipv4MappedRegex s = false ->
  succeeds (ipv6ToBigInt s) = false.
Proof.
  intros Hp Hd Hm. unfold ipv6ToBigInt. rewrite Hp. cbn [bind]. rewrite Hm.
  destruct (expandIPv6Shorthand (split ":" s)) as [parts |] eqn:Ex; [| reflexivity].
  cbn [bind].
  assert (Hbad : existsb (fun part => negb (hex_part_ok part)) parts = true).
  { apply includes_iff in Hd. rewrite <- (join_split ":"%char s) in Hd.
    apply In_join in Hd. destruct Hd as [[Hd | []] | (p & Hin & Hc)]; [discriminate |].
    apply existsb_exists. exists p. split.
    - apply (expand_keeps _ _ _ Ex Hin). intros ->. contradiction.
    - unfold hex_part_ok. apply negb_true_iff. apply andb_false_iff. left.
      apply not_true_is_false. intros HF.
      exact (forallb_not_In is_hex "."%char p HF eq_refl Hc). }
  rewrite Hbad, orb_true_r. reflexivity.
Qed.

(** On valid IPv6 literals the codec succeeds exactly on those without a
    dot and on those of its own mapped form. *)
Lemma valid_parses_iff s :
  IPv6.isValid s = true ->
  succeeds (ipv6ToBigInt s) = negb (includes "." s) || test ipv4MappedRegex s.
Proof.
  intros Hv. destruct (test ipv4MappedRegex s) eqn:Hm.
  - destruct (valid_mapped_parses s Hv Hm) as (v & _ & E). rewrite E, orb_true_r. reflexivity.
  - destruct (includes "." s) eqn:Hd.
    + apply dotted_unmapped_fails; [| exact Hd | exact Hm].
      apply includes_false_iff. exact (proj1 (proj2 (IPv6_valid_text s Hv))).
    + destruct (IPv6_isValid_parses s Hv Hd) as (n & E & _). rewrite E. reflexivity.
Qed.

(** ** C2: validation against the codec *)

Lemma IPv6_new_succeeds s :
  IPv6.isValid s = true -> succeeds (IPv6.new s) = succeeds (ipv6ToBigInt s).
Proof.
  intros Hv. unfold IPv6.new, ipToBigInt. rewrite Hv. cbn [negb bind].
  destruct (ipv6ToBigInt s); reflexivity.
Qed.

(** C2 is right and the code is wrong: validation and codec are meant to
    agree, and they do not.  Every literal [IPv4.isValid] accepts is parsed,
    but of the literals [IPv6.isValid] accepts the codec, and with it the
    constructor, parses only those without a dot and those of the form
    [::ffff:d.d.d.d]: a valid literal with a dotted part after any other
    prefix is refused, such as [::fffe:1.2.3.4].  In the other direction the
    codec parses [01.2.3.4] and seven bare colons, which validation
    rejects. *)
Theorem C2_validation_codec_mismatch (s4 s6 : str) :
  (IPv4.isValid s4 = true -> succeeds (ipv4ToBigInt s4) = true)
  /\ (IPv6.isValid s6 = true ->
      succeeds (ipv6ToBigInt s6) = negb (includes "." s6) || test ipv4MappedRegex s6
      /\ succeeds (IPv6.new s6) = negb (includes "." s6) || test ipv4MappedRegex s6)
  /\ (IPv6.isValid (L "::fffe:1.2.3.4") = true
      /\ ipv6ToBigInt (L "::fffe:1.2.3.4") = Throw InvalidIPAddressError
      /\ IPv6.new (L "::fffe:1.2.3.4") = Throw InvalidIPAddressError)
  /\ (IPv4.isValid (L "01.2.3.4") = false /\ ipv4ToBigInt (L "01.2.3.4") = Ok 16909060)
  /\ (IPv6.isValid (L ":::::::") = false /\ ipv6ToBigInt (L ":::::::") = Ok 0).
Proof.
  split; [| split; [| split; [| split]]].
  - intros H. destruct (IPv4_isValid_parses s4 H) as (n & E & _). rewrite E. reflexivity.
  - intros H. rewrite (IPv6_new_succeeds s6 H), (valid_parses_iff s6 H). split; reflexivity.
  - repeat split; vm_compute; reflexivity.
  - split; vm_compute; reflexivity.
  - split; vm_compute; reflexivity.
Qed.

Lemma C2_validation_codec_mismatch_witness :
  succeeds (ipv4ToBigInt (L "10.0.0.1")) = true
  /\ succeeds (ipv6ToBigInt (L "1:2:3:4:5:6:1.2.3.4"))
     = negb (includes "." (L "1:2:3:4:5:6:1.2.3.4"))
       || test ipv4MappedRegex (L "1:2:3:4:5:6:1.2.3.4")
  /\ succeeds (IPv6.new (L "1:2:3:4:5:6:1.2.3.4"))
     = negb (includes "." (L "1:2:3:4:5:6:1.2.3.4"))
       || test ipv4MappedRegex (L "1:2:3:4:5:6:1.2.3.4").
Proof.
  destruct (C2_validation_codec_mismatch (L "10.0.0.1") (L "1:2:3:4:5:6:1.2.3.4"))
    as (H4 & H6 & _).
  split; [apply H4; vm_compute; reflexivity | apply H6; vm_compute; reflexivity].
Defined.

(** ** C3: a lone zero group *)

Lemma zero_runs_none gs :
  forall cur best,
    existsb (fun g => g =? 0) gs = false -> zero_runs gs cur best = Nat.max cur best.
Proof.
  induction gs as [| g gs IH]; intros cur best H; [reflexivity |].
  cbn [existsb] in H. apply orb_false_elim in H. destruct H as [Hg Hr].
  cbn [zero_runs]. rewrite Hg. rewrite (IH _ _ Hr). lia.
Qed.

Lemma zero_runs_ge gs :
  forall cur best, (Nat.max cur best <= zero_runs gs cur best)%nat.
Proof.
  induction gs as [| g gs IH]; intros cur best; cbn [zero_runs]; [lia |].
  destruct (g =? 0).
  - specialize (IH (S cur) best). lia.
  - specialize (IH 0%nat (Nat.max cur best)). lia.
Qed.

Lemma zero_runs_some gs :
  forall cur best,
    existsb (fun g => g =? 0) gs = true -> (1 <= zero_runs gs cur best)%nat.
Proof.
  induction gs as [| g gs IH]; intros cur best H; [discriminate |].
  cbn [existsb] in H. cbn [zero_runs]. destruct (g =? 0).
  - pose proof (zero_runs_ge gs (S cur) best). lia.
  - cbn [orb] in H. apply IH. exact H.
Qed.

(** C3 is right and the code is wrong: [compressIPv6] has no minimum run
    length.  For every integer outside the mapped shortcut, when no group is
    zero the compressed rendering has no [::], as the claim says; but
    whenever the longest run of zero groups has length 1 it contains [::],
    which RFC 5952 (cited by the source) forbids for a single group:
    [2001:db8:0:1:1:1:1:1] is rendered as [2001:db8::1:1:1:1:1]. *)
Theorem C3_lone_zero_collapsed (n : Z) :
  Z.shiftr n 32 <> 0xffff ->
  (longest_zero_run (groups_of n) = 0%nat ->
     has_double_colon (bigIntToIp n V6 true) = false)
  /\ (longest_zero_run (groups_of n) = 1%nat ->
      has_double_colon (bigIntToIp n V6 true) = true).
Proof.
  intros Hm. rewrite (double_colon_iff_zero_group n Hm). unfold longest_zero_run.
  split; intros Hrun;
    destruct (existsb (fun g => g =? 0) (groups_of n)) eqn:E; try reflexivity.
  - pose proof (zero_runs_some _ 0%nat 0%nat E). lia.
  - rewrite (zero_runs_none _ 0%nat 0%nat E) in Hrun. discriminate Hrun.
Qed.

Lemma C3_lone_zero_collapsed_witness :
  has_double_colon (bigIntToIp 0x00010002000300040005000600070008 V6 true) = false
  /\ has_double_colon (bigIntToIp 0x20010db8000000010001000100010001 V6 true) = true
  /\ bigIntToIp 0x20010db8000000010001000100010001 V6 true = L "2001:db8::1:1:1:1:1".
Proof.
  split; [| split].
  - apply (C3_lone_zero_collapsed 0x00010002000300040005000600070008).
    + vm_compute. discriminate.
    + vm_compute. reflexivity.
  - apply (C3_lone_zero_collapsed 0x20010db8000000010001000100010001).
    + vm_compute. discriminate.
    + vm_compute. reflexivity.
  - vm_compute. reflexivity.
Defined.

(** ** C7: zone suffixes *)




(** ** C8: integer round trip *)

Lemma autodetect_v6_plain n compress :
  Z.shiftr n 32 <> 0xffff ->
  ipToBigInt (bigIntToIp n V6 compress) None = Ok (n mod 2 ^ 128).
Proof.
  intros Hm. pose proof (bigIntToIp_v6_chars n compress Hm) as Hc.
  destruct (bigIntToIp_v6_valid n compress) as [Hv _].
  unfold ipToBigInt, fastIpVersion.
  replace (includes "." (bigIntToIp n V6 compress)) with false
    by (symmetry; apply includes_false_iff; eapply forallb_not_In; [exact Hc | reflexivity]).
  replace (includes ":" (bigIntToIp n V6 compress)) with true
    by (symmetry; apply includes_iff;
        apply (needs_sound ":"%char IPV6_VALIDATION_REGEX); [vm_compute; reflexivity | exact Hv]).
  cbn [bind]. apply ipv6ToBigInt_text.
Qed.

Lemma autodetect_v6_mapped n compress :
  Z.shiftr n 32 = 0xffff ->
  ipToBigInt (bigIntToIp n V6 compress) None = Throw InvalidIPAddressError.
Proof.
  intros Hm. unfold ipToBigInt, fastIpVersion, bigIntToIp.
  replace (Z.shiftr n 32 =? 0xffff) with true by (symmetry; apply Z.eqb_eq; exact Hm).
  assert (Hd : includes "." (L "::ffff:" ++ ipv4_text (Z.land n 0xffffffff)) = true).
  { rewrite includes_app. apply orb_true_intro. right. apply includes_iff.
    apply (needs_sound "."%char IPV4_ADDRESS_PATTERN); [vm_compute; reflexivity |].
    apply ipv4_text_valid. }
  rewrite Hd. cbn [bind].
  destruct (ipv4ToBigInt (L "::ffff:" ++ ipv4_text (Z.land n 0xffffffff))) as [v | e] eqn:E.
  - apply ipv4ToBigInt_chars in E. discriminate.
  - apply ipv4ToBigInt_error in E. subst. reflexivity.
Qed.

(** C8 is right and the code is wrong.  With the version given, parsing
    the rendering of [n] gives [n] back for every [n] in range, IPv4 and
    IPv6, compressed and expanded; IPv4 also with the version detected.  But
    with the version left out, as [ipToBigInt] documents it may be, the
    round trip of an IPv6 rendering holds only outside the IPv4-mapped
    range: inside it the rendering holds a dot, [fastIpVersion] takes it for
    IPv4 and [ipToBigInt] throws. *)
Theorem C8_round_trip_autodetect (n : Z) (compress : bool) :
  (0 <= n < 2 ^ 32 ->
     ipToBigInt (bigIntToIp n V4 compress) (Some V4) = Ok n
     /\ ipToBigInt (bigIntToIp n V4 compress) None = Ok n)
  /\ (0 <= n < 2 ^ 128 ->
     ipToBigInt (bigIntToIp n V6 compress) (Some V6) = Ok n
     /\ ipToBigInt (bigIntToIp n V6 compress) None
        = if Z.shiftr n 32 =? 0xffff then Throw InvalidIPAddressError else Ok n).
Proof.
  destruct (integer_round_trip_explicit n compress) as [H4 H6].
  split; [exact H4 |]. intros Hn. split; [exact (H6 Hn) |].
  destruct (Z.eqb_spec (Z.shiftr n 32) 0xffff) as [Em | Em].
  - apply autodetect_v6_mapped. exact Em.
  - rewrite autodetect_v6_plain by exact Em. rewrite Z.mod_small by lia. reflexivity.
Qed.

Lemma C8_round_trip_autodetect_witness :
  (ipToBigInt (bigIntToIp 3232235777 V4 true) (Some V4) = Ok 3232235777
   /\ ipToBigInt (bigIntToIp 3232235777 V4 true) None = Ok 3232235777)
  /\ (ipToBigInt (bigIntToIp 281473913979137 V6 true) (Some V6) = Ok 281473913979137
      /\ ipToBigInt (bigIntToIp 281473913979137 V6 true) None
         = Throw InvalidIPAddressError)
  /\ bigIntToIp 281473913979137 V6 true = L "::ffff:192.168.1.1".
Proof.
  split; [| split].
  - apply (C8_round_trip_autodetect 3232235777 true). lia.
  - apply (C8_round_trip_autodetect 281473913979137 true). lia.
  - vm_compute. reflexivity.
Defined.
